(** * SAT-solving algorithms: DP, resolution and DPLL

    A shallow embedding of [scripts/dp.py], [scripts/resolution.py] and
    [scripts/dpll.py], and the properties of the three engines, of the
    DIMACS reader they share and of the rows their harnesses write.

    Conventions of the embedding.
    - A Python [int] is a [Z].
    - A Python [list] is a [list]; iteration is in list order.
    - A Python [set] or [frozenset] of literals met by [resolution] is a
      [gset Z], a set of frozensets a [gset (gset Z)]; [elements] is the
      order in which the set is iterated, an order the source does not fix.
    - [None] results are [option]s; a [while] loop or a recursion whose
      termination is not structural takes a [fuel] and answers [None] when
      it runs out; the lemmas named [*_terminates] give a fuel that
      suffices.
    - A list object that the source mutates while its caller still holds
      it ([current_assignment] in [dpll]) is threaded as state: the model
      returns the contents of the caller's object next to the result.
    - What a call does to the objects it is given is stated over a store
      of objects (module [Store]), in which the engines are written with
      their allocations and their writes, and shown to return what the
      engines above return. *)

From Stdlib Require Import ZArith List Lia Bool Permutation.
From Stdlib Require Ascii String.
From stdpp Require gmap.
Import ListNotations.
Open Scope Z_scope.

(** ** Shared list helpers *)

(** [x in l] for a Python list (or the elements of a set) of integers. *)
Definition mem (x : Z) (l : list Z) : bool := existsb (Z.eqb x) l.

Lemma mem_In x l : mem x l = true <-> In x l.
Proof.
  unfold mem. rewrite existsb_exists. split.
  - intros [y [Hy Heq]]. apply Z.eqb_eq in Heq. now subst.
  - intros H. exists x. split; [assumption | apply Z.eqb_refl].
Qed.

Lemma mem_false x l : mem x l = false <-> ~ In x l.
Proof.
  rewrite <- mem_In. destruct (mem x l); split; congruence.
Qed.

(** Total number of literal occurrences of a clause list. *)
Definition size (clauses : list (list Z)) : nat :=
  fold_right (fun clause n => (length clause + n)%nat) 0%nat clauses.

(** ** Assignments and models *)

(** [clause] has a literal that [A] makes true. *)
Definition satisfied_by (A : list Z) (clause : list Z) : Prop :=
  exists literal, In literal clause /\ In literal A.

(** No variable is present in both polarities.  A variable is the
    absolute value of a non-zero literal, a positive integer. *)
Definition consistent (A : list Z) : Prop :=
  forall v, 0 < v -> ~ (In v A /\ In (- v) A).

Lemma consistent_incl A B : incl B A -> consistent A -> consistent B.
Proof.
  intros Hincl HA v Hv [H1 H2]. apply (HA v Hv). split; now apply Hincl.
Qed.

Lemma consistent_app A B :
  consistent A -> consistent B ->
  (forall l, In l B -> ~ In (- l) A) ->
  consistent (A ++ B).
Proof.
  intros HA HB Hsep v Hv [H1 H2].
  apply in_app_or in H1. apply in_app_or in H2.
  destruct H1 as [H1 | H1], H2 as [H2 | H2].
  - apply (HA v Hv). tauto.
  - apply (Hsep _ H2). now rewrite Z.opp_involutive.
  - now apply (Hsep _ H1).
  - apply (HB v Hv). tauto.
Qed.

Lemma consistent_singleton l : consistent [l].
Proof.
  intros v Hv [[H1 | []] [H2 | []]]. lia.
Qed.

Lemma consistent_snoc A l :
  consistent A -> ~ In (- l) A -> consistent (A ++ [l]).
Proof.
  intros HA Hl. apply consistent_app; [assumption | apply consistent_singleton|].
  intros x [<- | []]. assumption.
Qed.

Lemma consistent_nil : consistent [].
Proof. intros v _ [[] _]. Qed.

(** [W] is a model of [clauses]: a consistent set of literals with a
    literal in every clause. *)
Definition models (W : list Z) (clauses : list (list Z)) : Prop :=
  consistent W /\ forall c, In c clauses -> satisfied_by W c.

Definition satisfiable (clauses : list (list Z)) : Prop :=
  exists W, models W clauses.

Lemma consistent_no_clash W l : consistent W -> In l W -> In (- l) W -> l = 0.
Proof.
  intros HW H1 H2. destruct (Z.lt_trichotomy l 0) as [Hl | [Hl | Hl]];
    [|assumption|].
  - exfalso. apply (HW (- l)); [lia|]. rewrite Z.opp_involutive. tauto.
  - exfalso. apply (HW l Hl). tauto.
Qed.

Lemma consistent_cons W l : consistent W -> ~ In (- l) W -> consistent (l :: W).
Proof.
  intros HW Hl v Hv [[E1 | H1] [E2 | H2]].
  - lia.
  - subst. contradiction.
  - assert (l = - v) as -> by lia. rewrite Z.opp_involutive in Hl. contradiction.
  - apply (HW v Hv). tauto.
Qed.

(** ** Valuations *)

(** The truth of a literal under a valuation of the variables. *)
Definition lit_true (v : Z -> bool) (l : Z) : bool :=
  if 0 <? l then v l else negb (v (- l)).

Definition clause_true (v : Z -> bool) (clause : list Z) : bool :=
  existsb (lit_true v) clause.

Lemma lit_true_opp v l : l <> 0 -> lit_true v (- l) = negb (lit_true v l).
Proof.
  intros Hl. unfold lit_true.
  destruct (0 <? l) eqn:H1, (0 <? - l) eqn:H2;
    try apply Z.ltb_lt in H1; try apply Z.ltb_lt in H2;
    try apply Z.ltb_ge in H1; try apply Z.ltb_ge in H2; try lia.
  - now rewrite Z.opp_involutive.
  - now rewrite negb_involutive.
Qed.

Lemma clause_true_iff v clause :
  clause_true v clause = true <->
  exists l, In l clause /\ lit_true v l = true.
Proof. apply existsb_exists. Qed.

(** The valuation [v] with the variable [var] set to [b]. *)
Definition set_variable (v : Z -> bool) (var : Z) (b : bool) : Z -> bool :=
  fun x => if x =? var then b else v x.

Lemma set_variable_other v var b l :
  l <> var -> l <> - var -> lit_true (set_variable v var b) l = lit_true v l.
Proof.
  intros H1 H2. unfold lit_true, set_variable.
  destruct (0 <? l).
  - destruct (l =? var) eqn:E; [apply Z.eqb_eq in E; contradiction | reflexivity].
  - destruct (- l =? var) eqn:E; [apply Z.eqb_eq in E; lia | reflexivity].
Qed.

Lemma set_variable_pos v var b : 0 < var -> lit_true (set_variable v var b) var = b.
Proof.
  intros H. unfold lit_true, set_variable.
  apply Z.ltb_lt in H. now rewrite H, Z.eqb_refl.
Qed.

Lemma set_variable_neg v var b :
  0 < var -> lit_true (set_variable v var b) (- var) = negb b.
Proof.
  intros H. rewrite lit_true_opp by lia. now rewrite set_variable_pos.
Qed.

(** A formula without the literal 0 has a model exactly when some
    valuation makes every clause true. *)
Lemma satisfiable_valuation clauses :
  (forall c, In c clauses -> ~ In 0 c) ->
  satisfiable clauses <->
  exists v, forall c, In c clauses -> clause_true v c = true.
Proof.
  intros Hzero. split.
  - intros [W [HW Hsat]]. exists (fun x => mem x W). intros c Hc.
    destruct (Hsat c Hc) as [l [Hl HlW]]. apply clause_true_iff.
    exists l. split; [assumption|]. unfold lit_true.
    destruct (0 <? l) eqn:Hpos; [now apply mem_In|].
    apply negb_true_iff, mem_false. intros Hneg.
    assert (l = 0) by (apply (consistent_no_clash W); auto).
    subst. apply (Hzero c Hc Hl).
  - intros [v Hv]. exists (filter (lit_true v) (concat clauses)). split.
    + intros x Hx [H1 H2]. apply filter_In in H1, H2.
      destruct H1 as [_ H1], H2 as [_ H2].
      rewrite lit_true_opp in H2 by lia. rewrite H1 in H2. discriminate.
    + intros c Hc. destruct (proj1 (clause_true_iff v c) (Hv c Hc)) as [l [Hl Ht]]. exists l. split; [assumption|].
      apply filter_In. split; [|assumption].
      apply in_concat. exists c. tauto.
Qed.

(** A clause as the reader hands it over and as [dp] meets it: a Python
    [set] under [as_sets=True], a Python [list] otherwise, and a [list]
    for every resolvent [dp] builds.  The two behave alike under [in] and
    under iteration, but [[] == set()] is [False]. *)
Inductive pyclause :=
| PyList (items : list Z)
| PySet (items : list Z).

Definition literals_of (clause : pyclause) : list Z :=
  match clause with PyList items | PySet items => items end.

(** * The DIMACS reader ([parse_cnf_file], the same in the three scripts)

    A line is a [string] whose characters stand for the code points 0 to
    255; the text of a file is the list of its lines. *)

Module Parser.
Import Ascii String.
Local Open Scope char_scope.

(** [c.isspace()] for a code point below 256: the characters that
    [str.strip()] and [str.split()] treat as white space. *)
Definition is_space (c : ascii) : bool :=
  let n := N_of_ascii c in
  ((9 <=? n) && (n <=? 13) || (28 <=? n) && (n <=? 32)
   || (n =? 133) || (n =? 160))%N.

Fixpoint lstrip (s : string) : string :=
  match s with
  | EmptyString => EmptyString
  | String c rest => if is_space c then lstrip rest else s
  end.

Fixpoint rstrip (s : string) : string :=
  match s with
  | EmptyString => EmptyString
  | String c rest =>
      match rstrip rest with
      | EmptyString => if is_space c then EmptyString else String c EmptyString
      | kept => String c kept
      end
  end.

(** [line.strip()]. *)
Definition strip (line : string) : string := rstrip (lstrip line).

(** [not line or line.startswith(('c', 'p', '%'))]. *)
Definition skipped (line : string) : bool :=
  match line with
  | EmptyString => true
  | String c _ => (c =? "c") || (c =? "p") || (c =? "%")
  end.

(** [line.split()]: the maximal runs of characters that are not white
    space.  [token] holds the run being read. *)
Fixpoint split_from (token : string) (s : string) : list string :=
  match s with
  | EmptyString =>
      match token with EmptyString => [] | _ => [token] end
  | String c rest =>
      if is_space c
      then match token with
           | EmptyString => split_from EmptyString rest
           | _ => token :: split_from EmptyString rest
           end
      else split_from (token ++ String c EmptyString) rest
  end.

Definition split (line : string) : list string := split_from EmptyString line.

Definition digit_of (c : ascii) : option Z :=
  let n := N_of_ascii c in
  if ((48 <=? n) && (n <=? 57))%N then Some (Z.of_N (n - 48)) else None.

(** The digits of an integer literal, with single underscores allowed
    between digits; [after_digit] tells that the last character read was a
    digit. *)
Fixpoint digits (s : string) (value : Z) (after_digit : bool) : option Z :=
  match s with
  | EmptyString => if after_digit then Some value else None
  | String c rest =>
      match digit_of c with
      | Some d => digits rest (10 * value + d) true
      | None =>
          if (c =? "_") && after_digit then digits rest value false else None
      end
  end.

(** [int(token)] for a token without white space; [None] is the
    [ValueError]. *)
Definition int (token : string) : option Z :=
  match token with
  | String "+" rest => digits rest 0 false
  | String "-" rest => option_map Z.opp (digits rest 0 false)
  | _ => digits token 0 false
  end.

(** [list(map(int, tokens))]: one [ValueError] loses the whole line. *)
Fixpoint ints (tokens : list string) : option (list Z) :=
  match tokens with
  | [] => Some []
  | token :: rest =>
      match int token, ints rest with
      | Some n, Some ns => Some (n :: ns)
      | _, _ => None
      end
  end.

(** [if literals and literals[-1] == 0: literals = literals[:-1]]. *)
Definition drop_trailing_zero (literals : list Z) : list Z :=
  match literals with
  | [] => []
  | _ => if (last literals 1 =? 0)%Z then removelast literals else literals
  end.

(** The integers read on a line that is not skipped, before the trailing
    zero is dropped. *)
Definition line_literals (line : string) : option (list Z) :=
  ints (split (strip line)).

(** The body of the loop for one line: the clause appended, if any. *)
Definition parse_line (line : string) (as_sets : bool) : option pyclause :=
  let line := strip line in
  if skipped line then None
  else
    match ints (split line) with
    | None => None
    | Some literals =>
        match drop_trailing_zero literals with
        | [] => None
        | literals =>
            Some (if as_sets then PySet (nodup Z.eq_dec literals)
                  else PyList literals)
        end
    end.

(** [parse_cnf_file(file_path, as_sets)] on the lines of the file. *)
Fixpoint parse_cnf_file (lines : list string) (as_sets : bool) : list pyclause :=
  match lines with
  | [] => []
  | line :: rest =>
      match parse_line line as_sets with
      | Some clause => clause :: parse_cnf_file rest as_sets
      | None => parse_cnf_file rest as_sets
      end
  end.

Local Open Scope string_scope.

Example parse_small :
  parse_cnf_file
    ["c a comment"; "p cnf 3 2"; "1 -2 0"; ""; "  2 3 -1 0 "; "%"; "0"; "1 x 0";
     "+3 -0_1"] false
  = [PyList [1; -2]; PyList [2; 3; -1]; PyList [3; -1]].
Proof. reflexivity. Qed.

Example parse_small_sets :
  parse_cnf_file ["1 1 -2 0"; "3"] true = [PySet [1; -2]; PySet [3]].
Proof. reflexivity. Qed.

Local Close Scope string_scope.
Local Close Scope char_scope.

(** ** What the reader stores *)

Lemma parse_cnf_file_In lines as_sets clause :
  In clause (parse_cnf_file lines as_sets) <->
  exists line, In line lines /\ parse_line line as_sets = Some clause.
Proof.
  induction lines as [|line rest IH]; simpl.
  - split; [intros [] | intros [line [[] _]]].
  - destruct (parse_line line as_sets) as [c|] eqn:Hline; simpl; rewrite IH.
    + split.
      * intros [<- | [l [Hl Hc]]]; [exists line; tauto | exists l; tauto].
      * intros [l [[<- | Hl] Hc]]; [left; congruence | right; exists l; tauto].
    + split.
      * intros [l [Hl Hc]]. exists l. tauto.
      * intros [l [[<- | Hl] Hc]]; [congruence | exists l; tauto].
Qed.

Lemma drop_trailing_zero_snoc literals :
  drop_trailing_zero (literals ++ [0]) = literals.
Proof.
  unfold drop_trailing_zero.
  destruct (literals ++ [0]) eqn:E; [now destruct literals|].
  rewrite <- E, last_last, removelast_last. reflexivity.
Qed.

(** A zero that survives [drop_trailing_zero] was not the last integer of
    the line. *)
Lemma drop_trailing_zero_In literals :
  In 0 (drop_trailing_zero literals) -> In 0 (removelast literals).
Proof.
  unfold drop_trailing_zero. destruct literals as [|l ls]; [intros []|].
  destruct (last (l :: ls) 1 =? 0) eqn:Hlast; [tauto|].
  apply Z.eqb_neq in Hlast. intros Hin.
  rewrite (app_removelast_last 1 (l := l :: ls)) in Hin by discriminate.
  apply in_app_or in Hin. destruct Hin as [Hin | [Hin | []]]; [assumption|].
  congruence.
Qed.

Lemma parse_line_Some line as_sets clause :
  parse_line line as_sets = Some clause ->
  exists literals,
    skipped (strip line) = false /\ line_literals line = Some literals /\
    drop_trailing_zero literals <> [] /\
    clause = if as_sets then PySet (nodup Z.eq_dec (drop_trailing_zero literals))
             else PyList (drop_trailing_zero literals).
Proof.
  unfold parse_line, line_literals.
  destruct (skipped (strip line)); [discriminate|].
  destruct (ints (split (strip line))) as [literals|]; [|discriminate].
  destruct (drop_trailing_zero literals) as [|l ls] eqn:Hdrop; [discriminate|].
  intros [= <-]. exists literals. rewrite Hdrop.
  split; [reflexivity|]. split; [reflexivity|]. split; [discriminate | reflexivity].
Qed.

(** The line [1 0 2 0]: only the last zero is dropped, the inner one is
    stored as a literal. *)
Lemma parse_keeps_inner_zero :
  parse_cnf_file ["1 0 2 0"%string] false = [PyList [1; 0; 2]] /\
  In 0 (literals_of (PyList [1; 0; 2])).
Proof. split; [reflexivity | simpl; tauto]. Qed.

(** C8, amended (no literal 0 past parsing): when, on every line of
    integers, 0 occurs at most as the last one, no clause stored by
    [parse_cnf_file] contains the literal 0, and none is empty.  Whatever
    the text, a line that is blank or starts with [c], [p] or [%], and a
    line with a token that is not an integer, contribute nothing; a
    trailing 0 is dropped, not stored; and a line left without literals is
    dropped. *)
Theorem parse_cnf_file_no_zero lines as_sets :
  (forall line literals,
     In line lines -> line_literals line = Some literals ->
     ~ In 0 (removelast literals)) ->
  (forall clause, In clause (parse_cnf_file lines as_sets) ->
     literals_of clause <> [] /\ ~ In 0 (literals_of clause)) /\
  (forall line,
     skipped (strip line) = true \/ line_literals line = None ->
     parse_cnf_file [line] as_sets = []) /\
  (forall line literals,
     skipped (strip line) = false ->
     line_literals line = Some (literals ++ [0]) ->
     parse_cnf_file [line] as_sets =
     match literals with
     | [] => []
     | _ => [if as_sets then PySet (nodup Z.eq_dec literals) else PyList literals]
     end).
Proof.
  intros Hzero. split; [|split].
  - intros clause Hc. apply parse_cnf_file_In in Hc.
    destruct Hc as [line [Hline Hc]].
    destruct (parse_line_Some _ _ _ Hc) as [literals [_ [Hl [Hne ->]]]].
    assert (~ In 0 (drop_trailing_zero literals)) as Hno.
    { intros Hin. apply (Hzero _ _ Hline Hl). now apply drop_trailing_zero_In. }
    destruct as_sets; simpl; [|tauto].
    split; [|now rewrite nodup_In].
    destruct (drop_trailing_zero literals) as [|l ls]; [congruence|].
    intros E. assert (In l (nodup Z.eq_dec (l :: ls))) as Hin
      by (apply nodup_In; now left).
    rewrite E in Hin. destruct Hin.
  - intros line H. simpl. unfold parse_line, line_literals in *.
    destruct (skipped (strip line)); [reflexivity|].
    destruct H as [H | H]; [discriminate|]. now rewrite H.
  - intros line literals Hskip Hl. simpl. unfold parse_line, line_literals in *.
    rewrite Hskip, Hl, drop_trailing_zero_snoc.
    destruct literals; reflexivity.
Qed.

Lemma parse_cnf_file_no_zero_example :
  (forall line literals,
     In line ["c x"; "1 -2 0"; "0"]%string -> line_literals line = Some literals ->
     ~ In 0 (removelast literals)) /\
  parse_cnf_file ["c x"; "1 -2 0"; "0"]%string false = [PyList [1; -2]] /\
  (forall clause,
     In clause (parse_cnf_file ["c x"; "1 -2 0"; "0"]%string false) ->
     literals_of clause <> [] /\ ~ In 0 (literals_of clause)).
Proof.
  assert (forall line literals,
     In line ["c x"; "1 -2 0"; "0"]%string -> line_literals line = Some literals ->
     ~ In 0 (removelast literals)) as H.
  { intros line literals [<- | [<- | [<- | []]]] Hl; vm_compute in Hl;
      try discriminate; injection Hl as <-; simpl; intuition discriminate. }
  split; [exact H|]. split; [reflexivity|].
  exact (proj1 (parse_cnf_file_no_zero ["c x"; "1 -2 0"; "0"]%string false H)).
Defined.

(** ** Lines, tokens and clauses *)

Fixpoint has_space (s : string) : bool :=
  match s with
  | EmptyString => false
  | String c rest => is_space c || has_space rest
  end.

Lemma has_space_snoc token c :
  has_space (token ++ String c EmptyString) = has_space token || is_space c.
Proof.
  induction token as [|d token IH]; simpl.
  - now rewrite orb_false_r.
  - now rewrite IH, orb_assoc.
Qed.

Lemma snoc_not_empty token c : (token ++ String c EmptyString)%string <> EmptyString.
Proof. destruct token; discriminate. Qed.

Lemma split_from_tokens s :
  forall token, has_space token = false ->
  forall t, In t (split_from token s) -> t <> EmptyString /\ has_space t = false.
Proof.
  induction s as [|c rest IH]; intros token Htoken t Ht; simpl in Ht.
  - destruct token; [destruct Ht|]. destruct Ht as [<- | []].
    split; [discriminate | assumption].
  - destruct (is_space c) eqn:Hc.
    + destruct token.
      * now apply (IH EmptyString eq_refl).
      * destruct Ht as [<- | Ht]; [split; [discriminate | assumption]|].
        now apply (IH EmptyString eq_refl).
    + apply (IH (token ++ String c EmptyString)%string); [|assumption].
      now rewrite has_space_snoc, Htoken, Hc.
Qed.

Lemma split_from_lstrip s : split_from EmptyString (lstrip s) = split_from EmptyString s.
Proof.
  induction s as [|c rest IH]; [reflexivity|]. simpl.
  destruct (is_space c) eqn:Hc; [assumption|]. simpl. now rewrite Hc.
Qed.

Lemma split_from_rstrip s :
  forall token, split_from token (rstrip s) = split_from token s.
Proof.
  induction s as [|c rest IH]; intros token; [reflexivity|]. simpl.
  destruct (rstrip rest) as [|d kept] eqn:Hr.
  - destruct (is_space c) eqn:Hc.
    + simpl. destruct token; now rewrite <- IH.
    + simpl. rewrite Hc. now rewrite <- IH.
  - change (split_from token (String c (String d kept)))
      with (if is_space c
            then match token with
                 | EmptyString => split_from EmptyString (String d kept)
                 | _ => token :: split_from EmptyString (String d kept)
                 end
            else split_from (token ++ String c EmptyString) (String d kept)).
    destruct (is_space c); [destruct token|]; now rewrite IH.
Qed.

(** [line.split()] yields tokens that are not empty and hold no white
    space, and white space around the line does not change them: the
    [strip] before it matters only to the tests for a blank line and for
    the first character. *)
Theorem split_spec line :
  (forall token, In token (split line) ->
     token <> EmptyString /\ has_space token = false) /\
  split (strip line) = split line.
Proof.
  split.
  - intros token. now apply split_from_tokens.
  - unfold split, strip. now rewrite split_from_rstrip, split_from_lstrip.
Qed.

Lemma parse_cnf_file_app lines1 lines2 as_sets :
  parse_cnf_file (lines1 ++ lines2) as_sets
  = parse_cnf_file lines1 as_sets ++ parse_cnf_file lines2 as_sets.
Proof.
  induction lines1 as [|line rest IH]; [reflexivity|]. simpl.
  destruct (parse_line line as_sets); simpl; now rewrite IH.
Qed.

(** The set that [set(literals)] builds from a stored list. *)
Definition as_set (clause : pyclause) : pyclause :=
  PySet (nodup Z.eq_dec (literals_of clause)).

Lemma parse_line_as_sets line :
  parse_line line true = option_map as_set (parse_line line false).
Proof.
  unfold parse_line. destruct (skipped (strip line)); [reflexivity|].
  destruct (ints (split (strip line))) as [literals|]; [|reflexivity].
  now destruct (drop_trailing_zero literals).
Qed.

Lemma parse_cnf_file_nonempty lines as_sets clause :
  In clause (parse_cnf_file lines as_sets) -> literals_of clause <> [].
Proof.
  intros Hc. apply parse_cnf_file_In in Hc.
  destruct Hc as [line [_ Hc]].
  destruct (parse_line_Some _ _ _ Hc) as [literals [_ [_ [Hne ->]]]].
  destruct as_sets; simpl; [|assumption].
  destruct (drop_trailing_zero literals) as [|l ls]; [congruence|].
  intros E. assert (In l (nodup Z.eq_dec (l :: ls))) as Hin
    by (apply nodup_In; now left).
  rewrite E in Hin. destruct Hin.
Qed.

Lemma parse_cnf_file_as_sets lines :
  parse_cnf_file lines true = map as_set (parse_cnf_file lines false).
Proof.
  induction lines as [|line rest IH]; [reflexivity|]. simpl.
  rewrite parse_line_as_sets.
  destruct (parse_line line false); simpl; now rewrite IH.
Qed.

(** The reader works line by line and never stores an empty clause:
    whatever the text, no clause of the output is empty; the clauses of a
    text in two parts are those of the first part followed by those of the
    second; and with [as_sets] the output holds the same clauses as
    without, each as the set of its literals. *)
Theorem parse_cnf_file_lines :
  (forall lines as_sets clause,
     In clause (parse_cnf_file lines as_sets) -> literals_of clause <> []) /\
  (forall lines1 lines2 as_sets,
     parse_cnf_file (lines1 ++ lines2) as_sets
     = parse_cnf_file lines1 as_sets ++ parse_cnf_file lines2 as_sets) /\
  (forall lines,
     parse_cnf_file lines true = map as_set (parse_cnf_file lines false)).
Proof.
  split; [exact parse_cnf_file_nonempty|].
  split; [exact parse_cnf_file_app | exact parse_cnf_file_as_sets].
Qed.

End Parser.

(** * The DPLL engine ([scripts/dpll.py]) *)

Module DPLL.

(** [simplify(clauses, current_assignment)]: [None] is the conflict. *)
Fixpoint simplify (clauses : list (list Z)) (current_assignment : list Z)
  : option (list (list Z)) :=
  match clauses with
  | [] => Some []
  | clause :: rest =>
      if existsb (fun literal => mem literal current_assignment) clause
      then simplify rest current_assignment
      else
        match filter (fun literal => negb (mem (- literal) current_assignment)) clause with
        | [] => None
        | new_clause =>
            match simplify rest current_assignment with
            | None => None
            | Some new_clauses => Some (new_clause :: new_clauses)
            end
        end
  end.

(** [find_unit_clause(clauses)]: the literal of the first clause of length 1. *)
Fixpoint find_unit_clause (clauses : list (list Z)) : option Z :=
  match clauses with
  | [] => None
  | [literal] :: _ => Some literal
  | _ :: rest => find_unit_clause rest
  end.

(** [counter[literal] = counter.get(literal, 0) + 1] on a dict kept as an
    association list in insertion order, the order Python iterates it in. *)
Fixpoint counter_incr (counter : list (Z * nat)) (literal : Z) : list (Z * nat) :=
  match counter with
  | [] => [(literal, 1%nat)]
  | (key, n) :: rest =>
      if key =? literal then (key, S n) :: rest
      else (key, n) :: counter_incr rest literal
  end.

Definition count_literals (clauses : list (list Z)) : list (Z * nat) :=
  fold_left (fun counter clause => fold_left counter_incr clause counter) clauses [].

(** [find_pure_literals(clauses)]. *)
Definition find_pure_literals (clauses : list (list Z)) : list Z :=
  let counter := map fst (count_literals clauses) in
  filter (fun lit => negb (mem (- lit) counter)) counter.

(** [choose_literal(clauses)]: the variable of the first literal met. *)
Fixpoint choose_literal (clauses : list (list Z)) : option Z :=
  match clauses with
  | [] => None
  | [] :: rest => choose_literal rest
  | (lit :: _) :: _ => Some (Z.abs lit)
  end.

(** What a call of [dpll] leaves behind: the pair it returns ([sat],
    [result]), the contents of the caller's [current_assignment] object
    after the call, and the successive contents of every assignment list
    written or built during the call, in order. *)
Record outcome := Outcome {
  sat : bool;
  result : option (list Z);
  caller_assignment : list Z;
  trace : list (list Z)
}.

(** The unit-propagation loop.  The result is the clause list ([None] on
    a conflict), the assignment list after the appends, and the contents
    the list went through. *)
Fixpoint unit_propagate (fuel : nat) (clauses : list (list Z))
    (current_assignment : list Z)
  : option (option (list (list Z)) * list Z * list (list Z)) :=
  match find_unit_clause clauses with
  | None => Some (Some clauses, current_assignment, [])
  | Some unit_literal =>
      match fuel with
      | O => None
      | S fuel' =>
          let current_assignment := current_assignment ++ [unit_literal] in
          match simplify clauses [unit_literal] with
          | None => Some (None, current_assignment, [current_assignment])
          | Some clauses =>
              match unit_propagate fuel' clauses current_assignment with
              | None => None
              | Some (r, final, tr) => Some (r, final, current_assignment :: tr)
              end
          end
      end
  end.

(** [for literal in pure_literals: current_assignment.append(literal)]. *)
Fixpoint append_each (current_assignment : list Z) (literals : list Z)
  : list Z * list (list Z) :=
  match literals with
  | [] => (current_assignment, [])
  | literal :: rest =>
      let current_assignment := current_assignment ++ [literal] in
      let (final, tr) := append_each current_assignment rest in
      (final, current_assignment :: tr)
  end.

(** Where the rules that come before the split leave a call of [dpll]:
    it has returned, or it goes on to choose a variable with the clauses
    and the assignment list as they now are. *)
Inductive stage :=
| Returned (o : outcome)
| Branching (clauses : list (list Z)) (current_assignment : list Z)
    (tr : list (list Z)).

(** The body of [dpll] down to the pure-literal rule: the entry
    [simplify], the unit-propagation loop and the pure literals.  The
    appends go to the caller's own list. *)
Definition dpll_rules (clauses : list (list Z)) (current_assignment : list Z)
  : option stage :=
  match simplify clauses current_assignment with
  | None => Some (Returned (Outcome false None current_assignment []))
  | Some [] =>
      Some (Returned (Outcome true (Some current_assignment) current_assignment []))
  | Some clauses =>
      match unit_propagate (length clauses) clauses current_assignment with
      | None => None
      | Some (None, current_assignment, tr1) =>
          Some (Returned (Outcome false None current_assignment tr1))
      | Some (Some clauses, current_assignment, tr1) =>
          let pure_literals := find_pure_literals clauses in
          let (current_assignment, tr2) :=
            append_each current_assignment pure_literals in
          match simplify clauses pure_literals with
          | None =>
              Some (Returned (Outcome false None current_assignment (tr1 ++ tr2)))
          | Some clauses => Some (Branching clauses current_assignment (tr1 ++ tr2))
          end
      end
  end.

(** [dpll(clauses, current_assignment)].  The two recursive calls receive
    the fresh list [current_assignment + [value]], for [value] in
    [[variable, -variable]]. *)
Fixpoint dpll (fuel : nat) (clauses : list (list Z)) (current_assignment : list Z)
  : option outcome :=
  match fuel with
  | O => None
  | S fuel' =>
      match dpll_rules clauses current_assignment with
      | None => None
      | Some (Returned o) => Some o
      | Some (Branching clauses current_assignment tr) =>
          match choose_literal clauses with
          | None =>
              Some (Outcome true (Some current_assignment) current_assignment tr)
          | Some variable =>
              let first := current_assignment ++ [variable] in
              match dpll fuel' clauses first with
              | None => None
              | Some o1 =>
                  let tr1 := tr ++ first :: trace o1 in
                  if sat o1
                  then Some (Outcome true (result o1) current_assignment tr1)
                  else
                    let second := current_assignment ++ [- variable] in
                    match dpll fuel' clauses second with
                    | None => None
                    | Some o2 =>
                        let tr2 := tr1 ++ second :: trace o2 in
                        if sat o2
                        then Some (Outcome true (result o2) current_assignment tr2)
                        else Some (Outcome false None current_assignment tr2)
                    end
              end
          end
      end
  end.

(** The fuel [dpll] is run with: one more than the literal occurrences. *)
Definition dpll_fuel (clauses : list (list Z)) : nat := S (size clauses).

Example dpll_scenario1 :
  dpll (dpll_fuel [[1]]) [[1]] [] = Some (Outcome true (Some [1]) [1] [[1]]).
Proof. reflexivity. Qed.

Example dpll_scenario2 :
  option_map sat (dpll (dpll_fuel [[1]; [-1]]) [[1]; [-1]] []) = Some false.
Proof. reflexivity. Qed.

Example dpll_scenario3 :
  option_map sat (dpll 9 [[1; 2]; [-1]; [-2]] []) = Some false.
Proof. reflexivity. Qed.

Example dpll_scenario4 :
  dpll 9 [[1; 2]; [-1; 2]; [1; -2]] []
  = Some (Outcome true (Some [1; 2]) [] [[1]; [1; 2]]).
Proof. reflexivity. Qed.

Example dpll_scenario5 :
  option_map sat (dpll 10 [[1; 2; 3]; [-1; 2]; [-2; 3]; [-3]] []) = Some false.
Proof. reflexivity. Qed.

(** ** Facts about [simplify] *)

(** The literals of a clause that survive an assignment. *)
Definition reduce (current_assignment : list Z) (clause : list Z) : list Z :=
  filter (fun literal => negb (mem (- literal) current_assignment)) clause.

Lemma existsb_mem_satisfied A clause :
  existsb (fun literal => mem literal A) clause = true <-> satisfied_by A clause.
Proof.
  rewrite existsb_exists. unfold satisfied_by.
  split; intros [l [H1 H2]]; exists l; split; auto; now apply mem_In.
Qed.

Lemma reduce_In A clause l :
  In l (reduce A clause) <-> In l clause /\ ~ In (- l) A.
Proof.
  unfold reduce. rewrite filter_In, negb_true_iff, mem_false. tauto.
Qed.

Lemma simplify_cons clause rest A :
  simplify (clause :: rest) A =
  if existsb (fun literal => mem literal A) clause then simplify rest A
  else match reduce A clause with
       | [] => None
       | new_clause =>
           match simplify rest A with
           | None => None
           | Some new_clauses => Some (new_clause :: new_clauses)
           end
       end.
Proof. reflexivity. Qed.

(** Every clause kept by [simplify] is the non-empty reduct of an input
    clause that the assignment does not satisfy. *)
Lemma simplify_kept clauses A new_clauses :
  simplify clauses A = Some new_clauses ->
  forall c', In c' new_clauses ->
    c' <> [] /\ exists c, In c clauses /\ ~ satisfied_by A c /\ c' = reduce A c.
Proof.
  revert new_clauses.
  induction clauses as [|clause rest IH]; intros new_clauses H c' Hc'.
  - injection H as <-. destruct Hc'.
  - rewrite simplify_cons in H.
    destruct (existsb _ clause) eqn:Hsat.
    + destruct (IH _ H _ Hc') as [Hne [c [Hc Hrest]]].
      split; [assumption | exists c; split; [right; assumption | assumption]].
    + destruct (reduce A clause) as [|l0 r0] eqn:Hred; [discriminate|].
      destruct (simplify rest A) as [rest'|] eqn:Hrest; [|discriminate].
      injection H as <-. destruct Hc' as [<- | Hc'].
      * split; [discriminate|]. exists clause. split; [left; reflexivity|].
        split; [|symmetry; assumption].
        intros Hs. apply existsb_mem_satisfied in Hs. congruence.
      * destruct (IH _ eq_refl _ Hc') as [Hne [c [Hc Hrest']]].
        split; [assumption | exists c; split; [right; assumption | assumption]].
Qed.

(** Every input clause is satisfied by the assignment or has its reduct
    among the clauses kept. *)
Lemma simplify_covers clauses A new_clauses :
  simplify clauses A = Some new_clauses ->
  forall c, In c clauses -> satisfied_by A c \/ In (reduce A c) new_clauses.
Proof.
  revert new_clauses.
  induction clauses as [|clause rest IH]; intros new_clauses H c Hc.
  - destruct Hc.
  - rewrite simplify_cons in H.
    destruct (existsb _ clause) eqn:Hsat.
    + destruct Hc as [<- | Hc].
      * left. now apply existsb_mem_satisfied.
      * now apply IH.
    + destruct (reduce A clause) as [|l0 r0] eqn:Hred; [discriminate|].
      destruct (simplify rest A) as [rest'|] eqn:Hrest; [|discriminate].
      injection H as <-. destruct Hc as [<- | Hc].
      * right. left. symmetry. assumption.
      * destruct (IH _ eq_refl _ Hc) as [Hs | Hin]; [left | right; right]; assumption.
Qed.

Lemma simplify_no_empty clauses A new_clauses :
  simplify clauses A = Some new_clauses -> ~ In [] new_clauses.
Proof.
  intros H Hin. destruct (simplify_kept _ _ _ H _ Hin) as [Hne _]. now apply Hne.
Qed.

(** After [simplify], no literal left is assigned either way. *)
Lemma simplify_reduced clauses A new_clauses :
  simplify clauses A = Some new_clauses ->
  forall c l, In c new_clauses -> In l c -> ~ In l A /\ ~ In (- l) A.
Proof.
  intros H c' l Hc' Hl.
  destruct (simplify_kept _ _ _ H _ Hc') as [_ [c [Hc [Hns ->]]]].
  apply reduce_In in Hl. destruct Hl as [Hl Hneg]. split; [|assumption].
  intros HA. apply Hns. exists l. split; assumption.
Qed.

(** [simplify] only ever keeps literals of its input. *)
Lemma simplify_literals clauses A new_clauses :
  simplify clauses A = Some new_clauses ->
  forall c' l, In c' new_clauses -> In l c' -> exists c, In c clauses /\ In l c.
Proof.
  intros H c' l Hc' Hl.
  destruct (simplify_kept _ _ _ H _ Hc') as [_ [c [Hc [_ ->]]]].
  apply reduce_In in Hl. exists c. tauto.
Qed.

Lemma reduce_length A clause : (length (reduce A clause) <= length clause)%nat.
Proof. apply filter_length_le. Qed.

Lemma simplify_size clauses A new_clauses :
  simplify clauses A = Some new_clauses -> (size new_clauses <= size clauses)%nat.
Proof.
  revert new_clauses. induction clauses as [|clause rest IH]; intros new_clauses H.
  - injection H as <-. apply Nat.le_refl.
  - rewrite simplify_cons in H.
    destruct (existsb _ clause).
    + specialize (IH _ H). simpl. lia.
    + pose proof (reduce_length A clause) as Hlen.
      destruct (reduce A clause) as [|l0 r0] eqn:Hred; [discriminate|].
      destruct (simplify rest A) as [rest'|]; [|discriminate].
      injection H as <-. specialize (IH _ eq_refl). simpl in *. lia.
Qed.

Lemma simplify_length clauses A new_clauses :
  simplify clauses A = Some new_clauses -> (length new_clauses <= length clauses)%nat.
Proof.
  revert new_clauses. induction clauses as [|clause rest IH]; intros new_clauses H.
  - injection H as <-. apply Nat.le_refl.
  - rewrite simplify_cons in H.
    destruct (existsb _ clause).
    + specialize (IH _ H). simpl. lia.
    + destruct (reduce A clause) as [|l0 r0]; [discriminate|].
      destruct (simplify rest A) as [rest'|]; [|discriminate].
      injection H as <-. specialize (IH _ eq_refl). simpl in *. lia.
Qed.

Lemma reduce_length_lt A clause l :
  In l clause -> In (- l) A -> (length (reduce A clause) < length clause)%nat.
Proof.
  intros Hl HA. induction clause as [|x xs IH]; [destruct Hl|].
  unfold reduce in *. simpl.
  destruct (negb (mem (- x) A)) eqn:Hx.
  - destruct Hl as [-> | Hl].
    + apply negb_true_iff, mem_false in Hx. contradiction.
    + simpl. specialize (IH Hl). lia.
  - pose proof (filter_length_le (fun literal => negb (mem (- literal) A)) xs). lia.
Qed.

(** A clause with an assigned literal, of either sign, makes the formula
    strictly smaller. *)
Lemma simplify_size_lt clauses A new_clauses c l :
  simplify clauses A = Some new_clauses ->
  In c clauses -> In l c -> In l A \/ In (- l) A ->
  (size new_clauses < size clauses)%nat.
Proof.
  revert new_clauses. induction clauses as [|clause rest IH];
    intros new_clauses H Hc Hl HA; [destruct Hc|].
  rewrite simplify_cons in H.
  destruct (existsb _ clause) eqn:Hsat.
  - destruct Hc as [-> | Hc].
    + apply simplify_size in H. simpl. destruct c; [destruct Hl | simpl; lia].
    + specialize (IH _ H Hc Hl HA). simpl. lia.
  - pose proof (reduce_length A clause) as Hlen.
    destruct (reduce A clause) as [|l0 r0] eqn:Hred; [discriminate|].
    destruct (simplify rest A) as [rest'|] eqn:Hrest; [|discriminate].
    injection H as <-. destruct Hc as [-> | Hc].
    + apply simplify_size in Hrest.
      assert (length (reduce A c) < length c)%nat as Hlt.
      { destruct HA as [HA | HA].
        - exfalso. assert (satisfied_by A c) as Hs by (exists l; tauto).
          apply existsb_mem_satisfied in Hs. congruence.
        - eapply reduce_length_lt; eassumption. }
      rewrite Hred in Hlt. simpl in *. lia.
    + specialize (IH _ eq_refl Hc Hl HA). simpl in *. lia.
Qed.

(** An assignment that satisfies what [simplify] kept, and extends the
    assignment simplified with, satisfies the clauses given to [simplify]. *)
Lemma simplify_sound clauses A new_clauses W :
  simplify clauses A = Some new_clauses ->
  incl A W ->
  (forall c, In c new_clauses -> satisfied_by W c) ->
  forall c, In c clauses -> satisfied_by W c.
Proof.
  intros H HAW Hnew c Hc.
  destruct (simplify_covers _ _ _ H _ Hc) as [[l [Hl HA]] | Hin].
  - exists l. split; [assumption | now apply HAW].
  - destruct (Hnew _ Hin) as [l [Hl HW]]. apply reduce_In in Hl.
    exists l. tauto.
Qed.

(** ** The helpers of the three rules *)

Lemma find_unit_clause_In clauses literal :
  find_unit_clause clauses = Some literal -> In [literal] clauses.
Proof.
  induction clauses as [|clause rest IH]; [discriminate|].
  destruct clause as [|x [|y ys]]; simpl; intros H.
  - right. now apply IH.
  - injection H as ->. now left.
  - right. now apply IH.
Qed.

(** [literal] occurs in some clause of [clauses]. *)
Definition occurs (clauses : list (list Z)) (literal : Z) : Prop :=
  exists clause, In clause clauses /\ In literal clause.

Lemma counter_incr_keys counter literal key :
  In key (map fst (counter_incr counter literal)) <->
  key = literal \/ In key (map fst counter).
Proof.
  induction counter as [|[k n] rest IH]; simpl.
  - intuition congruence.
  - destruct (k =? literal) eqn:Hk; simpl.
    + apply Z.eqb_eq in Hk. subst. intuition congruence.
    + rewrite IH. tauto.
Qed.

Lemma count_clause_keys clause counter key :
  In key (map fst (fold_left counter_incr clause counter)) <->
  In key clause \/ In key (map fst counter).
Proof.
  revert counter. induction clause as [|l ls IH]; intros counter; simpl.
  - tauto.
  - rewrite IH, counter_incr_keys. intuition congruence.
Qed.

Lemma count_literals_keys_from clauses counter key :
  In key (map fst (fold_left
     (fun counter clause => fold_left counter_incr clause counter) clauses counter)) <->
  occurs clauses key \/ In key (map fst counter).
Proof.
  revert counter. induction clauses as [|c cs IH]; intros counter; simpl.
  - split; [tauto | intros [[c [[] _]] | H]; assumption].
  - rewrite IH, count_clause_keys. unfold occurs. split.
    + intros [[c' [Hc' Hk]] | [Hk | Hk]].
      * left. exists c'. split; [now right | assumption].
      * left. exists c. split; [now left | assumption].
      * now right.
    + intros [[c' [[<- | Hc'] Hk]] | Hk].
      * right. now left.
      * left. exists c'. tauto.
      * right. now right.
Qed.

(** The keys of the counter are the literals that occur. *)
Lemma count_literals_keys clauses key :
  In key (map fst (count_literals clauses)) <-> occurs clauses key.
Proof.
  unfold count_literals. rewrite count_literals_keys_from. simpl. tauto.
Qed.

(** A literal is returned as pure when it occurs and its negation does not. *)
Lemma find_pure_literals_In clauses lit :
  In lit (find_pure_literals clauses) <->
  occurs clauses lit /\ ~ occurs clauses (- lit).
Proof.
  unfold find_pure_literals.
  rewrite filter_In, negb_true_iff, mem_false, !count_literals_keys. tauto.
Qed.

Lemma choose_literal_Some clauses variable :
  choose_literal clauses = Some variable ->
  exists clause lit, In clause clauses /\ In lit clause /\ variable = Z.abs lit.
Proof.
  induction clauses as [|clause rest IH]; [discriminate|].
  destruct clause as [|lit lits]; simpl; intros H.
  - destruct (IH H) as [c [l [Hc Hl]]]. exists c, l. tauto.
  - injection H as <-. exists (lit :: lits), lit. simpl. tauto.
Qed.

Lemma choose_literal_None clauses :
  choose_literal clauses = None -> forall clause, In clause clauses -> clause = [].
Proof.
  induction clauses as [|clause rest IH]; intros H c Hc; [destruct Hc|].
  destruct clause as [|lit lits]; simpl in H; [|discriminate].
  destruct Hc as [<- | Hc]; [reflexivity | now apply IH].
Qed.

(** Simplifying by the pure literals removes no literal: every clause is
    kept whole or dropped as satisfied. *)
Lemma reduce_pure clauses clause :
  In clause clauses -> reduce (find_pure_literals clauses) clause = clause.
Proof.
  intros Hc. unfold reduce.
  rewrite forallb_filter_id; [reflexivity|].
  apply forallb_forall. intros l Hl.
  apply negb_true_iff, mem_false. intros Hp.
  apply find_pure_literals_In in Hp. destruct Hp as [_ Hn].
  apply Hn. rewrite Z.opp_involutive. exists clause. tauto.
Qed.

Lemma simplify_pure_from pure clauses :
  (forall clause, In clause clauses -> reduce pure clause = clause) ->
  ~ In [] clauses ->
  exists new_clauses, simplify clauses pure = Some new_clauses.
Proof.
  induction clauses as [|clause rest IH]; intros Hred Hne.
  - exists []. reflexivity.
  - rewrite simplify_cons.
    destruct IH as [rest' Hrest].
    { intros c Hc. apply Hred. now right. }
    { intros Hin. apply Hne. now right. }
    destruct (existsb _ clause); [exists rest'; assumption|].
    rewrite (Hred clause) by now left.
    destruct clause as [|l ls]; [exfalso; apply Hne; now left|].
    rewrite Hrest. eexists. reflexivity.
Qed.

(** ** The unit-propagation loop *)

Lemma simplify_length_lt clauses A new_clauses c :
  simplify clauses A = Some new_clauses ->
  In c clauses -> satisfied_by A c ->
  (length new_clauses < length clauses)%nat.
Proof.
  revert new_clauses. induction clauses as [|clause rest IH];
    intros new_clauses H Hc Hs; [destruct Hc|].
  rewrite simplify_cons in H.
  destruct (existsb _ clause) eqn:Hsat.
  - apply simplify_length in H. simpl. lia.
  - destruct Hc as [-> | Hc].
    + apply existsb_mem_satisfied in Hs. congruence.
    + destruct (reduce A clause) as [|l0 r0]; [discriminate|].
      destruct (simplify rest A) as [rest'|] eqn:Hrest; [|discriminate].
      injection H as <-. specialize (IH _ eq_refl Hc Hs). simpl. lia.
Qed.

(** The loop runs at most once per clause: a fuel of [length clauses]
    is never used up. *)
Lemma unit_propagate_terminates fuel clauses A :
  (length clauses <= fuel)%nat ->
  exists r, unit_propagate fuel clauses A = Some r.
Proof.
  revert clauses A. induction fuel as [|fuel IH]; intros clauses A Hlen.
  - destruct clauses; [|simpl in Hlen; lia]. eexists. reflexivity.
  - simpl. destruct (find_unit_clause clauses) as [u|] eqn:Hu;
      [|eexists; reflexivity].
    destruct (simplify clauses [u]) as [clauses'|] eqn:Hs;
      [|eexists; reflexivity].
    destruct (IH clauses' (A ++ [u])) as [[[r final] tr] Hr].
    + apply find_unit_clause_In in Hu.
      assert (length clauses' < length clauses)%nat; [|lia].
      eapply simplify_length_lt; [eassumption | eassumption |].
      exists u. simpl. tauto.
    + rewrite Hr. eexists. reflexivity.
Qed.

(** The loop only appends: the list it leaves extends the list it was
    given, and so does every content in between. *)
Lemma unit_propagate_extends fuel clauses A r final tr :
  unit_propagate fuel clauses A = Some (r, final, tr) ->
  (exists units, final = A ++ units) /\
  (forall B, In B tr -> incl A B /\ incl B final).
Proof.
  revert clauses A r final tr.
  induction fuel as [|fuel IH]; intros clauses A r final tr H; simpl in H;
    destruct (find_unit_clause clauses) as [u|] eqn:Hu; try discriminate.
  - injection H as <- <- <-. split; [exists []; now rewrite app_nil_r|].
    intros B [].
  - destruct (simplify clauses [u]) as [clauses'|] eqn:Hs.
    + destruct (unit_propagate fuel clauses' (A ++ [u])) as [[[r' final'] tr']|] eqn:Hr;
        [|discriminate].
      injection H as <- <- <-.
      destruct (IH _ _ _ _ _ Hr) as [[units ->] Htr].
      split; [exists (u :: units); now rewrite <- app_assoc|].
      intros B [<- | HB].
      * split; [apply incl_appl, incl_refl | apply incl_appl, incl_refl].
      * destruct (Htr _ HB) as [H1 H2]. split; [|assumption].
        intros x Hx. apply H1. apply in_or_app. now left.
    + injection H as <- <- <-. split; [exists [u]; reflexivity|].
      intros B [<- | []]. split; [apply incl_appl, incl_refl | apply incl_refl].
  - injection H as <- <- <-. split; [exists []; now rewrite app_nil_r|].
    intros B [].
Qed.

(** What is left after the loop is no larger and has no empty clause. *)
Lemma unit_propagate_clauses fuel clauses A clauses' final tr :
  unit_propagate fuel clauses A = Some (Some clauses', final, tr) ->
  ~ In [] clauses ->
  ~ In [] clauses' /\ (size clauses' <= size clauses)%nat.
Proof.
  revert clauses A clauses' final tr.
  induction fuel as [|fuel IH]; intros clauses A clauses' final tr H Hne;
    simpl in H; destruct (find_unit_clause clauses) as [u|] eqn:Hu;
    try discriminate.
  - injection H as <- <- <-. split; [assumption | apply Nat.le_refl].
  - destruct (simplify clauses [u]) as [clauses1|] eqn:Hs; [|discriminate].
    destruct (unit_propagate fuel clauses1 (A ++ [u])) as [[[r' final'] tr']|] eqn:Hr;
      [|discriminate].
    injection H as -> <- <-.
    destruct (IH _ _ _ _ _ Hr (simplify_no_empty _ _ _ Hs)) as [H1 H2].
    split; [assumption|]. apply simplify_size in Hs. lia.
  - injection H as <- <- <-. split; [assumption | apply Nat.le_refl].
Qed.

(** An assignment that extends the list left by the loop and satisfies
    the clauses left by it satisfies the clauses the loop started from. *)
Lemma unit_propagate_sound fuel clauses A clauses' final tr W :
  unit_propagate fuel clauses A = Some (Some clauses', final, tr) ->
  incl final W ->
  (forall c, In c clauses' -> satisfied_by W c) ->
  forall c, In c clauses -> satisfied_by W c.
Proof.
  revert clauses A clauses' final tr.
  induction fuel as [|fuel IH]; intros clauses A clauses' final tr H HW Hsat;
    simpl in H; destruct (find_unit_clause clauses) as [u|] eqn:Hu;
    try discriminate.
  - injection H as <- <- <-. assumption.
  - destruct (simplify clauses [u]) as [clauses1|] eqn:Hs; [|discriminate].
    destruct (unit_propagate fuel clauses1 (A ++ [u])) as [[[r' final'] tr']|] eqn:Hr;
      [|discriminate].
    injection H as -> <- <-.
    destruct (unit_propagate_extends _ _ _ _ _ _ Hr) as [[units Hfinal] _].
    apply (simplify_sound _ _ _ W Hs).
    + intros x [<- | []]. apply HW. rewrite Hfinal.
      apply in_or_app. left. apply in_or_app. right. now left.
    + apply (IH _ _ _ _ _ Hr HW Hsat).
  - injection H as <- <- <-. assumption.
Qed.

Lemma append_each_spec A literals :
  fst (append_each A literals) = A ++ literals /\
  forall B, In B (snd (append_each A literals)) ->
    incl A B /\ incl B (A ++ literals).
Proof.
  revert A. induction literals as [|l ls IH]; intros A; simpl.
  - split; [now rewrite app_nil_r | intros B []].
  - destruct (append_each (A ++ [l]) ls) as [final tr] eqn:Happ.
    destruct (IH (A ++ [l])) as [H1 H2]. rewrite Happ in H1, H2. simpl in *.
    rewrite <- app_assoc in H1, H2. simpl in H1, H2.
    split; [assumption|].
    intros B [<- | HB].
    + split; [apply incl_appl, incl_refl|].
      apply incl_app; [apply incl_appl, incl_refl|].
      intros x [<- | []]. apply in_or_app. right. now left.
    + destruct (H2 _ HB) as [H3 H4]. split; [|assumption].
      intros x Hx. apply H3. apply in_or_app. now left.
Qed.

(** ** Consistent assignments *)

(** No literal of [clauses] is assigned by [A], in either polarity. *)
Definition untouched (A : list Z) (clauses : list (list Z)) : Prop :=
  forall c l, In c clauses -> In l c -> ~ In l A /\ ~ In (- l) A.

Lemma consistent_pure clauses : consistent (find_pure_literals clauses).
Proof.
  intros v Hv [H1 H2].
  apply find_pure_literals_In in H1. apply find_pure_literals_In in H2.
  tauto.
Qed.

Lemma untouched_simplify A B clauses new_clauses :
  untouched A clauses -> simplify clauses B = Some new_clauses ->
  untouched (A ++ B) new_clauses.
Proof.
  intros HA H c l Hc Hl.
  destruct (simplify_literals _ _ _ H _ _ Hc Hl) as [c0 [Hc0 Hl0]].
  destruct (HA _ _ Hc0 Hl0) as [H1 H2].
  destruct (simplify_reduced _ _ _ H _ _ Hc Hl) as [H3 H4].
  split; intros Hin; apply in_app_or in Hin; tauto.
Qed.

Lemma unit_propagate_consistent fuel clauses A r final tr :
  unit_propagate fuel clauses A = Some (r, final, tr) ->
  consistent A -> untouched A clauses ->
  consistent final /\ forall clauses', r = Some clauses' -> untouched final clauses'.
Proof.
  revert clauses A r final tr.
  induction fuel as [|fuel IH]; intros clauses A r final tr H HA Hun;
    simpl in H; destruct (find_unit_clause clauses) as [u|] eqn:Hu;
    try discriminate.
  - injection H as <- <- <-. split; [assumption|].
    intros ? [= <-]. assumption.
  - assert (consistent (A ++ [u])) as HAu.
    { apply find_unit_clause_In in Hu.
      apply consistent_app; [assumption | apply consistent_singleton|].
      intros l [<- | []]. apply (Hun [u] u); simpl; tauto. }
    destruct (simplify clauses [u]) as [clauses1|] eqn:Hs.
    + destruct (unit_propagate fuel clauses1 (A ++ [u])) as [[[r' final'] tr']|] eqn:Hr;
        [|discriminate].
      injection H as <- <- <-.
      apply (IH _ _ _ _ _ Hr HAu). eapply untouched_simplify; eassumption.
    + injection H as <- <- <-. split; [assumption | discriminate].
  - injection H as <- <- <-. split; [assumption|].
    intros ? [= <-]. assumption.
Qed.

(** ** The rules before the split *)

Definition stage_assignment (s : stage) : list Z :=
  match s with
  | Returned o => caller_assignment o
  | Branching _ current_assignment _ => current_assignment
  end.

Definition stage_trace (s : stage) : list (list Z) :=
  match s with
  | Returned o => trace o
  | Branching _ _ tr => tr
  end.

(** The five ways through [dpll_rules]. *)
Inductive rules_spec (clauses : list (list Z)) (A : list Z) : stage -> Prop :=
| rules_conflict :
    simplify clauses A = None ->
    rules_spec clauses A (Returned (Outcome false None A []))
| rules_satisfied :
    simplify clauses A = Some [] ->
    rules_spec clauses A (Returned (Outcome true (Some A) A []))
| rules_unit_conflict clauses1 A1 tr1 :
    simplify clauses A = Some clauses1 ->
    unit_propagate (length clauses1) clauses1 A = Some (None, A1, tr1) ->
    rules_spec clauses A (Returned (Outcome false None A1 tr1))
| rules_pure_conflict clauses1 clauses2 A1 tr1 A2 tr2 :
    simplify clauses A = Some clauses1 ->
    unit_propagate (length clauses1) clauses1 A = Some (Some clauses2, A1, tr1) ->
    append_each A1 (find_pure_literals clauses2) = (A2, tr2) ->
    simplify clauses2 (find_pure_literals clauses2) = None ->
    rules_spec clauses A (Returned (Outcome false None A2 (tr1 ++ tr2)))
| rules_branching clauses1 clauses2 A1 tr1 A2 tr2 clauses3 :
    simplify clauses A = Some clauses1 ->
    unit_propagate (length clauses1) clauses1 A = Some (Some clauses2, A1, tr1) ->
    append_each A1 (find_pure_literals clauses2) = (A2, tr2) ->
    simplify clauses2 (find_pure_literals clauses2) = Some clauses3 ->
    rules_spec clauses A (Branching clauses3 A2 (tr1 ++ tr2)).

Lemma dpll_rules_spec clauses A s :
  dpll_rules clauses A = Some s -> rules_spec clauses A s.
Proof.
  unfold dpll_rules. intros H.
  destruct (simplify clauses A) as [clauses1|] eqn:H1.
  2:{ injection H as <-. now constructor. }
  destruct clauses1 as [|c0 cs0].
  { injection H as <-. now constructor. }
  remember (c0 :: cs0) as clauses1 eqn:E. clear E c0 cs0.
  destruct (unit_propagate (length clauses1) clauses1 A) as [[[r A1] tr1]|] eqn:H2;
    [|discriminate].
  destruct r as [clauses2|].
  2:{ injection H as <-. eapply rules_unit_conflict; eassumption. }
  destruct (append_each A1 (find_pure_literals clauses2)) as [A2 tr2] eqn:H3.
  destruct (simplify clauses2 (find_pure_literals clauses2)) as [clauses3|] eqn:H4;
    injection H as <-.
  - eapply rules_branching; eassumption.
  - eapply rules_pure_conflict; eassumption.
Qed.

(** [dpll_rules] always comes to a stage: the fuel given to the
    unit-propagation loop suffices. *)
Lemma dpll_rules_terminates clauses A : exists s, dpll_rules clauses A = Some s.
Proof.
  unfold dpll_rules.
  destruct (simplify clauses A) as [[|c0 cs0]|]; try (eexists; reflexivity).
  destruct (unit_propagate_terminates (length (c0 :: cs0)) (c0 :: cs0) A
              (Nat.le_refl _)) as [[[r A1] tr1] ->].
  destruct r as [clauses2|]; [|eexists; reflexivity].
  destruct (append_each A1 (find_pure_literals clauses2)) as [A2 tr2].
  destruct (simplify clauses2 (find_pure_literals clauses2)); eexists; reflexivity.
Qed.

(** The rules only append to the caller's list. *)
Lemma rules_extends clauses A s :
  rules_spec clauses A s ->
  (exists literals, stage_assignment s = A ++ literals) /\
  (forall B, In B (stage_trace s) -> incl A B /\ incl B (stage_assignment s)).
Proof.
  assert (exists literals : list Z, A = A ++ literals) as Hnil
    by (exists []; now rewrite app_nil_r).
  intros H. destruct H as
    [ H1 | H1 | clauses1 A1 tr1 H1 H2
    | clauses1 clauses2 A1 tr1 A2 tr2 H1 H2 H3 H4
    | clauses1 clauses2 A1 tr1 A2 tr2 clauses3 H1 H2 H3 H4 ]; simpl.
  - split; [assumption | intros B []].
  - split; [assumption | intros B []].
  - apply (unit_propagate_extends _ _ _ _ _ _ H2).
  - destruct (unit_propagate_extends _ _ _ _ _ _ H2) as [[units ->] Htr].
    destruct (append_each_spec (A ++ units) (find_pure_literals clauses2))
      as [Hfst Hsnd].
    rewrite H3 in Hfst, Hsnd. simpl in Hfst, Hsnd. subst A2.
    split; [eexists; now rewrite <- app_assoc|].
    intros B HB. apply in_app_or in HB. destruct HB as [HB | HB].
    + destruct (Htr _ HB). split; [assumption|].
      intros x Hx. apply in_or_app. left. auto.
    + destruct (Hsnd _ HB). split; [|assumption].
      intros x Hx. apply H. apply in_or_app. now left.
  - destruct (unit_propagate_extends _ _ _ _ _ _ H2) as [[units ->] Htr].
    destruct (append_each_spec (A ++ units) (find_pure_literals clauses2))
      as [Hfst Hsnd].
    rewrite H3 in Hfst, Hsnd. simpl in Hfst, Hsnd. subst A2.
    split; [eexists; now rewrite <- app_assoc|].
    intros B HB. apply in_app_or in HB. destruct HB as [HB | HB].
    + destruct (Htr _ HB). split; [assumption|].
      intros x Hx. apply in_or_app. left. auto.
    + destruct (Hsnd _ HB). split; [|assumption].
      intros x Hx. apply H. apply in_or_app. now left.
Qed.

Lemma pure_consistent clauses A :
  consistent A -> untouched A clauses ->
  consistent (A ++ find_pure_literals clauses).
Proof.
  intros HA Hun. apply consistent_app; [assumption | apply consistent_pure|].
  intros l Hl. apply find_pure_literals_In in Hl.
  destruct Hl as [[c [Hc Hl]] _]. apply (Hun _ _ Hc Hl).
Qed.

(** The rules keep a consistent assignment consistent, and leave for the
    split only clauses over unassigned variables. *)
Lemma rules_consistent clauses A s :
  rules_spec clauses A s -> consistent A ->
  consistent (stage_assignment s) /\
  forall clauses3 A2 tr, s = Branching clauses3 A2 tr -> untouched A2 clauses3.
Proof.
  intros H HA. destruct H as
    [ H1 | H1 | clauses1 A1 tr1 H1 H2
    | clauses1 clauses2 A1 tr1 A2 tr2 H1 H2 H3 H4
    | clauses1 clauses2 A1 tr1 A2 tr2 clauses3 H1 H2 H3 H4 ]; simpl;
    try (split; [assumption | discriminate]).
  - split; [|discriminate].
    apply (unit_propagate_consistent _ _ _ _ _ _ H2 HA).
    intros c l. apply (simplify_reduced _ _ _ H1).
  - split; [|discriminate].
    destruct (unit_propagate_consistent _ _ _ _ _ _ H2 HA) as [HA1 Hun].
    { intros c l. apply (simplify_reduced _ _ _ H1). }
    pose proof (proj1 (append_each_spec A1 (find_pure_literals clauses2))) as E.
    rewrite H3 in E. simpl in E. subst A2.
    apply pure_consistent; [assumption | now apply Hun].
  - destruct (unit_propagate_consistent _ _ _ _ _ _ H2 HA) as [HA1 Hun].
    { intros c l. apply (simplify_reduced _ _ _ H1). }
    pose proof (proj1 (append_each_spec A1 (find_pure_literals clauses2))) as E.
    rewrite H3 in E. simpl in E. subst A2.
    split; [apply pure_consistent; [assumption | now apply Hun]|].
    intros ? ? ? [= <- <- <-].
    eapply untouched_simplify; [now apply Hun | eassumption].
Qed.

(** What the split receives: no empty clause, no more literals than the
    entry [simplify] left, and clauses whose satisfaction by an extension
    of the assignment carries over to the clauses of the call. *)
Lemma rules_branching_sound clauses A clauses3 A2 tr :
  rules_spec clauses A (Branching clauses3 A2 tr) ->
  ~ In [] clauses3 /\
  (exists clauses1, simplify clauses A = Some clauses1 /\
                    (size clauses3 <= size clauses1)%nat) /\
  (forall W, incl A2 W -> (forall c, In c clauses3 -> satisfied_by W c) ->
             forall c, In c clauses -> satisfied_by W c).
Proof.
  intros H. inversion H as
    [ | | | | clauses1 clauses2 A1 tr1 A2' tr2 clauses3' H1 H2 H3 H4 ]; subst.
  pose proof (proj1 (append_each_spec A1 (find_pure_literals clauses2))) as E.
  rewrite H3 in E. simpl in E. subst A2.
  destruct (unit_propagate_clauses _ _ _ _ _ _ H2 (simplify_no_empty _ _ _ H1))
    as [Hne Hsize].
  split; [eapply simplify_no_empty; eassumption|].
  split.
  - exists clauses1. split; [assumption|]. apply simplify_size in H4. lia.
  - intros W HW Hsat.
    apply (simplify_sound _ _ _ W H1).
    { destruct (unit_propagate_extends _ _ _ _ _ _ H2) as [[units ->] _].
      intros x Hx. apply HW. apply in_or_app. left. apply in_or_app. now left. }
    apply (unit_propagate_sound _ _ _ _ _ _ W H2).
    { intros x Hx. apply HW. apply in_or_app. now left. }
    apply (simplify_sound _ _ _ W H4).
    { intros x Hx. apply HW. apply in_or_app. now right. }
    assumption.
Qed.

(** When the rules return, they return SAT only for an assignment that is
    the caller's list, unchanged, and satisfies every clause. *)
Lemma rules_returned clauses A o :
  rules_spec clauses A (Returned o) ->
  (sat o = true ->
     result o = Some A /\ caller_assignment o = A /\
     forall c, In c clauses -> satisfied_by A c) /\
  (sat o = false -> result o = None).
Proof.
  intros H. inversion H; subst; simpl; split; try discriminate; try reflexivity.
  intros _. split; [reflexivity|]. split; [reflexivity|].
  intros c Hc.
  match goal with Hs : simplify _ _ = Some [] |- _ =>
    destruct (simplify_covers _ _ _ Hs _ Hc) as [Hsat | []]
  end.
  assumption.
Qed.

(** ** The recursion *)

Lemma dpll_S fuel clauses A :
  dpll (S fuel) clauses A =
  match dpll_rules clauses A with
  | None => None
  | Some (Returned o) => Some o
  | Some (Branching clauses A tr) =>
      match choose_literal clauses with
      | None => Some (Outcome true (Some A) A tr)
      | Some variable =>
          match dpll fuel clauses (A ++ [variable]) with
          | None => None
          | Some o1 =>
              if sat o1
              then Some (Outcome true (result o1) A
                           (tr ++ (A ++ [variable]) :: trace o1))
              else
                match dpll fuel clauses (A ++ [- variable]) with
                | None => None
                | Some o2 =>
                    if sat o2
                    then Some (Outcome true (result o2) A
                                 ((tr ++ (A ++ [variable]) :: trace o1)
                                    ++ (A ++ [- variable]) :: trace o2))
                    else Some (Outcome false None A
                                 ((tr ++ (A ++ [variable]) :: trace o1)
                                    ++ (A ++ [- variable]) :: trace o2))
                end
          end
      end
  end.
Proof. reflexivity. Qed.

(** The literal occurrences left by the entry [simplify] of a call. *)
Definition entry_size (clauses : list (list Z)) (A : list Z) : nat :=
  match simplify clauses A with
  | Some new_clauses => size new_clauses
  | None => 0
  end.

Lemma size_pos clauses c (l : Z) :
  In c clauses -> In l c -> (0 < size clauses)%nat.
Proof.
  induction clauses as [|c0 cs IH]; intros Hc Hl; [destruct Hc|].
  simpl. destruct Hc as [-> | Hc].
  - destruct c; [destruct Hl | simpl; lia].
  - specialize (IH Hc Hl). lia.
Qed.

Lemma entry_size_le clauses A : (entry_size clauses A <= size clauses)%nat.
Proof.
  unfold entry_size. destruct (simplify clauses A) eqn:H; [|lia].
  eapply simplify_size; eassumption.
Qed.

(** Assigning the chosen variable, either way, leaves the callee with
    strictly fewer literal occurrences. *)
Lemma entry_size_branch clauses A variable value :
  choose_literal clauses = Some variable ->
  value = variable \/ value = - variable ->
  (entry_size clauses (A ++ [value]) < size clauses)%nat.
Proof.
  intros Hv Hval.
  destruct (choose_literal_Some _ _ Hv) as [c [l [Hc [Hl E]]]].
  unfold entry_size.
  destruct (simplify clauses (A ++ [value])) as [new_clauses|] eqn:Hs.
  - apply (simplify_size_lt _ _ _ c l Hs Hc Hl).
    assert (l = value \/ - l = value) as [-> | <-] by lia.
    + left. apply in_or_app. right. now left.
    + right. apply in_or_app. right. now left.
  - eapply size_pos; eassumption.
Qed.

(** [dpll] returns: the recursion is never deeper than the number of
    literal occurrences left by the entry [simplify]. *)
Lemma dpll_terminates_from fuel clauses A :
  (entry_size clauses A < fuel)%nat -> exists o, dpll fuel clauses A = Some o.
Proof.
  revert clauses A. induction fuel as [|fuel IH]; intros clauses A Hfuel; [lia|].
  rewrite dpll_S.
  destruct (dpll_rules_terminates clauses A) as [s Hs]. rewrite Hs.
  apply dpll_rules_spec in Hs.
  destruct s as [o | clauses3 A2 tr]; [eexists; reflexivity|].
  destruct (rules_branching_sound _ _ _ _ _ Hs) as [_ [[clauses1 [H1 Hsize]] _]].
  unfold entry_size in Hfuel. rewrite H1 in Hfuel.
  destruct (choose_literal clauses3) as [variable|] eqn:Hv; [|eexists; reflexivity].
  destruct (IH clauses3 (A2 ++ [variable])) as [o1 ->].
  { pose proof (entry_size_branch clauses3 A2 variable variable Hv
                  (or_introl eq_refl)). lia. }
  destruct (sat o1); [eexists; reflexivity|].
  destruct (IH clauses3 (A2 ++ [- variable])) as [o2 ->].
  { pose proof (entry_size_branch clauses3 A2 variable (- variable) Hv
                  (or_intror eq_refl)). lia. }
  destruct (sat o2); eexists; reflexivity.
Qed.

Lemma dpll_terminates clauses A :
  exists o, dpll (dpll_fuel clauses) clauses A = Some o.
Proof.
  apply dpll_terminates_from. unfold dpll_fuel.
  pose proof (entry_size_le clauses A). lia.
Qed.

(** More fuel does not change an outcome. *)
Lemma dpll_fuel_mono fuel fuel' clauses A o :
  dpll fuel clauses A = Some o -> (fuel <= fuel')%nat ->
  dpll fuel' clauses A = Some o.
Proof.
  revert fuel' clauses A o.
  induction fuel as [|fuel IH]; intros fuel' clauses A o H Hle; [discriminate|].
  destruct fuel' as [|fuel']; [lia|].
  rewrite dpll_S in *.
  destruct (dpll_rules clauses A) as [[o0 | clauses3 A2 tr]|]; try assumption.
  destruct (choose_literal clauses3) as [variable|]; [|assumption].
  destruct (dpll fuel clauses3 (A2 ++ [variable])) as [o1|] eqn:H1; [|discriminate].
  rewrite (IH fuel' _ _ _ H1) by lia.
  destruct (sat o1); [assumption|].
  destruct (dpll fuel clauses3 (A2 ++ [- variable])) as [o2|] eqn:H2; [|discriminate].
  rewrite (IH fuel' _ _ _ H2) by lia.
  assumption.
Qed.

(** A SAT outcome carries an assignment that extends the one given and
    satisfies every clause given; an UNSAT outcome carries none. *)
Lemma dpll_sound fuel clauses A o :
  dpll fuel clauses A = Some o ->
  (sat o = true ->
     exists W, result o = Some W /\ incl A W /\
               forall c, In c clauses -> satisfied_by W c) /\
  (sat o = false -> result o = None).
Proof.
  revert clauses A o.
  induction fuel as [|fuel IH]; intros clauses A o H; [discriminate|].
  rewrite dpll_S in H.
  destruct (dpll_rules clauses A) as [s|] eqn:Hs; [|discriminate].
  apply dpll_rules_spec in Hs.
  destruct s as [o0 | clauses3 A2 tr].
  - injection H as <-.
    destruct (rules_returned _ _ _ Hs) as [H1 H2]. split; [|assumption].
    intros Hsat. destruct (H1 Hsat) as [Hres [_ Hall]].
    exists A. split; [assumption|]. split; [apply incl_refl | assumption].
  - destruct (rules_branching_sound _ _ _ _ _ Hs) as [Hne [_ Hsound]].
    destruct (rules_extends _ _ _ Hs) as [[literals E] _]. simpl in E.
    assert (incl A A2) as HAA2 by (rewrite E; apply incl_appl, incl_refl).
    destruct (choose_literal clauses3) as [variable|] eqn:Hv.
    + destruct (dpll fuel clauses3 (A2 ++ [variable])) as [o1|] eqn:Ho1;
        [|discriminate].
      destruct (sat o1) eqn:Hs1.
      * injection H as <-. simpl. split; [|discriminate]. intros _.
        destruct (IH _ _ _ Ho1) as [IH1 _].
        destruct (IH1 Hs1) as [W [HW [Hincl Hsat]]].
        assert (incl A2 W) as HA2W
          by (intros x Hx; apply Hincl, in_or_app; now left).
        exists W. split; [assumption|].
        split; [intros x Hx; auto | now apply Hsound].
      * destruct (dpll fuel clauses3 (A2 ++ [- variable])) as [o2|] eqn:Ho2;
          [|discriminate].
        destruct (sat o2) eqn:Hs2; injection H as <-; simpl;
          (split; [|try discriminate; reflexivity]); [|discriminate].
        intros _.
        destruct (IH _ _ _ Ho2) as [IH2 _].
        destruct (IH2 Hs2) as [W [HW [Hincl Hsat]]].
        assert (incl A2 W) as HA2W
          by (intros x Hx; apply Hincl, in_or_app; now left).
        exists W. split; [assumption|].
        split; [intros x Hx; auto | now apply Hsound].
    + injection H as <-. simpl. split; [|discriminate]. intros _.
      exists A2. split; [reflexivity|]. split; [assumption|].
      apply Hsound; [apply incl_refl|].
      intros c Hc. exfalso. apply Hne.
      now rewrite <- (choose_literal_None _ Hv c Hc).
Qed.

(** [dpll] only appends to the list it is given: what the caller holds
    afterwards is the old contents followed by the literals of the unit
    and pure-literal rules of that call. *)
Lemma dpll_extends fuel clauses A o :
  dpll fuel clauses A = Some o ->
  exists literals, caller_assignment o = A ++ literals.
Proof.
  destruct fuel as [|fuel]; intros H; [discriminate|].
  rewrite dpll_S in H.
  destruct (dpll_rules clauses A) as [s|] eqn:Hs; [|discriminate].
  apply dpll_rules_spec, rules_extends in Hs. destruct Hs as [Hext _].
  destruct s as [o0 | clauses3 A2 tr]; simpl in Hext.
  - injection H as <-. assumption.
  - destruct (choose_literal clauses3) as [variable|];
      [|injection H as <-; assumption].
    destruct (dpll fuel clauses3 (A2 ++ [variable])) as [o1|]; [|discriminate].
    destruct (sat o1); [injection H as <-; assumption|].
    destruct (dpll fuel clauses3 (A2 ++ [- variable])) as [o2|]; [|discriminate].
    destruct (sat o2); injection H as <-; assumption.
Qed.

Lemma chosen_variable_unassigned clauses A variable :
  untouched A clauses -> choose_literal clauses = Some variable ->
  ~ In variable A /\ ~ In (- variable) A.
Proof.
  intros Hun Hv.
  destruct (choose_literal_Some _ _ Hv) as [c [l [Hc [Hl E]]]].
  destruct (Hun _ _ Hc Hl) as [H1 H2].
  assert (variable = l \/ variable = - l) as [-> | ->] by lia.
  - tauto.
  - rewrite Z.opp_involutive. tauto.
Qed.

(** C4 (witness validity): when [dpll], called with the empty assignment,
    returns SAT, it returns an assignment [A] with it, and every clause of
    the formula passed in, as it was before any simplification, has a
    literal that is an element of [A]. *)
Theorem dpll_witness_valid fuel clauses o :
  dpll fuel clauses [] = Some o -> sat o = true ->
  exists A, result o = Some A /\
    forall clause, In clause clauses ->
      exists literal, In literal clause /\ In literal A.
Proof.
  intros H Hsat.
  destruct (dpll_sound _ _ _ _ H) as [Hs _].
  destruct (Hs Hsat) as [W [HW [_ Hall]]].
  exists W. split; [assumption | exact Hall].
Qed.

Lemma dpll_witness_valid_example :
  dpll 9 [[1; 2]; [-1; 2]; [1; -2]] []
    = Some (Outcome true (Some [1; 2]) [] [[1]; [1; 2]]) /\
  exists A, Some [1; 2] = Some A /\
    forall clause, In clause [[1; 2]; [-1; 2]; [1; -2]] ->
      exists literal, In literal clause /\ In literal A.
Proof.
  split; [reflexivity|].
  apply (dpll_witness_valid 9 [[1; 2]; [-1; 2]; [1; -2]]
           (Outcome true (Some [1; 2]) [] [[1]; [1; 2]]));
    reflexivity.
Defined.

(** Consistency is kept by every write to an assignment list. *)
Lemma dpll_consistent fuel clauses A o :
  consistent A -> dpll fuel clauses A = Some o ->
  Forall consistent (trace o) /\
  consistent (caller_assignment o) /\
  forall W, result o = Some W -> consistent W.
Proof.
  revert clauses A o.
  induction fuel as [|fuel IH]; intros clauses A o HA H; [discriminate|].
  rewrite dpll_S in H.
  destruct (dpll_rules clauses A) as [s|] eqn:Hs; [|discriminate].
  apply dpll_rules_spec in Hs.
  destruct (rules_consistent _ _ _ Hs HA) as [Hcons Hun].
  destruct (rules_extends _ _ _ Hs) as [_ Htr].
  assert (Forall consistent (stage_trace s)) as Htrace.
  { apply Forall_forall. intros B HB.
    apply (consistent_incl (stage_assignment s)); [apply (Htr _ HB) | assumption]. }
  destruct s as [o0 | clauses3 A2 tr]; simpl in Hcons, Htrace.
  - injection H as <-. split; [assumption|]. split; [assumption|].
    intros W HW. destruct (rules_returned _ _ _ Hs) as [H1 H2].
    destruct (sat o0).
    + destruct (H1 eq_refl) as [E _]. rewrite E in HW.
      injection HW as <-. exact HA.
    + rewrite (H2 eq_refl) in HW. discriminate.
  - specialize (Hun _ _ _ eq_refl).
    destruct (choose_literal clauses3) as [variable|] eqn:Hv.
    2:{ injection H as <-. simpl. split; [assumption|].
        split; [assumption|]. now intros W [= <-]. }
    destruct (chosen_variable_unassigned _ _ _ Hun Hv) as [Hpos Hneg].
    assert (consistent (A2 ++ [variable])) as Hfirst
      by (apply consistent_snoc; assumption).
    assert (consistent (A2 ++ [- variable])) as Hsecond
      by (apply consistent_snoc; [|rewrite Z.opp_involutive]; assumption).
    destruct (dpll fuel clauses3 (A2 ++ [variable])) as [o1|] eqn:Ho1;
      [|discriminate].
    destruct (IH _ _ _ Hfirst Ho1) as [Ht1 [_ Hr1]].
    assert (Forall consistent (tr ++ (A2 ++ [variable]) :: trace o1)) as Htr1
      by (apply Forall_app; split; [assumption | now constructor]).
    destruct (sat o1).
    { injection H as <-. simpl. tauto. }
    destruct (dpll fuel clauses3 (A2 ++ [- variable])) as [o2|] eqn:Ho2;
      [|discriminate].
    destruct (IH _ _ _ Hsecond Ho2) as [Ht2 [_ Hr2]].
    assert (Forall consistent
              ((tr ++ (A2 ++ [variable]) :: trace o1)
                 ++ (A2 ++ [- variable]) :: trace o2)) as Htr2
      by (apply Forall_app; split; [assumption | now constructor]).
    destruct (sat o2); injection H as <-; simpl.
    + tauto.
    + split; [assumption|]. split; [assumption | discriminate].
Qed.

(** C5 (consistency): started from a consistent assignment, a call of
    [dpll] only ever holds consistent assignments.  Every content that the
    caller's list takes under the appends of unit propagation and of the
    pure-literal rule, every list built for a branch, and every content of
    the lists of the calls below (the [trace]) is consistent; so are the
    caller's list after the call and a returned witness. *)
Theorem dpll_assignments_consistent fuel clauses A o :
  consistent A -> dpll fuel clauses A = Some o ->
  Forall consistent (trace o) /\
  consistent (caller_assignment o) /\
  forall W, result o = Some W -> consistent W.
Proof. apply dpll_consistent. Qed.

Lemma dpll_assignments_consistent_example :
  consistent [] /\
  dpll 9 [[1; 2]; [-1; 2]; [1; -2]] []
    = Some (Outcome true (Some [1; 2]) [] [[1]; [1; 2]]) /\
  Forall consistent [[1]; [1; 2]] /\
  consistent [] /\
  forall W, Some [1; 2] = Some W -> consistent W.
Proof.
  split; [exact consistent_nil|]. split; [reflexivity|].
  apply (dpll_assignments_consistent 9 [[1; 2]; [-1; 2]; [1; -2]] []
           (Outcome true (Some [1; 2]) [] [[1]; [1; 2]]) consistent_nil).
  reflexivity.
Defined.

(** ** The pure-literal rule cannot conflict *)

(** [clause] has a literal in [literals]: the test by which [simplify]
    drops a clause. *)
Definition hit (literals : list Z) (clause : list Z) : bool :=
  existsb (fun literal => mem literal literals) clause.

Lemma simplify_whole literals clauses :
  (forall clause, In clause clauses -> reduce literals clause = clause) ->
  ~ In [] clauses ->
  simplify clauses literals
  = Some (filter (fun clause => negb (hit literals clause)) clauses).
Proof.
  induction clauses as [|clause rest IH]; intros Hred Hne; [reflexivity|].
  rewrite simplify_cons. simpl filter. unfold hit at 1.
  rewrite IH.
  - destruct (existsb _ clause); [reflexivity|]. simpl negb. cbv iota.
    rewrite (Hred clause) by now left.
    destruct clause; [exfalso; apply Hne; now left | reflexivity].
  - intros c Hc. apply Hred. now right.
  - intros Hin. apply Hne. now right.
Qed.

(** The input [[[]]] on which the pure-literal [simplify] does conflict:
    no literal occurs, none is pure, and the empty clause is a conflict. *)
Lemma pure_simplify_conflict_on_empty_clause :
  find_pure_literals [[]] = [] /\
  simplify [[]] (find_pure_literals [[]]) = None.
Proof. split; reflexivity. Qed.

(** C10, amended (the pure-literal conflict branch of [dpll] is
    unreachable): for every clause list with no empty clause,
    [simplify clauses (find_pure_literals clauses)] is not the conflict
    [None]; it keeps, whole, exactly the clauses with no pure literal.  The
    clause list that [dpll] holds when it applies the pure-literal rule,
    the one left by the entry [simplify] and the unit-propagation loop, has
    no empty clause, so [dpll] never takes the conflict branch that
    follows. *)
Theorem pure_literal_conflict_unreachable :
  (forall clauses, ~ In [] clauses ->
     simplify clauses (find_pure_literals clauses)
     = Some (filter (fun clause => negb (hit (find_pure_literals clauses) clause))
               clauses)) /\
  (forall fuel clauses A clauses1 clauses2 A1 tr1,
     simplify clauses A = Some clauses1 ->
     unit_propagate fuel clauses1 A = Some (Some clauses2, A1, tr1) ->
     ~ In [] clauses2 /\
     simplify clauses2 (find_pure_literals clauses2) <> None) /\
  (forall clauses A s,
     dpll_rules clauses A = Some s ->
     forall clauses1 clauses2 A1 tr1,
       simplify clauses A = Some clauses1 -> clauses1 <> [] ->
       unit_propagate (length clauses1) clauses1 A = Some (Some clauses2, A1, tr1) ->
       exists clauses3,
         s = Branching clauses3 (A1 ++ find_pure_literals clauses2)
               (tr1 ++ snd (append_each A1 (find_pure_literals clauses2)))).
Proof.
  assert (forall clauses, ~ In [] clauses ->
     simplify clauses (find_pure_literals clauses)
     = Some (filter (fun clause => negb (hit (find_pure_literals clauses) clause))
               clauses)) as Hwhole.
  { intros clauses Hne. apply simplify_whole; [|assumption].
    intros clause Hc. now apply reduce_pure. }
  assert (forall fuel clauses A clauses1 clauses2 A1 tr1,
     simplify clauses A = Some clauses1 ->
     unit_propagate fuel clauses1 A = Some (Some clauses2, A1, tr1) ->
     ~ In [] clauses2) as Hne.
  { intros fuel clauses A clauses1 clauses2 A1 tr1 H1 H2.
    apply (unit_propagate_clauses _ _ _ _ _ _ H2 (simplify_no_empty _ _ _ H1)). }
  split; [exact Hwhole|]. split.
  - intros fuel clauses A clauses1 clauses2 A1 tr1 H1 H2.
    pose proof (Hne _ _ _ _ _ _ _ H1 H2) as Hne2.
    split; [assumption|]. rewrite (Hwhole _ Hne2). discriminate.
  - intros clauses A s Hs clauses1 clauses2 A1 tr1 H1 Hnil H2.
    pose proof (Hne _ _ _ _ _ _ _ H1 H2) as Hne2.
    unfold dpll_rules in Hs. rewrite H1 in Hs.
    destruct clauses1 as [|c0 cs0]; [now destruct Hnil|].
    rewrite H2 in Hs.
    pose proof (proj1 (append_each_spec A1 (find_pure_literals clauses2))) as E.
    destruct (append_each A1 (find_pure_literals clauses2)) as [A2 tr2].
    simpl in E. subst A2.
    rewrite (Hwhole _ Hne2) in Hs. injection Hs as <-. eexists. reflexivity.
Qed.

(** A witness contains the caller's list as the call leaves it. *)
Lemma dpll_result_extends fuel clauses A o :
  dpll fuel clauses A = Some o ->
  forall W, result o = Some W -> incl (caller_assignment o) W.
Proof.
  destruct fuel as [|fuel]; intros H W HW; [discriminate|].
  rewrite dpll_S in H.
  destruct (dpll_rules clauses A) as [s|] eqn:Hs; [|discriminate].
  apply dpll_rules_spec in Hs.
  destruct s as [o0 | clauses3 A2 tr].
  - injection H as <-. destruct (rules_returned _ _ _ Hs) as [H1 H2].
    destruct (sat o0).
    + destruct (H1 eq_refl) as [E1 [E2 _]]. rewrite E1 in HW.
      injection HW as <-. rewrite E2. apply incl_refl.
    + rewrite (H2 eq_refl) in HW. discriminate.
  - assert (forall value o', dpll fuel clauses3 (A2 ++ [value]) = Some o' ->
              result o' = Some W -> incl A2 W) as Hcallee.
    { intros value o' Ho' HW'. destruct (dpll_sound _ _ _ _ Ho') as [Ht Hf].
      destruct (sat o').
      - destruct (Ht eq_refl) as [W' [E [Hincl _]]].
        rewrite E in HW'. injection HW' as ->.
        intros x Hx. apply Hincl, in_or_app. now left.
      - rewrite (Hf eq_refl) in HW'. discriminate. }
    destruct (choose_literal clauses3) as [variable|].
    2:{ injection H as <-. simpl in *. injection HW as <-. apply incl_refl. }
    destruct (dpll fuel clauses3 (A2 ++ [variable])) as [o1|] eqn:Ho1;
      [|discriminate].
    destruct (sat o1).
    { injection H as <-. simpl in *. eapply Hcallee; eassumption. }
    destruct (dpll fuel clauses3 (A2 ++ [- variable])) as [o2|] eqn:Ho2;
      [|discriminate].
    destruct (sat o2); injection H as <-; simpl in *.
    + eapply Hcallee; eassumption.
    + discriminate.
Qed.

(** ** The empty clause *)

Lemma simplify_empty_clause clauses A :
  In [] clauses -> simplify clauses A = None.
Proof.
  induction clauses as [|clause rest IH]; intros Hin; [destruct Hin|].
  destruct (simplify (clause :: rest) A) as [new_clauses|] eqn:H; [|reflexivity].
  exfalso. destruct (simplify_covers _ _ _ H [] Hin) as [[l [[] _]] | Hk].
  apply (simplify_no_empty _ _ _ H). exact Hk.
Qed.

(** A formula with the empty clause is UNSAT for [dpll], at once. *)
Lemma dpll_empty_clause fuel clauses A :
  In [] clauses -> dpll (S fuel) clauses A = Some (Outcome false None A []).
Proof.
  intros Hin. rewrite dpll_S. unfold dpll_rules.
  now rewrite (simplify_empty_clause _ _ Hin).
Qed.

(** The call [dpll([[1]], a)] with [a = []]: unit propagation appends 1
    to the caller's list [a]. *)
Lemma dpll_appends_to_caller_list :
  dpll (dpll_fuel [[1]]) [[1]] [] = Some (Outcome true (Some [1]) [1] [[1]]) /\
  caller_assignment (Outcome true (Some [1]) [1] [[1]]) <> [].
Proof. split; [reflexivity | discriminate]. Qed.

(** ** The verdict decides satisfiability *)

(** A model that contains the literals simplified with is a model of
    what [simplify] keeps, and [simplify] does not conflict. *)
Lemma simplify_model clauses B W :
  models W clauses -> incl B W ->
  exists new_clauses, simplify clauses B = Some new_clauses /\ models W new_clauses.
Proof.
  intros [HW Hsat] HB.
  induction clauses as [|clause rest IH].
  - exists []. split; [reflexivity|]. split; [assumption | intros c []].
  - destruct IH as [rest' [Hrest [_ Hsat']]].
    { intros c Hc. apply Hsat. now right. }
    rewrite simplify_cons, Hrest.
    destruct (existsb _ clause) eqn:Hhit.
    + exists rest'. split; [reflexivity|]. now split.
    + destruct (Hsat clause (or_introl eq_refl)) as [l [Hl HlW]].
      assert (In l (reduce B clause)) as Hred.
      { apply reduce_In. split; [assumption|]. intros Hneg.
        assert (l = 0) as -> by (apply (consistent_no_clash W); auto).
        assert (satisfied_by B clause) as Hs by (exists 0; auto).
        apply existsb_mem_satisfied in Hs. congruence. }
      destruct (reduce B clause) as [|l0 r0] eqn:E; [destruct Hred|].
      eexists. split; [reflexivity|]. split; [assumption|].
      intros c [<- | Hc]; [|now apply Hsat'].
      exists l. split; [assumption | assumption].
Qed.

(** Unit propagation assigns only literals that every model contains. *)
Lemma unit_propagate_model fuel clauses A r final tr W :
  unit_propagate fuel clauses A = Some (r, final, tr) ->
  models W clauses -> incl A W ->
  incl final W /\ exists clauses', r = Some clauses' /\ models W clauses'.
Proof.
  revert clauses A r final tr.
  induction fuel as [|fuel IH]; intros clauses A r final tr H HW HA;
    simpl in H; destruct (find_unit_clause clauses) as [u|] eqn:Hu;
    try discriminate.
  - injection H as <- <- <-. split; [assumption|]. eauto.
  - assert (In u W) as HuW.
    { apply find_unit_clause_In in Hu.
      destruct (proj2 HW _ Hu) as [l [[<- | []] Hl]]. assumption. }
    destruct (simplify_model clauses [u] W HW) as [clauses1 [Hs HW1]].
    { intros x [<- | []]. assumption. }
    rewrite Hs in H.
    destruct (unit_propagate fuel clauses1 (A ++ [u])) as [[[r' final'] tr']|] eqn:Hr;
      [|discriminate].
    injection H as <- <- <-.
    apply (IH _ _ _ _ _ Hr HW1).
    apply incl_app; [assumption|]. intros x [<- | []]. assumption.
  - injection H as <- <- <-. split; [assumption|]. eauto.
Qed.

(** Making the pure literals true turns a model into a model. *)
Lemma pure_model clauses A W :
  models W clauses -> incl A W -> untouched A clauses ->
  exists W', models W' clauses /\ incl (A ++ find_pure_literals clauses) W'.
Proof.
  intros [HW Hsat] HA Hun.
  set (pure := find_pure_literals clauses).
  exists (pure ++ filter (fun l => negb (mem (- l) pure)) W).
  assert (forall l, In l (filter (fun l => negb (mem (- l) pure)) W)
                    <-> In l W /\ ~ In (- l) pure) as Hfilter.
  { intros l. rewrite filter_In, negb_true_iff, mem_false. tauto. }
  split; [split|].
  - apply consistent_app.
    + apply consistent_pure.
    + apply (consistent_incl W); [|assumption].
      intros l Hl. now apply Hfilter in Hl.
    + intros l Hl. apply Hfilter in Hl. tauto.
  - intros c Hc. destruct (Hsat c Hc) as [l [Hl HlW]].
    exists l. split; [assumption|]. apply in_or_app. right.
    apply Hfilter. split; [assumption|].
    intros Hp. apply find_pure_literals_In in Hp. destruct Hp as [_ Hp].
    apply Hp. rewrite Z.opp_involutive. exists c. tauto.
  - apply incl_app.
    + intros a Ha. apply in_or_app. right. apply Hfilter.
      split; [now apply HA|].
      intros Hp. apply find_pure_literals_In in Hp.
      destruct Hp as [[c [Hc Hl]] _].
      destruct (Hun _ _ Hc Hl) as [_ Hneg]. apply Hneg.
      now rewrite Z.opp_involutive.
    + apply incl_appl, incl_refl.
Qed.

(** A formula with a model that extends the assignment reaches the split,
    or returns SAT; the formula left for the split has a model that
    extends the assignment left for it. *)
Lemma rules_model clauses A s W :
  rules_spec clauses A s -> models W clauses -> incl A W ->
  match s with
  | Returned o => sat o = true
  | Branching clauses3 A2 _ => exists W', models W' clauses3 /\ incl A2 W'
  end.
Proof.
  intros Hs HW HA.
  assert (consistent A) as HcA
    by (apply (consistent_incl W); [exact HA | exact (proj1 HW)]).
  destruct (simplify_model clauses A W HW HA) as [cl1 [E1 HW1]].
  assert (untouched A cl1) as Hun1
    by (intros c l; apply (simplify_reduced _ _ _ E1)).
  destruct Hs as
    [ H1 | H1 | clauses1 A1 tr1 H1 H2
    | clauses1 clauses2 A1 tr1 A2 tr2 H1 H2 H3 H4
    | clauses1 clauses2 A1 tr1 A2 tr2 clauses3 H1 H2 H3 H4 ];
    rewrite E1 in H1; try discriminate; try reflexivity;
    injection H1 as <-.
  - destruct (unit_propagate_model _ _ _ _ _ _ W H2 HW1 HA) as [_ [? [[=] _]]].
  - exfalso.
    destruct (unit_propagate_clauses _ _ _ _ _ _ H2 (simplify_no_empty _ _ _ E1))
      as [Hne _].
    rewrite (simplify_whole (find_pure_literals clauses2) clauses2) in H4;
      [discriminate | intros c Hc; now apply reduce_pure | assumption].
  - destruct (unit_propagate_model _ _ _ _ _ _ W H2 HW1 HA)
      as [HA1 [cl2 [[= <-] HW2]]].
    destruct (unit_propagate_consistent _ _ _ _ _ _ H2 HcA Hun1) as [_ Hun2].
    specialize (Hun2 _ eq_refl).
    destruct (pure_model clauses2 A1 W HW2 HA1 Hun2) as [W' [HW' Hincl]].
    pose proof (proj1 (append_each_spec A1 (find_pure_literals clauses2))) as E.
    rewrite H3 in E. simpl in E. subst A2.
    exists W'. split; [|assumption].
    destruct (simplify_model clauses2 (find_pure_literals clauses2) W' HW')
      as [cl3 [E3 HW3]].
    { intros x Hx. apply Hincl, in_or_app. now right. }
    rewrite E3 in H4. now injection H4 as <-.
Qed.

(** A satisfiable formula is found satisfiable: when some model contains
    the assignment given, [dpll] returns SAT. *)
Lemma dpll_complete fuel clauses A o W :
  dpll fuel clauses A = Some o -> models W clauses -> incl A W -> sat o = true.
Proof.
  revert clauses A o W.
  induction fuel as [|fuel IH]; intros clauses A o W H HW HA; [discriminate|].
  rewrite dpll_S in H.
  destruct (dpll_rules clauses A) as [s|] eqn:Hs; [|discriminate].
  apply dpll_rules_spec in Hs.
  pose proof (rules_model _ _ _ _ Hs HW HA) as Hm.
  destruct s as [o0 | clauses3 A2 tr].
  - now injection H as <-.
  - destruct Hm as [W' [HW' HA2]].
    destruct (choose_literal clauses3) as [variable|]; [|now injection H as <-].
    destruct (dpll fuel clauses3 (A2 ++ [variable])) as [o1|] eqn:Ho1;
      [|discriminate].
    destruct (sat o1) eqn:Hs1; [now injection H as <-|].
    destruct (dpll fuel clauses3 (A2 ++ [- variable])) as [o2|] eqn:Ho2;
      [|discriminate].
    destruct (sat o2) eqn:Hs2; [now injection H as <-|]. exfalso.
    destruct (in_dec Z.eq_dec (- variable) W') as [Hneg | Hneg].
    + rewrite (IH _ _ _ W' Ho2 HW') in Hs2; [discriminate|].
      apply incl_app; [assumption|]. intros x [<- | []]. assumption.
    + rewrite (IH _ _ _ (variable :: W') Ho1) in Hs1; [discriminate | |].
      * destruct HW' as [Hc Hsat]. split; [now apply consistent_cons|].
        intros c Hc'. destruct (Hsat c Hc') as [l [Hl HlW]].
        exists l. split; [assumption | now right].
      * apply incl_app; [now apply incl_tl|]. intros x [<- | []]. now left.
Qed.

Lemma dpll_correct clauses :
  exists o, dpll (dpll_fuel clauses) clauses [] = Some o /\
            (sat o = true <-> satisfiable clauses).
Proof.
  destruct (dpll_terminates clauses []) as [o Ho]. exists o.
  split; [assumption|]. split.
  - intros Hsat. destruct (dpll_sound _ _ _ _ Ho) as [Hs _].
    destruct (Hs Hsat) as [W [HW [_ Hall]]]. exists W. split; [|assumption].
    apply (proj2 (proj2 (dpll_consistent _ _ _ _ consistent_nil Ho)) _ HW).
  - intros [W HW]. apply (dpll_complete _ _ _ _ W Ho HW). intros x [].
Qed.

(** Correctness of [dpll]: called with the empty assignment, [dpll]
    returns, on every clause list.  It returns SAT exactly when some list
    of literals [W] holds a literal of every clause and holds no variable
    [v > 0] together with [-v]; the literal 0, which is its own negation,
    may be in [W], so that [[0]] is a model of [[[0]]], on which [dpll]
    answers [(True, [0])].  When no clause holds the literal 0, that is
    exactly when some valuation makes every clause true. *)
Theorem dpll_decides clauses :
  exists o,
    dpll (dpll_fuel clauses) clauses [] = Some o /\
    (sat o = true <->
     exists W,
       (forall v, 0 < v -> ~ (In v W /\ In (- v) W)) /\
       (forall clause, In clause clauses ->
          exists l, In l clause /\ In l W)) /\
    ((forall clause, In clause clauses -> ~ In 0 clause) ->
     (sat o = true <->
      exists v, forall clause, In clause clauses ->
                  clause_true v clause = true)).
Proof.
  destruct (dpll_correct clauses) as [o [Ho Hsat]]. exists o.
  split; [exact Ho|]. split; [exact Hsat|].
  intros Hzero. rewrite Hsat. apply (satisfiable_valuation clauses Hzero).
Qed.

(** The clause list [[[0]]]: [dpll] answers SAT with the witness [[0]]. *)
Example dpll_zero_clause :
  dpll (dpll_fuel [[0]]) [[0]] [] = Some (Outcome true (Some [0]) [0] [[0]]).
Proof. reflexivity. Qed.

(** ** The helpers, in full *)

Lemma reduce_nil A clause :
  reduce A clause = [] <-> forall l, In l clause -> In (- l) A.
Proof.
  split.
  - intros E l Hl. destruct (in_dec Z.eq_dec (- l) A) as [H | H]; [assumption|].
    assert (In l (reduce A clause)) as Hin by (apply reduce_In; tauto).
    rewrite E in Hin. destruct Hin.
  - intros H. destruct (reduce A clause) as [|l ls] eqn:E; [reflexivity|].
    assert (In l (reduce A clause)) as Hin by (rewrite E; now left).
    apply reduce_In in Hin. destruct Hin as [Hl Hn]. now destruct (Hn (H l Hl)).
Qed.

Lemma hit_satisfied A clause : hit A clause = true <-> satisfied_by A clause.
Proof. apply existsb_mem_satisfied. Qed.

(** What [simplify] returns.  It reports a conflict exactly when some
    clause has no literal in the assignment and the negation of every
    literal in it; otherwise it returns, in order, the clauses that have no
    literal in the assignment, each without the literals whose negation is
    assigned. *)
Theorem simplify_spec clauses A :
  (simplify clauses A = None <->
   exists clause, In clause clauses /\ ~ satisfied_by A clause /\
                  forall l, In l clause -> In (- l) A) /\
  (forall new_clauses, simplify clauses A = Some new_clauses ->
     new_clauses
     = map (reduce A) (filter (fun clause => negb (hit A clause)) clauses)).
Proof.
  induction clauses as [|clause rest [IH1 IH2]].
  - split; [|now intros ? [= <-]].
    split; [discriminate | intros [c [[] _]]].
  - rewrite simplify_cons. simpl filter. fold (hit A clause).
    destruct (hit A clause) eqn:Hhit; simpl negb; cbv iota.
    + split.
      * rewrite IH1. split.
        -- intros [c [Hc H]]. exists c. split; [now right | assumption].
        -- intros [c [[<- | Hc] [Hns H]]].
           ++ apply hit_satisfied in Hhit. contradiction.
           ++ exists c. tauto.
      * exact IH2.
    + assert (~ satisfied_by A clause) as Hns.
      { intros Hs. apply hit_satisfied in Hs. congruence. }
      destruct (reduce A clause) as [|l0 r0] eqn:Hred.
      * split; [|discriminate]. split; [intros _ | reflexivity].
        exists clause. split; [now left|]. split; [assumption|].
        now apply reduce_nil.
      * destruct (simplify rest A) as [rest'|] eqn:Hrest.
        -- split.
           ++ split; [discriminate|]. intros [c [[<- | Hc] [Hc1 Hc2]]].
              ** apply reduce_nil in Hc2. congruence.
              ** assert (Some rest' = None) as E
                   by (apply IH1; exists c; tauto).
                 discriminate.
           ++ intros new_clauses [= <-]. simpl. rewrite Hred.
              f_equal. now apply IH2.
        -- split; [|discriminate]. split; [intros _ | reflexivity].
           destruct (proj1 IH1 eq_refl) as [c [Hc H]].
           exists c. split; [now right | assumption].
Qed.

Lemma mem_app x A B : mem x (A ++ B) = mem x A || mem x B.
Proof. unfold mem. apply existsb_app. Qed.

Lemma existsb_same {X} (f g : X -> bool) l :
  (forall x, In x l -> f x = g x) -> existsb f l = existsb g l.
Proof.
  induction l as [|x xs IH]; intros H; [reflexivity|]. simpl.
  rewrite (H x (or_introl eq_refl)), IH; [reflexivity|].
  intros y Hy. apply H. now right.
Qed.

Lemma simplify_untouched_app A B clauses :
  untouched A clauses -> simplify clauses (A ++ B) = simplify clauses B.
Proof.
  induction clauses as [|clause rest IH]; intros Hun; [reflexivity|].
  assert (forall l, In l clause -> mem l A = false /\ mem (- l) A = false) as Hc.
  { intros l Hl. destruct (Hun clause l (or_introl eq_refl) Hl).
    split; now apply mem_false. }
  rewrite !simplify_cons, IH by (intros c l Hc'; apply Hun; now right).
  replace (existsb (fun literal => mem literal (A ++ B)) clause)
    with (existsb (fun literal => mem literal B) clause).
  2:{ apply existsb_same. intros l Hl.
      rewrite mem_app, (proj1 (Hc l Hl)). reflexivity. }
  replace (reduce (A ++ B) clause) with (reduce B clause); [reflexivity|].
  unfold reduce. apply filter_ext_in. intros l Hl.
  rewrite mem_app, (proj2 (Hc l Hl)). reflexivity.
Qed.

Lemma simplify_nil clauses : ~ In [] clauses -> simplify clauses [] = Some clauses.
Proof.
  intros Hne. rewrite (simplify_whole [] clauses).
  - f_equal. clear Hne. induction clauses as [|c cs IH]; [reflexivity|].
    simpl. rewrite IH.
    replace (hit [] c) with false; [reflexivity|].
    unfold hit. induction c; [reflexivity | assumption].
  - intros clause _. unfold reduce. apply forallb_filter_id.
    now apply forallb_forall.
  - assumption.
Qed.

(** Simplifying twice.  What [simplify] returns for an assignment is
    left as it is by a second [simplify] with the same assignment, and a
    later [simplify] with a longer assignment only looks at the literals
    added: this is what the entry [simplify] of a recursive call of [dpll]
    does with the clauses of its caller. *)
Theorem simplify_again clauses A new_clauses :
  simplify clauses A = Some new_clauses ->
  simplify new_clauses A = Some new_clauses /\
  forall B, simplify new_clauses (A ++ B) = simplify new_clauses B.
Proof.
  intros H.
  assert (untouched A new_clauses) as Hun
    by (intros c l; apply (simplify_reduced _ _ _ H)).
  split.
  - rewrite <- (app_nil_r A) at 1. rewrite simplify_untouched_app by assumption.
    apply simplify_nil. now apply (simplify_no_empty _ _ _ H).
  - intros B. now apply simplify_untouched_app.
Qed.

Lemma simplify_again_example :
  simplify [[1; 2]; [-1; 3]; [-3; 4; 1]] [1] = Some [[3]] /\
  simplify [[3]] [1] = Some [[3]] /\
  forall B, simplify [[3]] ([1] ++ B) = simplify [[3]] B.
Proof.
  split; [reflexivity|].
  apply (simplify_again [[1; 2]; [-1; 3]; [-3; 4; 1]] [1] [[3]]). reflexivity.
Defined.

(** [find_unit_clause] returns [None] exactly when no clause has length
    1, and otherwise the literal of the first clause of length 1. *)
Theorem find_unit_clause_spec clauses :
  (find_unit_clause clauses = None <->
   forall clause, In clause clauses -> length clause <> 1%nat) /\
  (forall literal, find_unit_clause clauses = Some literal ->
     exists before after,
       clauses = before ++ [literal] :: after /\
       forall clause, In clause before -> length clause <> 1%nat).
Proof.
  induction clauses as [|clause rest [IH1 IH2]].
  - split; [split; [intros _ c [] | reflexivity] | discriminate].
  - destruct clause as [|x [|y ys]]; simpl.
    + split.
      * rewrite IH1. split.
        -- intros H c [<- | Hc]; [discriminate | now apply H].
        -- intros H c Hc. apply H. now right.
      * intros l Hl. destruct (IH2 l Hl) as [before [after [-> Hb]]].
        exists ([] :: before), after. split; [reflexivity|].
        intros c [<- | Hc]; [discriminate | now apply Hb].
    + split.
      * split; [discriminate|]. intros H. exfalso.
        now apply (H [x] (or_introl eq_refl)).
      * intros l [= <-]. exists [], rest. split; [reflexivity | intros c []].
    + split.
      * rewrite IH1. split.
        -- intros H c [<- | Hc]; [discriminate | now apply H].
        -- intros H c Hc. apply H. now right.
      * intros l Hl. destruct (IH2 l Hl) as [before [after [-> Hb]]].
        exists ((x :: y :: ys) :: before), after. split; [reflexivity|].
        intros c [<- | Hc]; [discriminate | now apply Hb].
Qed.

Lemma counter_incr_NoDup counter literal :
  NoDup (map fst counter) -> NoDup (map fst (counter_incr counter literal)).
Proof.
  induction counter as [|[k n] rest IH]; simpl; intros Hnd.
  - constructor; [intros [] | constructor].
  - inversion Hnd as [|? ? Hk Hrest]; subst.
    destruct (k =? literal) eqn:E; simpl.
    + now constructor.
    + constructor; [|now apply IH].
      rewrite counter_incr_keys. apply Z.eqb_neq in E. intros [-> | H]; tauto.
Qed.

Lemma count_literals_NoDup clauses : NoDup (map fst (count_literals clauses)).
Proof.
  unfold count_literals.
  assert (forall counter, NoDup (map fst counter) ->
            NoDup (map fst (fold_left
              (fun counter clause => fold_left counter_incr clause counter)
              clauses counter))) as H; [|apply H; constructor].
  induction clauses as [|c cs IH]; intros counter Hnd; [assumption|].
  simpl. apply IH. clear IH. revert counter Hnd.
  induction c as [|l ls IHc]; intros counter Hnd; [assumption|].
  simpl. apply IHc. now apply counter_incr_NoDup.
Qed.

(** [find_pure_literals] returns, each once, exactly the literals that
    occur in some clause while their negation occurs in none. *)
Theorem find_pure_literals_spec clauses :
  NoDup (find_pure_literals clauses) /\
  forall lit, In lit (find_pure_literals clauses) <->
    occurs clauses lit /\ ~ occurs clauses (- lit).
Proof.
  split; [|apply find_pure_literals_In].
  unfold find_pure_literals. apply NoDup_filter, count_literals_NoDup.
Qed.

(** [choose_literal] returns [None] exactly when every clause is empty,
    and otherwise the absolute value of the first literal of the first
    clause that has one. *)
Theorem choose_literal_spec clauses :
  (choose_literal clauses = None <->
   forall clause, In clause clauses -> clause = []) /\
  (forall variable, choose_literal clauses = Some variable ->
     0 <= variable /\
     exists before lit lits after,
       clauses = before ++ (lit :: lits) :: after /\
       (forall clause, In clause before -> clause = []) /\
       variable = Z.abs lit).
Proof.
  induction clauses as [|clause rest [IH1 IH2]].
  - split; [split; [intros _ c [] | reflexivity] | discriminate].
  - destruct clause as [|lit lits]; simpl.
    + split.
      * rewrite IH1. split.
        -- intros H c [<- | Hc]; [reflexivity | now apply H].
        -- intros H c Hc. apply H. now right.
      * intros v Hv. destruct (IH2 v Hv) as [Hpos [b [l [ls [a [-> [Hb E]]]]]]].
        split; [assumption|]. exists ([] :: b), l, ls, a.
        split; [reflexivity|]. split; [|assumption].
        intros c [<- | Hc]; [reflexivity | now apply Hb].
    + split.
      * split; [discriminate|]. intros H.
        now discriminate (H (lit :: lits) (or_introl eq_refl)).
      * intros v [= <-]. split; [lia|]. exists [], lit, lits, rest.
        split; [reflexivity|]. split; [intros c [] | reflexivity].
Qed.

(** ** The rules and the models *)

(** Unit propagation is forced: every model of the clauses that contains
    the assignment given contains every literal the loop appends, and is a
    model of the clauses the loop leaves; the loop conflicts only when
    there is no such model. *)
Theorem unit_propagation_forced fuel clauses A r final tr W :
  unit_propagate fuel clauses A = Some (r, final, tr) ->
  models W clauses -> incl A W ->
  incl final W /\ exists clauses', r = Some clauses' /\ models W clauses'.
Proof. apply unit_propagate_model. Qed.

Lemma unit_propagation_forced_example :
  unit_propagate 3 [[1]; [-1; 2]; [-2; 3; 4]] [] = Some (Some [[3; 4]], [1; 2], [[1]; [1; 2]]) /\
  models [1; 2; 3] [[1]; [-1; 2]; [-2; 3; 4]] /\
  incl [1; 2] [1; 2; 3] /\
  exists clauses', Some [[3; 4]] = Some clauses' /\ models [1; 2; 3] clauses'.
Proof.
  assert (models [1; 2; 3] [[1]; [-1; 2]; [-2; 3; 4]]) as HW.
  { split.
    - intros v Hv [H1 H2]. simpl in H1, H2. lia.
    - intros c [<- | [<- | [<- | []]]].
      + exists 1. simpl. tauto.
      + exists 2. simpl. tauto.
      + exists 3. simpl. tauto. }
  split; [reflexivity|]. split; [exact HW|].
  apply (unit_propagation_forced 3 [[1]; [-1; 2]; [-2; 3; 4]] []
           (Some [[3; 4]]) [1; 2] [[1]; [1; 2]] [1; 2; 3]).
  - reflexivity.
  - exact HW.
  - intros x [].
Defined.

(** The pure-literal rule keeps satisfiability: a clause list without
    empty clauses has a model exactly when the clauses that the rule
    leaves, those without a pure literal, have one. *)
Theorem pure_literals_keep_satisfiability clauses :
  ~ In [] clauses ->
  exists new_clauses,
    simplify clauses (find_pure_literals clauses) = Some new_clauses /\
    (satisfiable clauses <-> satisfiable new_clauses).
Proof.
  intros Hne.
  set (pure := find_pure_literals clauses).
  assert (simplify clauses pure
          = Some (filter (fun clause => negb (hit pure clause)) clauses)) as Hs.
  { apply simplify_whole; [|assumption]. intros c Hc. now apply reduce_pure. }
  eexists. split; [exact Hs|]. split.
  - intros [W HW].
    destruct (pure_model clauses [] W HW) as [W' [HW' Hincl]].
    { intros x []. }
    { intros c l _ _. split; intros []. }
    destruct (simplify_model clauses pure W' HW') as [new [E Hnew]].
    { intros x Hx. apply Hincl. exact Hx. }
    rewrite Hs in E. injection E as <-. now exists W'.
  - intros [W [HW Hsat]].
    exists (pure ++ filter (fun l => negb (mem (- l) pure)) W).
    assert (forall l, In l (filter (fun l => negb (mem (- l) pure)) W)
                      <-> In l W /\ ~ In (- l) pure) as Hfilter.
    { intros l. rewrite filter_In, negb_true_iff, mem_false. tauto. }
    split.
    + apply consistent_app.
      * apply consistent_pure.
      * apply (consistent_incl W); [|assumption].
        intros l Hl. now apply Hfilter in Hl.
      * intros l Hl. apply Hfilter in Hl. tauto.
    + intros c Hc. destruct (hit pure c) eqn:Hhit.
      * apply hit_satisfied in Hhit. destruct Hhit as [l [Hl Hp]].
        exists l. split; [assumption|]. apply in_or_app. now left.
      * destruct (Hsat c) as [l [Hl HlW]].
        { apply filter_In. split; [assumption|]. now rewrite Hhit. }
        exists l. split; [assumption|]. apply in_or_app. right.
        apply Hfilter. split; [assumption|].
        intros Hp. apply find_pure_literals_In in Hp. destruct Hp as [_ Hp].
        apply Hp. rewrite Z.opp_involutive. exists c. tauto.
Qed.

Lemma pure_literals_keep_satisfiability_example :
  ~ In [] [[1; 2]; [-2; 3]; [2; -3]] /\
  exists new_clauses,
    simplify [[1; 2]; [-2; 3]; [2; -3]]
      (find_pure_literals [[1; 2]; [-2; 3]; [2; -3]]) = Some new_clauses /\
    (satisfiable [[1; 2]; [-2; 3]; [2; -3]] <-> satisfiable new_clauses).
Proof.
  assert (~ In [] [[1; 2]; [-2; 3]; [2; -3]]) as Hne.
  { intros [H | [H | [H | []]]]; discriminate. }
  split; [exact Hne|].
  exact (pure_literals_keep_satisfiability [[1; 2]; [-2; 3]; [2; -3]] Hne).
Defined.

End DPLL.

(** * The DP engine ([scripts/dp.py]) *)

Module DP.

(** [literal in clause]. *)
Definition contains (literal : Z) (clause : pyclause) : bool :=
  mem literal (literals_of clause).

(** [is_tautology(clause)]. *)
Definition is_tautology (clause : list Z) : bool :=
  existsb (fun literal => mem (- literal) clause) clause.

(** [resolve(clause1, clause2, variable)].  [list(set(...))] removes the
    duplicates; the order it leaves is not fixed by the source and nothing
    in [dp] depends on it. *)
Definition resolve (clause1 clause2 : pyclause) (variable : Z) : option (list Z) :=
  let resolvent :=
    nodup Z.eq_dec
      (filter (fun literal => negb (literal =? variable)) (literals_of clause1)
       ++ filter (fun literal => negb (literal =? - variable)) (literals_of clause2)) in
  if is_tautology resolvent then None else Some resolvent.

(** [deepcopy(clauses)]: new objects with the same contents. *)
Definition deepcopy (clauses : list pyclause) : list pyclause := clauses.

(** The variables of a formula, each once:
    [set(abs(literal) for clause in formula for literal in clause)]. *)
Definition variables_of (formula : list pyclause) : list Z :=
  nodup Z.eq_dec (map Z.abs (flat_map literals_of formula)).

(** One round of the loop for the variable [var] popped: the new
    [formula], before the test for the empty clause. *)
Definition eliminate (var : Z) (formula : list pyclause) : list pyclause :=
  let pos_clauses := filter (contains var) formula in
  let neg_clauses := filter (contains (- var)) formula in
  let new_clauses :=
    flat_map (fun c1 =>
      flat_map (fun c2 =>
        match resolve c1 c2 var with
        | Some resolvent => [PyList resolvent]
        | None => []
        end) neg_clauses) pos_clauses in
  filter (fun clause => negb (contains var clause) && negb (contains (- var) clause))
    formula
  ++ new_clauses.

(** [[] in formula]: some clause equals the empty list. *)
Definition has_empty_list (formula : list pyclause) : bool :=
  existsb (fun clause => match clause with PyList [] => true | _ => false end) formula.

(** The [while variables:] loop.  [variables] lists the set in the order
    in which [variables.pop()] yields its elements, an order the source
    leaves to the set.  Next to the verdict the model returns the state
    [(variables, formula)] at the end of every round run. *)
Fixpoint dp_loop (variables : list Z) (formula : list pyclause)
  : bool * list (list Z * list pyclause) :=
  match variables with
  | [] => (true, [])
  | var :: variables =>
      let formula := eliminate var formula in
      if has_empty_list formula then (false, [(variables, formula)])
      else
        let (verdict, history) := dp_loop variables formula in
        (verdict, (variables, formula) :: history)
  end.

(** [dp(clauses)] when the set yields its variables in the order
    [variables]. *)
Definition dp_popping (variables : list Z) (clauses : list pyclause) : bool :=
  fst (dp_loop variables (deepcopy clauses)).

(** [dp(clauses)] with the variables popped in order of first occurrence. *)
Definition dp (clauses : list pyclause) : bool :=
  dp_popping (variables_of (deepcopy clauses)) clauses.

Definition rounds (variables : list Z) (clauses : list pyclause) : nat :=
  length (snd (dp_loop variables (deepcopy clauses))).

Example dp_scenario1 : dp [PySet [1]] = true.
Proof. reflexivity. Qed.
Example dp_scenario2 : dp [PySet [1]; PySet [-1]] = false.
Proof. reflexivity. Qed.
Example dp_scenario3 : dp [PySet [1; 2]; PySet [-1]; PySet [-2]] = false.
Proof. reflexivity. Qed.
Example dp_scenario4 : dp [PySet [1; 2]; PySet [-1; 2]; PySet [1; -2]] = true.
Proof. reflexivity. Qed.
Example dp_scenario5 :
  dp [PySet [1; 2; 3]; PySet [-1; 2]; PySet [-2; 3]; PySet [-3]] = false.
Proof. reflexivity. Qed.

(** ** Rounds and variables *)

Definition tautology_free (formula : list pyclause) : Prop :=
  forall clause, In clause formula -> is_tautology (literals_of clause) = false.

(** Every variable of [formula] is in [variables]. *)
Definition within (variables : list Z) (formula : list pyclause) : Prop :=
  forall clause literal,
    In clause formula -> In literal (literals_of clause) ->
    In (Z.abs literal) variables.

Lemma variables_of_In formula v :
  In v (variables_of formula) <->
  exists clause literal,
    In clause formula /\ In literal (literals_of clause) /\ v = Z.abs literal.
Proof.
  unfold variables_of. rewrite nodup_In, in_map_iff. split.
  - intros [l [E Hl]]. apply in_flat_map in Hl. destruct Hl as [c [Hc Hl]].
    exists c, l. auto.
  - intros [c [l [Hc [Hl E]]]]. exists l. split; [auto|].
    apply in_flat_map. exists c. auto.
Qed.

Lemma within_variables_of formula : within (variables_of formula) formula.
Proof.
  intros c l Hc Hl. apply variables_of_In. exists c, l. auto.
Qed.

Lemma is_tautology_false clause l :
  is_tautology clause = false -> In l clause -> ~ In (- l) clause.
Proof.
  unfold is_tautology. intros H Hl Hn.
  assert (existsb (fun literal => mem (- literal) clause) clause = true); [|congruence].
  apply existsb_exists. exists l. split; [assumption | now apply mem_In].
Qed.

Lemma contains_In literal clause :
  contains literal clause = true <-> In literal (literals_of clause).
Proof. apply mem_In. Qed.

(** The clauses of the next formula: the ones without the variable, and
    the resolvents that are not tautologies. *)
Lemma eliminate_In var formula clause :
  In clause (eliminate var formula) ->
  (In clause formula /\ ~ In var (literals_of clause)
     /\ ~ In (- var) (literals_of clause)) \/
  (exists c1 c2 resolvent,
     In c1 formula /\ In var (literals_of c1) /\
     In c2 formula /\ In (- var) (literals_of c2) /\
     resolve c1 c2 var = Some resolvent /\ clause = PyList resolvent).
Proof.
  unfold eliminate. intros H. apply in_app_or in H. destruct H as [H | H].
  - left. apply filter_In in H. destruct H as [H1 H2].
    apply andb_prop in H2. destruct H2 as [H2 H3].
    apply negb_true_iff in H2, H3.
    split; [assumption|].
    split; intros Hin; apply contains_In in Hin; congruence.
  - right. apply in_flat_map in H. destruct H as [c1 [H1 H]].
    apply in_flat_map in H. destruct H as [c2 [H2 H]].
    apply filter_In in H1, H2. destruct H1 as [H1 P1], H2 as [H2 P2].
    apply contains_In in P1, P2.
    destruct (resolve c1 c2 var) as [resolvent|] eqn:Hr; [|destruct H].
    destruct H as [<- | []].
    exists c1, c2, resolvent. tauto.
Qed.

Lemma resolve_Some clause1 clause2 variable resolvent :
  resolve clause1 clause2 variable = Some resolvent ->
  is_tautology resolvent = false /\
  forall l, In l resolvent <->
    (In l (literals_of clause1) /\ l <> variable) \/
    (In l (literals_of clause2) /\ l <> - variable).
Proof.
  unfold resolve. intros H.
  destruct (is_tautology (nodup _ _)) eqn:Ht; [discriminate|].
  injection H as <-. split; [assumption|].
  intros l. rewrite nodup_In, in_app_iff, !filter_In, !negb_true_iff, !Z.eqb_neq.
  tauto.
Qed.

(** A round over a formula without tautologies removes the variable
    popped for good. *)
Lemma eliminate_within var variables formula :
  ~ In var variables ->
  tautology_free formula -> within (var :: variables) formula ->
  tautology_free (eliminate var formula) /\ within variables (eliminate var formula).
Proof.
  intros Hvar Htaut Hin.
  assert (forall c l, In c formula -> In l (literals_of c) ->
            l <> var -> l <> - var -> In (Z.abs l) variables) as Hrest.
  { intros c l Hc Hl H1 H2. destruct (Hin _ _ Hc Hl) as [E | H]; [lia | assumption]. }
  split.
  - intros clause Hc. apply eliminate_In in Hc.
    destruct Hc as [[Hc _] | [c1 [c2 [r [_ [_ [_ [_ [Hr ->]]]]]]]]].
    + now apply Htaut.
    + apply (resolve_Some _ _ _ _ Hr).
  - intros clause l Hc Hl. apply eliminate_In in Hc.
    destruct Hc as [[Hc [H1 H2]] | [c1 [c2 [r [Hc1 [P1 [Hc2 [P2 [Hr ->]]]]]]]]].
    + apply (Hrest _ _ Hc Hl); intros ->; contradiction.
    + simpl in Hl. apply (proj2 (resolve_Some _ _ _ _ Hr)) in Hl.
      destruct Hl as [[Hl Hne] | [Hl Hne]].
      * apply (Hrest _ _ Hc1 Hl Hne). intros ->.
        apply (is_tautology_false _ _ (Htaut _ Hc1) P1 Hl).
      * apply (Hrest _ _ Hc2 Hl); [|assumption]. intros ->.
        apply (is_tautology_false _ _ (Htaut _ Hc2) Hl P2).
Qed.

Lemma dp_loop_cons var variables formula :
  dp_loop (var :: variables) formula =
  if has_empty_list (eliminate var formula)
  then (false, [(variables, eliminate var formula)])
  else (fst (dp_loop variables (eliminate var formula)),
        (variables, eliminate var formula)
          :: snd (dp_loop variables (eliminate var formula))).
Proof.
  simpl. destruct (has_empty_list _); [reflexivity|].
  now destruct (dp_loop variables (eliminate var formula)).
Qed.

(** The loop runs at most one round per variable. *)
Lemma dp_loop_rounds variables formula :
  (length (snd (dp_loop variables formula)) <= length variables)%nat.
Proof.
  revert formula. induction variables as [|var variables IH]; intros formula.
  - apply Nat.le_refl.
  - rewrite dp_loop_cons. destruct (has_empty_list _); simpl.
    + lia.
    + specialize (IH (eliminate var formula)). lia.
Qed.

(** Round [k] leaves the variables not yet popped: each round removes
    exactly one. *)
Lemma dp_loop_remaining variables formula k st :
  nth_error (snd (dp_loop variables formula)) k = Some st ->
  fst st = skipn (S k) variables.
Proof.
  revert formula k. induction variables as [|var variables IH]; intros formula k H.
  - destruct k; discriminate.
  - rewrite dp_loop_cons in H. destruct (has_empty_list _); simpl in H.
    + destruct k as [|[|k]]; try discriminate. now injection H as <-.
    + destruct k as [|k]; [now injection H as <-|].
      apply (IH _ _ H).
Qed.

Lemma dp_loop_within variables formula :
  NoDup variables -> tautology_free formula -> within variables formula ->
  forall st, In st (snd (dp_loop variables formula)) -> within (fst st) (snd st).
Proof.
  revert formula. induction variables as [|var variables IH];
    intros formula Hnd Htaut Hin st Hst; [destruct Hst|].
  inversion Hnd as [|? ? Hvar Hnd']; subst.
  destruct (eliminate_within _ _ _ Hvar Htaut Hin) as [Htaut' Hin'].
  rewrite dp_loop_cons in Hst. destruct (has_empty_list _); simpl in Hst.
  - destruct Hst as [<- | []]. assumption.
  - destruct Hst as [<- | Hst]; [assumption|].
    apply (IH _ Hnd' Htaut' Hin' _ Hst).
Qed.

Lemma variables_of_NoDup formula : NoDup (variables_of formula).
Proof. apply NoDup_nodup. Qed.

(** The input [[[1, -1], [-1]]]: its one variable is popped in the first
    round, and the resolvent [[-1]] of the tautology [[1, -1]] with [[-1]]
    brings the variable back into the formula. *)
Lemma dp_resolvent_reintroduces_variable :
  variables_of [PyList [1; -1]; PyList [-1]] = [1] /\
  dp_loop [1] (deepcopy [PyList [1; -1]; PyList [-1]])
    = (true, [([], [PyList [-1]])]) /\
  ~ within [] [PyList [-1]].
Proof.
  split; [reflexivity|]. split; [reflexivity|].
  intros H. apply (H (PyList [(-1)%Z]) (-1)%Z); simpl; tauto.
Qed.

(** C7, amended (termination bound of [dp]): whatever the order in which
    the set yields its variables, [dp] runs at most as many elimination
    rounds as the input has distinct variables; the variable set is
    computed once and round [k] leaves exactly the variables not yet
    popped; and when no input clause is a tautology, the formula at the
    end of every round mentions only variables that remain in the set, so
    that no resolvent brings a popped variable back. *)
Theorem dp_rounds_bound clauses variables :
  NoDup variables ->
  (forall v, In v variables <-> In v (variables_of clauses)) ->
  (rounds variables clauses <= length (variables_of clauses))%nat /\
  (forall k st,
     nth_error (snd (dp_loop variables (deepcopy clauses))) k = Some st ->
     fst st = skipn (S k) variables) /\
  (tautology_free clauses ->
   forall st, In st (snd (dp_loop variables (deepcopy clauses))) ->
     within (fst st) (snd st)).
Proof.
  intros Hnd Hvars. split; [|split].
  - unfold rounds.
    rewrite <- (Permutation_length
                  (NoDup_Permutation Hnd (variables_of_NoDup clauses) Hvars)).
    apply dp_loop_rounds.
  - intros k st. apply dp_loop_remaining.
  - intros Htaut. apply dp_loop_within; [assumption | assumption|].
    intros c l Hc Hl. apply Hvars. now apply (within_variables_of clauses c l).
Qed.

Lemma dp_rounds_bound_example :
  NoDup [2; 1] /\
  (forall v, In v [2; 1]
     <-> In v (variables_of [PySet [1; 2]; PySet [-1; 2]; PySet [1; -2]])) /\
  Nat.le (rounds [2; 1] [PySet [1; 2]; PySet [-1; 2]; PySet [1; -2]]) 2 /\
  dp_popping [2; 1] [PySet [1; 2]; PySet [-1; 2]; PySet [1; -2]] = true.
Proof.
  assert (NoDup [2; 1]) as Hnd.
  { constructor; [simpl; intros [H | []]; discriminate|].
    constructor; [intros []|constructor]. }
  assert (forall v, In v [2; 1]
     <-> In v (variables_of [PySet [1; 2]; PySet [-1; 2]; PySet [1; -2]])) as Hv.
  { intros v. simpl. tauto. }
  split; [exact Hnd|]. split; [exact Hv|].
  split; [|reflexivity].
  exact (proj1 (dp_rounds_bound
                  [PySet [1; 2]; PySet [-1; 2]; PySet [1; -2]] [2; 1] Hnd Hv)).
Defined.

(** ** The verdict decides satisfiability *)

(** The valuation [v] makes every clause of [formula] true. *)
Definition formula_true (v : Z -> bool) (formula : list pyclause) : Prop :=
  forall clause, In clause formula -> clause_true v (literals_of clause) = true.

Definition no_empty (formula : list pyclause) : Prop :=
  forall clause, In clause formula -> literals_of clause <> [].

Lemma eliminate_kept var formula clause :
  In clause formula ->
  ~ In var (literals_of clause) -> ~ In (- var) (literals_of clause) ->
  In clause (eliminate var formula).
Proof.
  intros Hc H1 H2. unfold eliminate. apply in_or_app. left.
  apply filter_In. split; [assumption|].
  apply andb_true_intro. split; apply negb_true_iff; unfold contains;
    now apply mem_false.
Qed.

Lemma eliminate_resolvent var formula c1 c2 resolvent :
  In c1 formula -> In var (literals_of c1) ->
  In c2 formula -> In (- var) (literals_of c2) ->
  resolve c1 c2 var = Some resolvent ->
  In (PyList resolvent) (eliminate var formula).
Proof.
  intros H1 P1 H2 P2 Hr. unfold eliminate. apply in_or_app. right.
  apply in_flat_map. exists c1. split.
  { apply filter_In. split; [assumption | now apply contains_In]. }
  apply in_flat_map. exists c2. split.
  { apply filter_In. split; [assumption | now apply contains_In]. }
  rewrite Hr. now left.
Qed.

(** A resolvent is true wherever its two parents are. *)
Lemma eliminate_sound var formula v :
  var <> 0 -> formula_true v formula -> formula_true v (eliminate var formula).
Proof.
  intros Hvar Hv clause Hc. apply eliminate_In in Hc.
  destruct Hc as [[Hc _] | [c1 [c2 [r [Hc1 [_ [Hc2 [_ [Hr ->]]]]]]]]];
    [now apply Hv|].
  destruct (proj1 (clause_true_iff _ _) (Hv _ Hc1)) as [l1 [Hl1 Ht1]].
  destruct (proj1 (clause_true_iff _ _) (Hv _ Hc2)) as [l2 [Hl2 Ht2]].
  destruct (resolve_Some _ _ _ _ Hr) as [_ Hin].
  apply clause_true_iff. simpl.
  destruct (Z.eq_dec l1 var) as [-> | Hn1].
  - destruct (Z.eq_dec l2 (- var)) as [-> | Hn2].
    + rewrite lit_true_opp, Ht1 in Ht2 by assumption. discriminate.
    + exists l2. split; [apply Hin; tauto | assumption].
  - exists l1. split; [apply Hin; tauto | assumption].
Qed.

(** [clause] has a literal other than [var] that [v] makes true. *)
Definition true_besides (v : Z -> bool) (var : Z) (clause : pyclause) : bool :=
  existsb (fun l => lit_true v l && negb (l =? var)) (literals_of clause).

Lemma true_besides_iff v var clause :
  true_besides v var clause = true <->
  exists l, In l (literals_of clause) /\ lit_true v l = true /\ l <> var.
Proof.
  unfold true_besides. rewrite existsb_exists. split.
  - intros [l [Hl H]]. apply andb_prop in H. destruct H as [H1 H2].
    apply negb_true_iff, Z.eqb_neq in H2. exists l. tauto.
  - intros [l [Hl [H1 H2]]]. exists l. split; [assumption|].
    rewrite H1. apply negb_true_iff, Z.eqb_neq. assumption.
Qed.

Lemma is_tautology_true clause :
  is_tautology clause = true -> exists l, In l clause /\ In (- l) clause.
Proof.
  unfold is_tautology. intros H. apply existsb_exists in H.
  destruct H as [l [Hl H]]. exists l. split; [assumption | now apply mem_In].
Qed.

(** A valuation of the formula after a round extends, by a value for the
    variable eliminated, to a valuation of the formula before it. *)
Lemma eliminate_complete var formula v :
  0 < var -> tautology_free formula ->
  formula_true v (eliminate var formula) ->
  exists v', formula_true v' formula.
Proof.
  intros Hvar Htaut Hv.
  set (b := existsb (fun c1 => negb (true_besides v var c1))
              (filter (contains var) formula)).
  exists (set_variable v var b). intros clause Hc. apply clause_true_iff.
  assert (forall l, In l (literals_of clause) -> lit_true v l = true ->
            l <> var -> l <> - var ->
            exists l, In l (literals_of clause) /\
                      lit_true (set_variable v var b) l = true) as Hother.
  { intros l Hl Ht H1 H2. exists l. split; [assumption|].
    now rewrite set_variable_other. }
  pose proof (Htaut _ Hc) as Hnt.
  destruct (in_dec Z.eq_dec var (literals_of clause)) as [Hpos | Hpos].
  - (* a clause with [var] *)
    destruct b eqn:Hb.
    + exists var. split; [assumption | now apply set_variable_pos].
    + assert (true_besides v var clause = true) as Hbes.
      { destruct (true_besides v var clause) eqn:E; [reflexivity|]. exfalso.
        assert (b = true); [|congruence]. apply existsb_exists.
        exists clause. split; [|now rewrite E].
        apply filter_In. split; [assumption | now apply contains_In]. }
      apply true_besides_iff in Hbes. destruct Hbes as [l [Hl [Ht Hne]]].
      apply (Hother l Hl Ht Hne). intros ->.
      apply (is_tautology_false _ _ Hnt Hpos Hl).
  - destruct (in_dec Z.eq_dec (- var) (literals_of clause)) as [Hneg | Hneg].
    + (* a clause with [-var] *)
      destruct b eqn:Hb.
      2:{ exists (- var). split; [assumption | now rewrite set_variable_neg]. }
      apply existsb_exists in Hb. destruct Hb as [c1 [Hc1 Hbes]].
      apply filter_In in Hc1. destruct Hc1 as [Hc1 P1].
      apply contains_In in P1. apply negb_true_iff in Hbes.
      assert (forall l, In l (literals_of c1) -> l <> var -> lit_true v l = false)
        as Hfalse.
      { intros l Hl Hne. destruct (lit_true v l) eqn:E; [|reflexivity].
        assert (true_besides v var c1 = true); [|congruence].
        apply true_besides_iff. exists l. tauto. }
      pose proof (Htaut _ Hc1) as Hnt1.
      destruct (resolve c1 clause var) as [r|] eqn:Hr.
      * pose proof (eliminate_resolvent _ _ _ _ _ Hc1 P1 Hc Hneg Hr) as Hin.
        destruct (proj1 (clause_true_iff _ _) (Hv _ Hin)) as [l [Hl Ht]].
        simpl in Hl. apply (proj2 (resolve_Some _ _ _ _ Hr)) in Hl.
        destruct Hl as [[Hl Hne] | [Hl Hne]].
        -- rewrite (Hfalse l Hl Hne) in Ht. discriminate.
        -- apply (Hother l Hl Ht); [|assumption]. intros ->. contradiction.
      * unfold resolve in Hr.
        destruct (is_tautology (nodup Z.eq_dec _)) eqn:Ht; [|discriminate].
        apply is_tautology_true in Ht. destruct Ht as [l [H1 H2]].
        rewrite nodup_In, in_app_iff, !filter_In, !negb_true_iff, !Z.eqb_neq
          in H1, H2.
        assert (forall x, In x (literals_of c1) -> x <> var ->
                  In (- x) (literals_of clause) -> - x <> - var ->
                  exists l, In l (literals_of clause) /\
                            lit_true (set_variable v var true) l = true) as Hcross.
        { intros x Hx1 Hxv Hx2 Hxn.
          assert (x <> 0) as Hx0.
          { intros ->. apply (is_tautology_false _ _ Hnt1 Hx1). exact Hx1. }
          apply (Hother (- x) Hx2); [| |assumption].
          - rewrite lit_true_opp by assumption. now rewrite (Hfalse x Hx1 Hxv).
          - intros E. apply (is_tautology_false _ _ Hnt1 P1).
            now replace (- var) with x by lia. }
        destruct H1 as [[H1 N1] | [H1 N1]], H2 as [[H2 N2] | [H2 N2]].
        -- exfalso. apply (is_tautology_false _ _ Hnt1 H1 H2).
        -- now apply (Hcross l).
        -- apply (Hcross (- l)); try assumption.
           ++ now rewrite Z.opp_involutive.
           ++ rewrite Z.opp_involutive. lia.
        -- exfalso. apply (is_tautology_false _ _ Hnt H1 H2).
    + (* a clause without the variable *)
      pose proof (eliminate_kept _ _ _ Hc Hpos Hneg) as Hin.
      destruct (proj1 (clause_true_iff _ _) (Hv _ Hin)) as [l [Hl Ht]].
      apply (Hother l Hl Ht); intros ->; contradiction.
Qed.

Lemma has_empty_list_In formula :
  has_empty_list formula = true <-> In (PyList []) formula.
Proof.
  unfold has_empty_list. rewrite existsb_exists. split.
  - intros [clause [Hc H]]. destruct clause as [[|l ls] | items];
      try discriminate. assumption.
  - intros H. exists (PyList []). split; [assumption | reflexivity].
Qed.

Lemma has_empty_list_unsat formula v :
  has_empty_list formula = true -> ~ formula_true v formula.
Proof.
  intros H Hv. apply has_empty_list_In in H. specialize (Hv _ H). discriminate.
Qed.

Lemma eliminate_no_empty var formula :
  no_empty formula -> has_empty_list (eliminate var formula) = false ->
  no_empty (eliminate var formula).
Proof.
  intros Hne Hno clause Hc E.
  pose proof Hc as Hc'. apply eliminate_In in Hc'.
  destruct Hc' as [[Hin _] | [c1 [c2 [r [_ [_ [_ [_ [_ ->]]]]]]]]].
  - now apply (Hne _ Hin).
  - simpl in E. subst r.
    apply has_empty_list_In in Hc. congruence.
Qed.

(** The loop returns SAT exactly when the formula it starts from has a
    valuation, for a formula without tautologies and without empty
    clauses over the variables still to pop. *)
Lemma dp_loop_correct variables formula :
  NoDup variables -> Forall (fun x => 0 < x) variables ->
  tautology_free formula -> within variables formula -> no_empty formula ->
  fst (dp_loop variables formula) = true <-> exists v, formula_true v formula.
Proof.
  revert formula. induction variables as [|var variables IH];
    intros formula Hnd Hpos Htaut Hin Hne.
  - simpl. split; [intros _ | reflexivity].
    exists (fun _ => true). intros clause Hc. exfalso.
    destruct (literals_of clause) as [|l ls] eqn:E; [now apply (Hne _ Hc)|].
    apply (Hin clause l Hc). rewrite E. now left.
  - inversion Hnd as [|? ? Hvar Hnd']; subst.
    inversion Hpos as [|? ? Hv0 Hpos']; subst.
    destruct (eliminate_within _ _ _ Hvar Htaut Hin) as [Htaut' Hin'].
    rewrite dp_loop_cons.
    destruct (has_empty_list (eliminate var formula)) eqn:Hempty; simpl.
    + split; [discriminate|]. intros [v Hv]. exfalso.
      apply (has_empty_list_unsat _ v Hempty).
      apply eliminate_sound; [lia | assumption].
    + rewrite (IH _ Hnd' Hpos' Htaut' Hin' (eliminate_no_empty _ _ Hne Hempty)).
      split.
      * intros [v Hv]. now apply (eliminate_complete var formula v).
      * intros [v Hv]. exists v. apply eliminate_sound; [lia | assumption].
Qed.

Lemma tautology_free_no_zero formula clause :
  tautology_free formula -> In clause formula -> ~ In 0 (literals_of clause).
Proof.
  intros Htaut Hc H0. apply (is_tautology_false _ _ (Htaut _ Hc) H0). exact H0.
Qed.

Lemma dp_correct clauses variables :
  NoDup variables ->
  (forall x, In x variables <-> In x (variables_of clauses)) ->
  tautology_free clauses -> no_empty clauses ->
  dp_popping variables clauses = true <-> exists v, formula_true v clauses.
Proof.
  intros Hnd Hvars Htaut Hne. unfold dp_popping, deepcopy.
  apply dp_loop_correct; try assumption.
  - apply Forall_forall. intros x Hx. apply Hvars, variables_of_In in Hx.
    destruct Hx as [c [l [Hc [Hl ->]]]].
    assert (l <> 0); [|lia]. intros ->.
    now apply (tautology_free_no_zero _ _ Htaut Hc).
  - intros c l Hc Hl. apply Hvars. now apply (within_variables_of clauses c l).
Qed.

(** Correctness of [dp]: on a formula without tautologies and without
    empty clauses, and whatever the order in which the variables are
    popped, [dp] returns SAT exactly when some valuation makes every
    clause true. *)
Theorem dp_decides clauses variables :
  NoDup variables ->
  (forall x, In x variables <-> In x (variables_of clauses)) ->
  tautology_free clauses -> no_empty clauses ->
  dp_popping variables clauses = true <-> exists v, formula_true v clauses.
Proof. exact (dp_correct clauses variables). Qed.

Lemma dp_decides_example :
  NoDup [2; 1] /\
  (dp_popping [2; 1] [PySet [1; 2]; PySet [-1; 2]; PySet [1; -2]] = true <->
   exists v, formula_true v [PySet [1; 2]; PySet [-1; 2]; PySet [1; -2]]).
Proof.
  assert (NoDup [2; 1]) as Hnd.
  { constructor; [simpl; intros [H | []]; discriminate|].
    constructor; [intros []|constructor]. }
  split; [exact Hnd|].
  apply (dp_decides [PySet [1; 2]; PySet [-1; 2]; PySet [1; -2]] [2; 1] Hnd).
  - intros x. simpl. tauto.
  - intros c [<- | [<- | [<- | []]]]; reflexivity.
  - intros c [<- | [<- | [<- | []]]]; discriminate.
Defined.

(** ** The helpers, in full *)

Lemma is_tautology_iff clause :
  is_tautology clause = true <-> exists l, In l clause /\ In (- l) clause.
Proof.
  split; [apply is_tautology_true|]. intros [l [Hl Hn]].
  destruct (is_tautology clause) eqn:E; [reflexivity|].
  now destruct (is_tautology_false _ _ E Hl).
Qed.

(** [is_tautology] holds exactly of the clauses with a literal and its
    negation; a clause with the literal 0 is one of them. *)
Theorem is_tautology_spec clause :
  (is_tautology clause = true <-> exists l, In l clause /\ In (- l) clause) /\
  (In 0 clause -> is_tautology clause = true).
Proof.
  pose proof (is_tautology_iff clause) as H.
  split; [exact H|]. intros H0. apply H. exists 0. tauto.
Qed.

(** [resolve] returns [None] exactly when the two clauses, the first
    without [variable] and the second without [-variable], hold a literal
    and its negation between them; otherwise it returns these literals,
    each once. *)
Theorem resolve_spec clause1 clause2 variable :
  (resolve clause1 clause2 variable = None <->
   exists l,
     (In l (literals_of clause1) /\ l <> variable \/
      In l (literals_of clause2) /\ l <> - variable) /\
     (In (- l) (literals_of clause1) /\ - l <> variable \/
      In (- l) (literals_of clause2) /\ - l <> - variable)) /\
  (forall resolvent, resolve clause1 clause2 variable = Some resolvent ->
     NoDup resolvent /\
     forall l, In l resolvent <->
       In l (literals_of clause1) /\ l <> variable \/
       In l (literals_of clause2) /\ l <> - variable).
Proof.
  unfold resolve.
  set (merged := filter (fun literal => negb (literal =? variable))
                   (literals_of clause1)
                 ++ filter (fun literal => negb (literal =? - variable))
                      (literals_of clause2)).
  assert (forall l, In l (nodup Z.eq_dec merged) <->
            In l (literals_of clause1) /\ l <> variable \/
            In l (literals_of clause2) /\ l <> - variable) as Hin.
  { intros l. unfold merged.
    rewrite nodup_In, in_app_iff, !filter_In, !negb_true_iff, !Z.eqb_neq.
    tauto. }
  pose proof (is_tautology_iff (nodup Z.eq_dec merged)) as Ht.
  destruct (is_tautology (nodup Z.eq_dec merged)) eqn:E.
  - split; [|discriminate]. split; [intros _ | reflexivity].
    destruct (proj1 Ht eq_refl) as [l [H1 H2]].
    exists l. split; now apply Hin.
  - split.
    + split; [discriminate|]. intros [l [H1 H2]].
      assert (false = true); [|discriminate].
      apply Ht. exists l. split; now apply Hin.
    + intros r [= <-]. split; [apply NoDup_nodup | exact Hin].
Qed.

(** A round keeps satisfiability: when no clause is a tautology, the
    formula before the elimination of a variable has a valuation exactly
    when the formula after it has one. *)
Theorem eliminate_equisatisfiable var formula :
  0 < var -> tautology_free formula ->
  (exists v, formula_true v formula) <->
  (exists v, formula_true v (eliminate var formula)).
Proof.
  intros Hvar Htaut. split.
  - intros [v Hv]. exists v. apply eliminate_sound; [lia | assumption].
  - intros [v Hv]. now apply (eliminate_complete var formula v).
Qed.

Lemma eliminate_equisatisfiable_example :
  0 < 1 /\
  tautology_free [PySet [1; 2]; PySet [-1; 2]; PySet [1; -2]] /\
  eliminate 1 [PySet [1; 2]; PySet [-1; 2]; PySet [1; -2]] = [PyList [2]] /\
  ((exists v, formula_true v [PySet [1; 2]; PySet [-1; 2]; PySet [1; -2]]) <->
   (exists v, formula_true v [PyList [2]])).
Proof.
  assert (tautology_free [PySet [1; 2]; PySet [-1; 2]; PySet [1; -2]]) as Ht.
  { intros c [<- | [<- | [<- | []]]]; reflexivity. }
  split; [lia|]. split; [exact Ht|]. split; [reflexivity|].
  exact (eliminate_equisatisfiable 1
           [PySet [1; 2]; PySet [-1; 2]; PySet [1; -2]] eq_refl Ht).
Defined.

Lemma dp_loop_unsat variables formula v :
  ~ In 0 variables -> fst (dp_loop variables formula) = false ->
  ~ formula_true v formula.
Proof.
  revert formula. induction variables as [|var variables IH];
    intros formula H0 H Hv; [discriminate|].
  rewrite dp_loop_cons in H.
  assert (var <> 0) as Hvar by (intros ->; apply H0; now left).
  pose proof (eliminate_sound var formula v Hvar Hv) as Hv'.
  destruct (has_empty_list (eliminate var formula)) eqn:Hempty.
  - now apply (has_empty_list_unsat _ v Hempty).
  - simpl in H. apply (IH (eliminate var formula)); try assumption.
    intros Hin. apply H0. now right.
Qed.

(** UNSAT from [dp] is sound, tautologies or not: whatever the formula,
    when [dp] returns [False] no valuation makes every clause true. *)
Theorem dp_unsat_sound variables clauses :
  ~ In 0 variables -> dp_popping variables clauses = false ->
  ~ exists v, formula_true v clauses.
Proof.
  intros H0 H [v Hv]. now apply (dp_loop_unsat variables clauses v H0 H).
Qed.

Lemma dp_unsat_sound_example :
  ~ In 0 [1; 2] /\
  dp_popping [1; 2] [PySet [1; -1; 2]; PySet [-2]; PySet [2; 1]; PySet [-1]] = false /\
  ~ exists v, formula_true v [PySet [1; -1; 2]; PySet [-2]; PySet [2; 1]; PySet [-1]].
Proof.
  assert (~ In 0 [1; 2]) as H0 by (simpl; intros [H | [H | []]]; discriminate).
  split; [exact H0|]. split; [reflexivity|].
  apply (dp_unsat_sound [1; 2]
           [PySet [1; -1; 2]; PySet [-2]; PySet [2; 1]; PySet [-1]] H0).
  reflexivity.
Defined.

(** An empty list among the clauses is found in the first round: [dp]
    returns [False] on a formula that holds the clause [[]], as soon as
    there is a variable to pop. *)
Theorem dp_finds_empty_list variables clauses :
  variables <> [] -> In (PyList []) clauses ->
  dp_popping variables clauses = false.
Proof.
  intros Hv Hin. destruct variables as [|var variables]; [contradiction|].
  unfold dp_popping, deepcopy. rewrite dp_loop_cons.
  assert (has_empty_list (eliminate var clauses) = true) as ->; [|reflexivity].
  apply has_empty_list_In. apply eliminate_kept; [assumption | |]; intros [].
Qed.

Lemma dp_finds_empty_list_example :
  [1] <> [] /\ In (PyList []) [PyList [1]; PyList []] /\
  dp_popping [1] [PyList [1]; PyList []] = false.
Proof.
  assert ([1] <> []) as Hv by discriminate.
  assert (In (PyList []) [PyList [1]; PyList []]) as Hin by (simpl; tauto).
  split; [exact Hv|]. split; [exact Hin|].
  exact (dp_finds_empty_list [1] [PyList [1]; PyList []] Hv Hin).
Defined.

End DP.

(** * The resolution engine ([scripts/resolution.py]) *)

Module Resolution.
Import stdpp.gmap.
Local Open Scope Z_scope.
#[local] Set Warnings "-clear-no-such-hyp".

(** [resolve_clauses(clause1, clause2)] on two frozensets.  The [for]
    loop stops at the first literal of [clause1], in the order the set is
    iterated, whose negation is in [clause2]. *)
Definition resolve_clauses (clause1 clause2 : gset Z) : option (gset Z) :=
  match List.find (fun literal => bool_decide (- literal ∈ clause2))
          (elements clause1) with
  | Some literal =>
      let resolvent := (clause1 ∪ clause2) ∖ {[literal; - literal]} in
      if existsb (fun lit => bool_decide (- lit ∈ resolvent)) (elements resolvent)
      then None
      else Some resolvent
  | None => None
  end.

(** The inner [for j] loop for one [clause_list[i]]: [None] stands for
    the [return False] on an empty resolvent. *)
Fixpoint resolve_with (clause_i : gset Z) (later : list (gset Z))
    (new_resolvents : gset (gset Z)) : option (gset (gset Z)) :=
  match later with
  | [] => Some new_resolvents
  | clause_j :: later =>
      match resolve_clauses clause_i clause_j with
      | None => resolve_with clause_i later new_resolvents
      | Some resolvent =>
          if bool_decide (resolvent = ∅) then None
          else resolve_with clause_i later ({[resolvent]} ∪ new_resolvents)
      end
  end.

(** The two nested loops over the pairs [i < j] of [clause_list]. *)
Fixpoint resolve_pairs (clause_list : list (gset Z))
    (new_resolvents : gset (gset Z)) : option (gset (gset Z)) :=
  match clause_list with
  | [] => Some new_resolvents
  | clause_i :: later =>
      match resolve_with clause_i later new_resolvents with
      | None => None
      | Some new_resolvents => resolve_pairs later new_resolvents
      end
  end.

(** One pass of the [while True:] loop: it returns a verdict or goes on
    with a larger known set. *)
Inductive step :=
| Verdict (sat : bool)
| Continue (known_clauses : gset (gset Z)).

Definition iteration (known_clauses : gset (gset Z)) : step :=
  match resolve_pairs (elements known_clauses) ∅ with
  | None => Verdict false
  | Some new_resolvents =>
      if bool_decide (new_resolvents ⊆ known_clauses)
         || bool_decide (new_resolvents = ∅)
      then Verdict true
      else Continue (known_clauses ∪ new_resolvents)
  end.

Fixpoint saturate (fuel : nat) (known_clauses : gset (gset Z)) : option bool :=
  match fuel with
  | O => None
  | S fuel =>
      match iteration known_clauses with
      | Verdict sat => Some sat
      | Continue known_clauses => saturate fuel known_clauses
      end
  end.

(** [set(frozenset(clause) for clause in clauses_set)]. *)
Definition initial_clauses (clauses_set : list (list Z)) : gset (gset Z) :=
  list_to_set (List.map list_to_set clauses_set).

(** [resolution(clauses_set)]. *)
Definition resolution (fuel : nat) (clauses_set : list (list Z)) : option bool :=
  saturate fuel (initial_clauses clauses_set).

(** The known set at the start of the pass numbered [n] (from 0), when
    the loop gets that far. *)
Fixpoint known_at (n : nat) (known_clauses : gset (gset Z))
  : option (gset (gset Z)) :=
  match n with
  | O => Some known_clauses
  | S n =>
      match iteration known_clauses with
      | Verdict _ => None
      | Continue known_clauses => known_at n known_clauses
      end
  end.

(** Every resolvent that the pairs [i < j] of a clause list have. *)
Fixpoint pair_resolvents (clause_list : list (gset Z)) : list (gset Z) :=
  match clause_list with
  | [] => []
  | clause_i :: later =>
      omap (resolve_clauses clause_i) later ++ pair_resolvents later
  end.

Example resolution_scenario1 : resolution 1 [[1]] = Some true.
Proof. vm_compute. reflexivity. Qed.
Example resolution_scenario2 : resolution 1 [[1]; [-1]] = Some false.
Proof. vm_compute. reflexivity. Qed.
Example resolution_scenario3 : resolution 2 [[1; 2]; [-1]; [-2]] = Some false.
Proof. vm_compute. reflexivity. Qed.
Example resolution_scenario4 : resolution 2 [[1; 2]; [-1; 2]; [1; -2]] = Some true.
Proof. vm_compute. reflexivity. Qed.
Example resolution_scenario5 :
  resolution 3 [[1; 2; 3]; [-1; 2]; [-2; 3]; [-3]] = Some false.
Proof. vm_compute. reflexivity. Qed.

(** ** One pass of the loop *)

Lemma resolve_with_spec clause_i later new_resolvents :
  match resolve_with clause_i later new_resolvents with
  | None => ∅ ∈ omap (resolve_clauses clause_i) later
  | Some new_resolvents' =>
      (∅ ∉ omap (resolve_clauses clause_i) later) ∧
      (new_resolvents'
       = new_resolvents ∪ list_to_set (omap (resolve_clauses clause_i) later))
  end.
Proof.
  revert new_resolvents.
  induction later as [|clause_j later IH]; intros new_resolvents; simpl.
  - split; [apply not_elem_of_nil | set_solver].
  - destruct (resolve_clauses clause_i clause_j) as [resolvent|]; [|apply IH].
    case_bool_decide as Hempty.
    + subst. apply list_elem_of_here.
    + specialize (IH ({[resolvent]} ∪ new_resolvents)).
      destruct (resolve_with clause_i later _).
      * destruct IH as [IH1 IH2]. split; [|set_solver].
        intros Hin. apply elem_of_cons in Hin. destruct Hin; [congruence | tauto].
      * now apply list_elem_of_further.
Qed.

Lemma resolve_pairs_spec clause_list new_resolvents :
  match resolve_pairs clause_list new_resolvents with
  | None => ∅ ∈ pair_resolvents clause_list
  | Some new_resolvents' =>
      (∅ ∉ pair_resolvents clause_list) ∧
      (new_resolvents'
       = new_resolvents ∪ list_to_set (pair_resolvents clause_list))
  end.
Proof.
  revert new_resolvents.
  induction clause_list as [|clause_i later IH]; intros new_resolvents; simpl.
  - split; [apply not_elem_of_nil | set_solver].
  - pose proof (resolve_with_spec clause_i later new_resolvents) as Hi.
    destruct (resolve_with clause_i later new_resolvents) as [new1|].
    + destruct Hi as [Hi1 Hi2]. specialize (IH new1).
      destruct (resolve_pairs later new1).
      * destruct IH as [IH1 IH2]. split.
        -- intros Hin. apply elem_of_app in Hin. tauto.
        -- subst. rewrite list_to_set_app_L. set_solver.
      * apply elem_of_app. now right.
    + apply elem_of_app. now left.
Qed.

(** What a pass does, in terms of the resolvents of the pairs of the known
    set: UNSAT when one of them is empty; otherwise SAT when all of them are
    known already; otherwise on with all of them added. *)
Lemma iteration_spec known_clauses :
  match iteration known_clauses with
  | Verdict false => ∅ ∈ pair_resolvents (elements known_clauses)
  | Verdict true =>
      (∅ ∉ pair_resolvents (elements known_clauses)) ∧
      (∀ r, r ∈ pair_resolvents (elements known_clauses) → r ∈ known_clauses)
  | Continue known_clauses' =>
      (∅ ∉ pair_resolvents (elements known_clauses)) ∧
      (known_clauses'
       = known_clauses ∪ list_to_set (pair_resolvents (elements known_clauses))) ∧
      ¬ (∀ r, r ∈ pair_resolvents (elements known_clauses) → r ∈ known_clauses)
  end.
Proof.
  unfold iteration.
  pose proof (resolve_pairs_spec (elements known_clauses) ∅) as H.
  destruct (resolve_pairs (elements known_clauses) ∅) as [new_resolvents|];
    [|assumption].
  destruct H as [H1 H2].
  destruct (bool_decide (new_resolvents ⊆ known_clauses)
            || bool_decide (new_resolvents = ∅)) eqn:Hb.
  - split; [assumption|]. intros r Hr.
    apply orb_true_iff in Hb. destruct Hb as [Hb | Hb];
      apply bool_decide_eq_true in Hb; set_solver.
  - split; [assumption|]. split; [set_solver|].
    intros Hall. apply orb_false_iff in Hb. destruct Hb as [Hb _].
    apply bool_decide_eq_false in Hb. apply Hb. set_solver.
Qed.

Lemma iteration_grows known_clauses known_clauses' :
  iteration known_clauses = Continue known_clauses' →
  known_clauses ⊆ known_clauses' ∧
  (∅ ∉ known_clauses → ∅ ∉ known_clauses').
Proof.
  intros H. pose proof (iteration_spec known_clauses) as Hs. rewrite H in Hs.
  destruct Hs as [H1 [-> _]]. split; [set_solver|].
  intros H0 Hin. apply elem_of_union in Hin. destruct Hin as [Hin | Hin];
    [tauto|]. apply elem_of_list_to_set in Hin. tauto.
Qed.

(** ** The passes in sequence *)

Lemma known_at_S n known_clauses :
  known_at (S n) known_clauses =
  match known_at n known_clauses with
  | Some known_n =>
      match iteration known_n with
      | Verdict _ => None
      | Continue known_clauses' => Some known_clauses'
      end
  | None => None
  end.
Proof.
  revert known_clauses. induction n as [|n IH]; intros known_clauses.
  - simpl. now destruct (iteration known_clauses).
  - change (known_at (S (S n)) known_clauses)
      with (match iteration known_clauses with
            | Verdict _ => None
            | Continue k => known_at (S n) k
            end).
    change (known_at (S n) known_clauses)
      with (match iteration known_clauses with
            | Verdict _ => None
            | Continue k => known_at n k
            end).
    destruct (iteration known_clauses) as [b | k]; [reflexivity | apply IH].
Qed.

Lemma known_at_step n known_clauses known_n known_n' :
  known_at n known_clauses = Some known_n →
  known_at (S n) known_clauses = Some known_n' →
  known_n ⊆ known_n' ∧ (∅ ∉ known_n → ∅ ∉ known_n').
Proof.
  intros Hn HS. rewrite known_at_S, Hn in HS.
  destruct (iteration known_n) as [b | k] eqn:Hit; [discriminate|].
  injection HS as ->. now apply iteration_grows.
Qed.

Lemma known_at_earlier n known_clauses known_n :
  known_at (S n) known_clauses = Some known_n →
  ∃ known_p, known_at n known_clauses = Some known_p.
Proof.
  rewrite known_at_S. destruct (known_at n known_clauses); [eauto | discriminate].
Qed.

(** The known set only grows from pass to pass. *)
Lemma known_at_mono known_clauses i j known_i known_j :
  (i ≤ j)%nat →
  known_at i known_clauses = Some known_i →
  known_at j known_clauses = Some known_j →
  known_i ⊆ known_j.
Proof.
  intros Hle Hi. revert known_j.
  induction Hle as [|j Hle IH]; intros known_j Hj.
  - rewrite Hi in Hj. injection Hj as ->. reflexivity.
  - destruct (known_at_earlier _ _ _ Hj) as [known_p Hp].
    specialize (IH _ Hp).
    destruct (known_at_step _ _ _ _ Hp Hj) as [Hsub _]. set_solver.
Qed.

Lemma known_at_no_empty known_clauses n known_n :
  ∅ ∉ known_clauses → known_at n known_clauses = Some known_n → ∅ ∉ known_n.
Proof.
  intros H0. revert known_n. induction n as [|n IH]; intros known_n Hn.
  - injection Hn as <-. assumption.
  - destruct (known_at_earlier _ _ _ Hn) as [known_p Hp].
    destruct (known_at_step _ _ _ _ Hp Hn) as [_ Hne]. apply Hne, IH, Hp.
Qed.

(** The loop returns the verdict of the first pass that has one. *)
Lemma saturate_Some fuel known_clauses sat :
  saturate fuel known_clauses = Some sat ↔
  ∃ n known_n, (n < fuel)%nat ∧ known_at n known_clauses = Some known_n ∧
               iteration known_n = Verdict sat.
Proof.
  revert known_clauses. induction fuel as [|fuel IH]; intros known_clauses.
  - split; [discriminate | intros (n & k & Hn & _); lia].
  - simpl. destruct (iteration known_clauses) as [b | k] eqn:Hit.
    + split.
      * intros [= ->]. exists 0%nat, known_clauses. split; [lia|]. now split.
      * intros (n & known_n & Hn & Hat & Hv). destruct n as [|n].
        -- injection Hat as <-. congruence.
        -- simpl in Hat. rewrite Hit in Hat. discriminate.
    + rewrite IH. split.
      * intros (n & known_n & Hn & Hat & Hv). exists (S n), known_n.
        split; [lia|]. simpl. rewrite Hit. now split.
      * intros (n & known_n & Hn & Hat & Hv). destruct n as [|n].
        -- injection Hat as <-. congruence.
        -- simpl in Hat. rewrite Hit in Hat. exists n, known_n.
           split; [lia|]. now split.
Qed.

Lemma iteration_true known_clauses :
  iteration known_clauses = Verdict true ↔
  (∅ ∉ pair_resolvents (elements known_clauses)) ∧
  (∀ r, r ∈ pair_resolvents (elements known_clauses) → r ∈ known_clauses).
Proof.
  pose proof (iteration_spec known_clauses) as H.
  destruct (iteration known_clauses) as [[] | k].
  - tauto.
  - split; [discriminate | tauto].
  - split; [discriminate | tauto].
Qed.

Lemma initial_clauses_empty clauses_set :
  ∅ ∈ initial_clauses clauses_set ↔ [] ∈ clauses_set.
Proof.
  unfold initial_clauses. rewrite elem_of_list_to_set, list_elem_of_fmap.
  split.
  - intros [clause [E Hin]]. destruct clause as [|l ls]; [assumption|].
    exfalso. assert (l ∈ (∅ : gset Z)) as H; [|set_solver].
    rewrite E. set_solver.
  - intros H. exists []. split; [reflexivity | assumption].
Qed.

(** The input [[[], [1], [-1]]]: the only resolvent of the first pass is
    the empty clause, which is known already, and the loop returns UNSAT. *)
Lemma known_fixpoint_returns_unsat :
  (∀ r, r ∈ pair_resolvents (elements (initial_clauses [[]; [1]; [-1]])) →
        r ∈ initial_clauses [[]; [1]; [-1]]) ∧
  resolution 1 [[]; [1]; [-1]] = Some false.
Proof.
  split; [|vm_compute; reflexivity].
  assert (pair_resolvents (elements (initial_clauses [[]; [1]; [-1]])) = [∅]) as ->
    by (vm_compute; reflexivity).
  intros r Hr. apply list_elem_of_singleton in Hr. subst r.
  apply initial_clauses_empty. set_solver.
Qed.

(** C6, amended (monotone saturation): the known set of [resolution] only
    grows, a clause known at the start of one pass is known at the start of
    every later pass; and on an input without the empty clause the loop
    returns SAT exactly when it reaches a pass in which no pair of known
    clauses has a resolvent outside the known set. *)
Theorem saturation_monotone_fixpoint clauses_set :
  (∀ i j known_i known_j, (i ≤ j)%nat →
     known_at i (initial_clauses clauses_set) = Some known_i →
     known_at j (initial_clauses clauses_set) = Some known_j →
     known_i ⊆ known_j) ∧
  ([] ∉ clauses_set → ∀ fuel,
     resolution fuel clauses_set = Some true ↔
     ∃ n known_n, (n < fuel)%nat ∧
       known_at n (initial_clauses clauses_set) = Some known_n ∧
       ∀ r, r ∈ pair_resolvents (elements known_n) → r ∈ known_n).
Proof.
  split.
  - intros i j known_i known_j. apply known_at_mono.
  - intros Hne fuel. unfold resolution. rewrite saturate_Some.
    assert (∅ ∉ initial_clauses clauses_set) as H0
      by (now rewrite initial_clauses_empty).
    split; intros (n & known_n & Hn & Hat & H); exists n, known_n;
      (split; [assumption|]); (split; [assumption|]).
    + now apply iteration_true in H.
    + apply iteration_true. split; [|assumption].
      intros Hin. apply (known_at_no_empty _ _ _ H0 Hat). now apply H.
Qed.

Example saturation_monotone_fixpoint_scenario4 :
  resolution 2 [[1; 2]; [-1; 2]; [1; -2]] = Some true ∧
  known_at 1 (initial_clauses [[1; 2]; [-1; 2]; [1; -2]])
  = Some (initial_clauses [[1; 2]; [-1; 2]; [1; -2]; [1]; [2]]).
Proof.
  split; [vm_compute; reflexivity|].
  apply (bool_decide_unpack _). vm_compute. exact I.
Qed.

(** ** Tautologies and the empty clause in the input *)

(** Every input clause is in the initial known set, as a set: none is
    left out. *)
Lemma initial_clauses_all clauses_set clause :
  clause ∈ clauses_set → list_to_set clause ∈ initial_clauses clauses_set.
Proof.
  intros H. unfold initial_clauses. apply elem_of_list_to_set.
  apply list_elem_of_fmap. exists clause. split; [reflexivity | assumption].
Qed.

Lemma saturate_S fuel known_clauses :
  saturate (S fuel) known_clauses =
  match iteration known_clauses with
  | Verdict sat => Some sat
  | Continue known_clauses => saturate fuel known_clauses
  end.
Proof. reflexivity. Qed.

Lemma resolution_first_pass fuel clauses_set sat :
  iteration (initial_clauses clauses_set) = Verdict sat →
  resolution (S fuel) clauses_set = Some sat.
Proof. intros H. unfold resolution. now rewrite saturate_S, H. Qed.

(** C3 (code at the failing input [[[1, -1], [1]]]): the tautology
    [{1, -1}] is in the initial known set; resolved with [{1}] it gives the
    empty clause, and [resolution] returns UNSAT, although the assignment
    that makes 1 true satisfies both clauses. *)
Theorem resolution_unsound_on_tautology :
  ({[1; -1]} : gset Z) ∈ initial_clauses [[1; -1]; [1]] ∧
  resolve_clauses {[1; -1]} {[1]} = Some ∅ ∧
  resolve_clauses {[1]} {[1; -1]} = Some ∅ ∧
  (∀ fuel, resolution (S fuel) [[1; -1]; [1]] = Some false) ∧
  (∀ clause, clause ∈ [[1; -1]; [1]] → ∃ literal, literal ∈ clause ∧ literal ∈ [1]).
Proof.
  split; [|split; [|split; [|split]]].
  - replace ({[1; -1]} : gset Z) with (list_to_set [1; -1] : gset Z) by set_solver.
    apply initial_clauses_all. set_solver.
  - vm_compute. reflexivity.
  - vm_compute. reflexivity.
  - intros fuel. apply resolution_first_pass. vm_compute. reflexivity.
  - intros clause Hc. exists 1.
    apply elem_of_cons in Hc. destruct Hc as [-> | Hc].
    + split; apply list_elem_of_here.
    + apply list_elem_of_singleton in Hc. subst clause.
      split; apply list_elem_of_here.
Qed.

(** ** Resolvents *)

(** The clause holds a literal and its negation. *)
Definition tautology (clause : gset Z) : Prop :=
  ∃ l, l ∈ clause ∧ - l ∈ clause.

(** The valuation [v] makes a literal of [clause] true. *)
Definition set_true (v : Z → bool) (clause : gset Z) : Prop :=
  ∃ l, l ∈ clause ∧ lit_true v l = true.

Definition all_true (v : Z → bool) (known_clauses : gset (gset Z)) : Prop :=
  ∀ clause, clause ∈ known_clauses → set_true v clause.

Lemma not_tautology_zero clause : ¬ tautology clause → 0 ∉ clause.
Proof. intros H H0. apply H. exists 0. split; assumption. Qed.

(** A resolvent is the union of the two clauses without a literal of the
    first whose negation is in the second, and it is no tautology. *)
Lemma resolve_clauses_Some clause1 clause2 resolvent :
  resolve_clauses clause1 clause2 = Some resolvent →
  ∃ l, l ∈ clause1 ∧ - l ∈ clause2 ∧
       resolvent = (clause1 ∪ clause2) ∖ {[l; - l]} ∧ ¬ tautology resolvent.
Proof.
  unfold resolve_clauses. intros H.
  destruct (List.find _ (elements clause1)) as [l|] eqn:Hfind; [|discriminate].
  apply find_some in Hfind. destruct Hfind as [Hl Hneg].
  apply list_elem_of_In, elem_of_elements in Hl.
  apply bool_decide_eq_true in Hneg.
  destruct (existsb _ _) eqn:Htaut; [discriminate|].
  injection H as <-. exists l. split; [assumption|]. split; [assumption|].
  split; [reflexivity|].
  intros [x [Hx Hnx]].
  assert (existsb
            (λ lit, bool_decide (- lit ∈ (clause1 ∪ clause2) ∖ {[l; - l]}))
            (elements ((clause1 ∪ clause2) ∖ {[l; - l]})) = true) as E;
    [|congruence].
  apply existsb_exists. exists x. split.
  - now apply list_elem_of_In, elem_of_elements.
  - now apply bool_decide_eq_true.
Qed.

(** [resolve_clauses] is [None] only for two clauses that do not clash,
    or whose resolvent is a tautology. *)
Lemma resolve_clauses_None clause1 clause2 l :
  resolve_clauses clause1 clause2 = None → l ∈ clause1 → - l ∈ clause2 →
  ∃ l', l' ∈ clause1 ∧ - l' ∈ clause2 ∧
        tautology ((clause1 ∪ clause2) ∖ {[l'; - l']}).
Proof.
  unfold resolve_clauses. intros H Hl Hneg.
  destruct (List.find _ (elements clause1)) as [l'|] eqn:Hfind.
  - apply find_some in Hfind. destruct Hfind as [Hl' Hneg'].
    apply list_elem_of_In, elem_of_elements in Hl'.
    apply bool_decide_eq_true in Hneg'.
    destruct (existsb _ _) eqn:Htaut; [|discriminate].
    apply existsb_exists in Htaut. destruct Htaut as [x [Hx Hnx]].
    apply list_elem_of_In, elem_of_elements in Hx.
    apply bool_decide_eq_true in Hnx.
    exists l'. split; [assumption|]. split; [assumption|]. exists x. tauto.
  - exfalso.
    assert (bool_decide (- l ∈ clause2) = false) as E.
    { apply (find_none _ _ Hfind l). now apply list_elem_of_In, elem_of_elements. }
    apply bool_decide_eq_false in E. contradiction.
Qed.

(** Two clauses that are no tautologies and clash on [l]: their resolvent,
    when there is one, is the resolvent on [l]; when there is none, they
    clash on another literal too. *)
Lemma resolve_clash clause1 clause2 l :
  ¬ tautology clause1 → ¬ tautology clause2 →
  l ∈ clause1 → - l ∈ clause2 →
  match resolve_clauses clause1 clause2 with
  | Some resolvent => resolvent = (clause1 ∪ clause2) ∖ {[l; - l]}
  | None => ∃ l', l' ∈ clause1 ∧ - l' ∈ clause2 ∧ l' ≠ l
  end.
Proof.
  intros Hn1 Hn2 Hl Hneg.
  assert (∀ x, x ∈ clause1 → - x ∉ clause1) as Hc1
    by (intros x Hx Hnx; apply Hn1; exists x; tauto).
  assert (∀ x, x ∈ clause2 → - x ∉ clause2) as Hc2
    by (intros x Hx Hnx; apply Hn2; exists x; tauto).
  destruct (resolve_clauses clause1 clause2) as [r|] eqn:Hr.
  - apply resolve_clauses_Some in Hr.
    destruct Hr as (l' & Hl' & Hneg' & -> & Hnt).
    destruct (decide (l' = l)) as [-> | Hne]; [reflexivity|].
    exfalso. apply Hnt. exists l.
    assert (- l ≠ - l') by lia.
    assert (l ≠ - l') by (intros ->; apply (Hc1 _ Hl'); assumption).
    assert (- l ≠ l').
    { intros E. apply (Hc2 _ Hneg'). rewrite <- E, Z.opp_involutive.
      rewrite <- E in Hl'. clear -Hneg. assumption. }
    set_solver.
  - destruct (resolve_clauses_None _ _ _ Hr Hl Hneg)
      as (l' & Hl' & Hneg' & x & Hx & Hnx).
    destruct (decide (l' = l)) as [-> | Hne]; [|exists l'; tauto].
    apply elem_of_difference in Hx, Hnx.
    destruct Hx as [Hx Hx'], Hnx as [Hnx Hnx'].
    apply elem_of_union in Hx, Hnx.
    assert (x ≠ l ∧ x ≠ - l ∧ - x ≠ l ∧ - x ≠ - l) as (N1 & N2 & N3 & N4)
      by set_solver.
    destruct Hx as [Hx | Hx], Hnx as [Hnx | Hnx].
    + exfalso. apply (Hc1 _ Hx Hnx).
    + exists x. tauto.
    + exists (- x). rewrite Z.opp_involutive. tauto.
    + exfalso. apply (Hc2 _ Hx Hnx).
Qed.

(** A resolvent of two clauses that are no tautologies is true under
    every valuation that makes both true. *)
Lemma resolve_clauses_sound clause1 clause2 resolvent v :
  ¬ tautology clause1 → ¬ tautology clause2 →
  resolve_clauses clause1 clause2 = Some resolvent →
  set_true v clause1 → set_true v clause2 → set_true v resolvent.
Proof.
  intros Hn1 Hn2 Hr (l1 & Hl1 & Ht1) (l2 & Hl2 & Ht2).
  apply resolve_clauses_Some in Hr. destruct Hr as (l & Hl & Hneg & -> & _).
  assert (l ≠ 0) as Hl0
    by (intros ->; now apply (not_tautology_zero _ Hn1)).
  assert (l1 ≠ - l) as N1
    by (intros ->; apply Hn1; exists l; tauto).
  assert (l2 ≠ l) as N2
    by (intros ->; apply Hn2; exists l; tauto).
  destruct (decide (l1 = l)) as [-> | N3].
  - exists l2. split; [|assumption].
    assert (l2 ≠ - l); [|set_solver].
    intros ->. rewrite lit_true_opp, Ht1 in Ht2 by assumption. discriminate.
  - exists l1. split; [set_solver | assumption].
Qed.

(** ** What the passes keep *)

Definition tautology_free (known_clauses : gset (gset Z)) : Prop :=
  ∀ clause, clause ∈ known_clauses → ¬ tautology clause.

(** Every clause of [known_clauses] is made of literals of [literals]. *)
Definition over (literals : gset Z) (known_clauses : gset (gset Z)) : Prop :=
  ∀ clause, clause ∈ known_clauses → clause ⊆ literals.

Lemma pair_resolvents_In clause_list r :
  r ∈ pair_resolvents clause_list →
  ∃ a b, a ∈ clause_list ∧ b ∈ clause_list ∧ resolve_clauses a b = Some r.
Proof.
  induction clause_list as [|clause_i later IH]; simpl; intros H.
  - now apply elem_of_nil in H.
  - apply elem_of_app in H. destruct H as [H | H].
    + apply list_elem_of_omap in H. destruct H as (b & Hb & Hr).
      exists clause_i, b. split; [apply list_elem_of_here|].
      split; [now apply list_elem_of_further | assumption].
    + destruct (IH H) as (a & b & Ha & Hb & Hr). exists a, b.
      split; [now apply list_elem_of_further|].
      split; [now apply list_elem_of_further | assumption].
Qed.

(** Of two different clauses of the list, one comes first, and the pass
    resolves it with the other. *)
Lemma pair_resolvents_either clause_list a b :
  a ∈ clause_list → b ∈ clause_list → a ≠ b →
  (∀ r, resolve_clauses a b = Some r → r ∈ pair_resolvents clause_list) ∨
  (∀ r, resolve_clauses b a = Some r → r ∈ pair_resolvents clause_list).
Proof.
  induction clause_list as [|clause_i later IH]; intros Ha Hb Hne.
  - now apply elem_of_nil in Ha.
  - apply elem_of_cons in Ha, Hb. simpl.
    destruct Ha as [-> | Ha], Hb as [-> | Hb].
    + contradiction.
    + left. intros r Hr. apply elem_of_app. left.
      apply list_elem_of_omap. exists b. tauto.
    + right. intros r Hr. apply elem_of_app. left.
      apply list_elem_of_omap. exists a. tauto.
    + destruct (IH Ha Hb Hne) as [H | H]; [left | right];
        intros r Hr; apply elem_of_app; right; now apply H.
Qed.

Lemma pair_resolvents_known (known_clauses : gset (gset Z)) r :
  r ∈ pair_resolvents (elements known_clauses) →
  ∃ a b, a ∈ known_clauses ∧ b ∈ known_clauses ∧ resolve_clauses a b = Some r.
Proof.
  intros H. destruct (pair_resolvents_In _ _ H) as (a & b & Ha & Hb & Hr).
  apply elem_of_elements in Ha, Hb. exists a, b. tauto.
Qed.

(** A pass that goes on keeps the known set free of tautologies, within
    the literals of the input, and true under the valuations that make it
    true. *)
Lemma iteration_keeps known_clauses known_clauses' :
  iteration known_clauses = Continue known_clauses' →
  tautology_free known_clauses →
  tautology_free known_clauses' ∧
  (∀ literals, over literals known_clauses → over literals known_clauses') ∧
  (∀ v, all_true v known_clauses → all_true v known_clauses').
Proof.
  intros H Hnt. pose proof (iteration_spec known_clauses) as Hs.
  rewrite H in Hs. destruct Hs as (_ & -> & _).
  assert (∀ c, c ∈ known_clauses ∪ list_to_set
                      (pair_resolvents (elements known_clauses)) →
            c ∈ known_clauses ∨
            ∃ a b, a ∈ known_clauses ∧ b ∈ known_clauses ∧
                   resolve_clauses a b = Some c) as Hcases.
  { intros c Hc. apply elem_of_union in Hc. destruct Hc as [Hc | Hc];
      [now left | right].
    apply elem_of_list_to_set in Hc. now apply pair_resolvents_known. }
  split; [|split].
  - intros c Hc. destruct (Hcases c Hc) as [Hk | (a & b & Ha & Hb & Hr)].
    + now apply Hnt.
    + apply resolve_clauses_Some in Hr. destruct Hr as (l & _ & _ & _ & Hr).
      exact Hr.
  - intros literals Hover c Hc.
    destruct (Hcases c Hc) as [Hk | (a & b & Ha & Hb & Hr)].
    + now apply Hover.
    + apply resolve_clauses_Some in Hr. destruct Hr as (l & _ & _ & -> & _).
      pose proof (Hover _ Ha). pose proof (Hover _ Hb). set_solver.
  - intros v Hv c Hc.
    destruct (Hcases c Hc) as [Hk | (a & b & Ha & Hb & Hr)].
    + now apply Hv.
    + apply (resolve_clauses_sound a b c v); auto.
Qed.

(** A pass returns UNSAT only on a known set that no valuation makes
    true. *)
Lemma iteration_false known_clauses v :
  iteration known_clauses = Verdict false →
  tautology_free known_clauses → ¬ all_true v known_clauses.
Proof.
  intros H Hnt Hv. pose proof (iteration_spec known_clauses) as Hs.
  rewrite H in Hs. apply pair_resolvents_known in Hs.
  destruct Hs as (a & b & Ha & Hb & Hr).
  destruct (resolve_clauses_sound a b ∅ v) as (l & Hl & _); auto.
  now apply elem_of_empty in Hl.
Qed.

Lemma known_at_keeps known_clauses n known_n :
  known_at n known_clauses = Some known_n →
  tautology_free known_clauses →
  tautology_free known_n ∧
  (∀ literals, over literals known_clauses → over literals known_n) ∧
  (∀ v, all_true v known_clauses → all_true v known_n).
Proof.
  intros Hn Hnt. revert known_n Hn.
  induction n as [|n IH]; intros known_n Hn.
  - injection Hn as <-. auto.
  - rewrite known_at_S in Hn.
    destruct (known_at n known_clauses) as [known_p|]; [|discriminate].
    destruct (IH _ eq_refl) as (H1 & H2 & H3).
    destruct (iteration known_p) as [b | k] eqn:Hit; [discriminate|].
    injection Hn as <-.
    destruct (iteration_keeps _ _ Hit H1) as (K1 & K2 & K3).
    split; [assumption|]. split; [auto | auto].
Qed.

(** ** A saturated set without the empty clause has a valuation *)

(** Of two different known clauses, the resolvent that a pass computes
    for them is known. *)
Definition closed (known_clauses : gset (gset Z)) : Prop :=
  ∀ a b, a ∈ known_clauses → b ∈ known_clauses → a ≠ b →
    (∀ r, resolve_clauses a b = Some r → r ∈ known_clauses) ∨
    (∀ r, resolve_clauses b a = Some r → r ∈ known_clauses).

Lemma fixpoint_closed (known_clauses : gset (gset Z)) :
  (∀ r, r ∈ pair_resolvents (elements known_clauses) → r ∈ known_clauses) →
  closed known_clauses.
Proof.
  intros Hfix a b Ha Hb Hne.
  destruct (pair_resolvents_either (elements known_clauses) a b) as [H | H];
    [now apply elem_of_elements | now apply elem_of_elements | assumption | |];
    [left | right]; intros r Hr; apply Hfix, H, Hr.
Qed.

(** [clause] has a literal other than [x] that [v] makes true. *)
Definition true_besides (v : Z → bool) (x : Z) (clause : gset Z) : bool :=
  existsb (λ l, lit_true v l && negb (l =? x)) (elements clause).

Lemma set_true_besides_iff v x (clause : gset Z) :
  true_besides v x clause = true ↔
  ∃ l, l ∈ clause ∧ lit_true v l = true ∧ l ≠ x.
Proof.
  unfold true_besides. rewrite existsb_exists. split.
  - intros (l & Hl & H). apply andb_prop in H. destruct H as [H1 H2].
    apply negb_true_iff, Z.eqb_neq in H2.
    apply list_elem_of_In, elem_of_elements in Hl. exists l. tauto.
  - intros (l & Hl & H1 & H2). exists l. split.
    + now apply list_elem_of_In, elem_of_elements.
    + rewrite H1. now apply negb_true_iff, Z.eqb_neq.
Qed.

(** Some known clause with [x] has no other literal true under [v]: the
    variable [x] has to be true. *)
Definition forced (v : Z → bool) (x : Z) (known_clauses : gset (gset Z)) : bool :=
  existsb (λ c, bool_decide (x ∈ c) && negb (true_besides v x c))
    (elements known_clauses).

Lemma forced_true v x (known_clauses : gset (gset Z)) :
  forced v x known_clauses = true →
  ∃ c, c ∈ known_clauses ∧ x ∈ c ∧
       ∀ l, l ∈ c → l ≠ x → lit_true v l = false.
Proof.
  unfold forced. intros H. apply existsb_exists in H.
  destruct H as (c & Hc & H). apply andb_prop in H. destruct H as [H1 H2].
  apply bool_decide_eq_true in H1. apply negb_true_iff in H2.
  apply list_elem_of_In, elem_of_elements in Hc.
  exists c. split; [assumption|]. split; [assumption|].
  intros l Hl Hne. destruct (lit_true v l) eqn:E; [|reflexivity].
  assert (true_besides v x c = true); [|congruence].
  apply set_true_besides_iff. exists l. tauto.
Qed.

Lemma forced_false v x (known_clauses : gset (gset Z)) c :
  forced v x known_clauses = false → c ∈ known_clauses → x ∈ c →
  ∃ l, l ∈ c ∧ lit_true v l = true ∧ l ≠ x.
Proof.
  intros H Hc Hx. apply set_true_besides_iff.
  destruct (true_besides v x c) eqn:E; [reflexivity|]. exfalso.
  assert (forced v x known_clauses = true); [|congruence].
  apply existsb_exists. exists c. split.
  - now apply list_elem_of_In, elem_of_elements.
  - rewrite E. apply andb_true_intro. split; [now apply bool_decide_eq_true|].
    reflexivity.
Qed.

(** The known clauses without the variable [x]. *)
Definition without (x : Z) (known_clauses : gset (gset Z)) : gset (gset Z) :=
  filter (λ c, (x ∉ c) ∧ (- x ∉ c)) known_clauses.

(** A valuation of the clauses without [x] extends to all the clauses of
    a closed set. *)
Lemma extend_valuation known_clauses x v :
  0 < x → tautology_free known_clauses → closed known_clauses →
  all_true v (without x known_clauses) →
  all_true (set_variable v x (forced v x known_clauses)) known_clauses.
Proof.
  intros Hx Hnt Hclosed Hv c Hc.
  set (b := forced v x known_clauses).
  assert (∀ l, l ∈ c → lit_true v l = true → l ≠ x → l ≠ - x →
            set_true (set_variable v x b) c) as Hother.
  { intros l Hl Ht H1 H2. exists l. split; [assumption|].
    now rewrite set_variable_other. }
  assert (∀ r, r ∈ known_clauses → x ∉ r → - x ∉ r → set_true v r) as Hwithout.
  { intros r Hr H1 H2. apply Hv. apply elem_of_filter. tauto. }
  pose proof (Hnt _ Hc) as Hntc.
  destruct (decide (x ∈ c)) as [Hpos | Hpos].
  - destruct b eqn:Hb.
    + exists x. split; [assumption | now apply set_variable_pos].
    + destruct (forced_false _ _ _ _ Hb Hc Hpos) as (l & Hl & Ht & Hne).
      apply (Hother l Hl Ht Hne). intros ->. apply Hntc. exists x. tauto.
  - destruct (decide (- x ∈ c)) as [Hneg | Hneg].
    2:{ destruct (Hwithout c Hc Hpos Hneg) as (l & Hl & Ht).
        apply (Hother l Hl Ht); intros ->; contradiction. }
    destruct b eqn:Hb.
    2:{ exists (- x). split; [assumption | now rewrite set_variable_neg]. }
    destruct (forced_true _ _ _ Hb) as (c1 & Hc1 & Hx1 & Hfalse).
    pose proof (Hnt _ Hc1) as Hnt1.
    assert (∃ l, l ∈ c ∧ lit_true v l = true ∧ l ≠ - x) as (l & Hl & Ht & Hne).
    { assert (c1 ≠ c) as Hdiff by (intros ->; contradiction).
      assert (set_true v ((c1 ∪ c) ∖ {[x; - x]}) →
              ∃ l, l ∈ c ∧ lit_true v l = true ∧ l ≠ - x) as Hres.
      { intros (l & Hl & Ht). exists l.
        assert (l ∈ c); [|set_solver].
        apply elem_of_difference in Hl. destruct Hl as [Hl Hl'].
        apply elem_of_union in Hl. destruct Hl as [Hl | Hl]; [|assumption].
        rewrite (Hfalse l Hl) in Ht; [discriminate | set_solver]. }
      destruct (Hclosed c1 c Hc1 Hc Hdiff) as [Hin | Hin].
      - pose proof (resolve_clash c1 c x Hnt1 Hntc Hx1 Hneg) as Hclash.
        destruct (resolve_clauses c1 c) as [r|].
        + apply Hres. rewrite <- Hclash.
          apply Hwithout; [now apply Hin | |]; rewrite Hclash; set_unfold; tauto.
        + destruct Hclash as (l' & Hl' & Hnl' & Hne').
          exists (- l'). split; [assumption|]. split; [|lia].
          rewrite lit_true_opp, (Hfalse l' Hl' Hne'); [reflexivity|].
          intros ->. now apply (not_tautology_zero _ Hnt1).
      - assert (- - x ∈ c1) as Hx1' by now rewrite Z.opp_involutive.
        pose proof (resolve_clash c c1 (- x) Hntc Hnt1 Hneg Hx1') as Hclash.
        destruct (resolve_clauses c c1) as [r|].
        + rewrite Z.opp_involutive in Hclash.
          assert (r = (c1 ∪ c) ∖ {[x; - x]}) as Er.
          { subst r. apply leibniz_equiv. set_unfold. tauto. }
          apply Hres. rewrite <- Er.
          apply Hwithout; [now apply Hin | |]; rewrite Er; set_unfold; tauto.
        + destruct Hclash as (l' & Hl' & Hnl' & Hne').
          exists l'. split; [assumption|]. split; [|assumption].
          assert (- l' ≠ 0) as Hz
            by (intros E; rewrite E in Hnl'; now apply (not_tautology_zero _ Hnt1)).
          replace l' with (- - l') by lia.
          rewrite lit_true_opp, (Hfalse (- l') Hnl'); [reflexivity | lia | assumption]. }
    apply (Hother l Hl Ht); [|assumption]. intros ->. contradiction.
Qed.

Lemma without_keeps known_clauses x :
  tautology_free known_clauses → closed known_clauses →
  tautology_free (without x known_clauses) ∧ closed (without x known_clauses).
Proof.
  intros Hnt Hclosed. split.
  - intros c Hc. apply elem_of_filter in Hc. now apply Hnt.
  - intros a b Ha Hb Hne.
    apply elem_of_filter in Ha, Hb. destruct Ha as [Pa Ha], Hb as [Pb Hb].
    assert (∀ c1 c2 r, (c1 = a ∧ c2 = b) ∨ (c1 = b ∧ c2 = a) →
              resolve_clauses c1 c2 = Some r → r ∈ known_clauses →
              r ∈ without x known_clauses) as Hin.
    { intros c1 c2 r Hcs Hr Hk. apply elem_of_filter. split; [|assumption].
      apply resolve_clauses_Some in Hr. destruct Hr as (l & _ & _ & -> & _).
      destruct Hcs as [[-> ->] | [-> ->]]; set_unfold; tauto. }
    destruct (Hclosed a b Ha Hb Hne) as [H | H]; [left | right]; intros r Hr.
    + apply (Hin a b r); auto.
    + apply (Hin b a r); auto.
Qed.

(** Saturation is complete: a closed set of clauses without tautologies
    and without the empty clause has a valuation. *)
Lemma closed_true variables :
  ∀ known_clauses : gset (gset Z),
    Forall (λ x, 0 < x) variables →
    tautology_free known_clauses → ∅ ∉ known_clauses → closed known_clauses →
    (∀ c l, c ∈ known_clauses → l ∈ c → Z.abs l ∈ variables) →
    ∃ v, all_true v known_clauses.
Proof.
  induction variables as [|x variables IH];
    intros known_clauses Hpos Hnt Hne Hclosed Hvars.
  - exists (λ _, true). intros c Hc. exfalso.
    destruct (decide (c = ∅)) as [-> | Hc0]; [contradiction|].
    apply set_choose_L in Hc0. destruct Hc0 as [l Hl].
    specialize (Hvars c l Hc Hl). now apply elem_of_nil in Hvars.
  - inversion Hpos as [|? ? Hx Hpos']; subst.
    destruct (without_keeps known_clauses x Hnt Hclosed) as [Hnt' Hclosed'].
    destruct (IH (without x known_clauses)) as [v Hv]; try assumption.
    + intros H. apply elem_of_filter in H. tauto.
    + intros c l Hc Hl. apply elem_of_filter in Hc. destruct Hc as [[P1 P2] Hc].
      specialize (Hvars c l Hc Hl). apply elem_of_cons in Hvars.
      destruct Hvars as [E | H]; [|assumption]. exfalso.
      assert (l = x ∨ l = - x) as [-> | ->] by lia; contradiction.
    + exists (set_variable v x (forced v x known_clauses)).
      apply extend_valuation; assumption.
Qed.

(** ** Termination *)

(** Every set of literals drawn from a list. *)
Fixpoint subsets (literals : list Z) : gset (gset Z) :=
  match literals with
  | [] => {[ ∅ ]}
  | l :: literals =>
      subsets literals ∪ set_map (λ c : gset Z, {[ l ]} ∪ c) (subsets literals)
  end.

Lemma subsets_In literals (c : gset Z) :
  c ⊆ list_to_set literals → c ∈ subsets literals.
Proof.
  revert c. induction literals as [|l literals IH]; intros c Hc; simpl in *.
  - apply elem_of_singleton. apply leibniz_equiv. set_unfold. intros x.
    specialize (Hc x). tauto.
  - apply elem_of_union. destruct (decide (l ∈ c)) as [Hl | Hl].
    + right. apply elem_of_map. exists (c ∖ {[ l ]}). split.
      * apply leibniz_equiv. set_unfold. intros x.
        destruct (decide (x = l)) as [-> | Hne]; tauto.
      * apply IH. set_unfold. intros x [Hx Hne].
        destruct (Hc x Hx); [contradiction | assumption].
    + left. apply IH. set_unfold. intros x Hx.
      destruct (Hc x Hx) as [-> | H]; [contradiction | assumption].
Qed.

Lemma iteration_over known_clauses known_clauses' literals :
  iteration known_clauses = Continue known_clauses' →
  over literals known_clauses → over literals known_clauses'.
Proof.
  intros H Hover c Hc. pose proof (iteration_spec known_clauses) as Hs.
  rewrite H in Hs. destruct Hs as (_ & -> & _).
  apply elem_of_union in Hc. destruct Hc as [Hc | Hc]; [now apply Hover|].
  apply elem_of_list_to_set, pair_resolvents_known in Hc.
  destruct Hc as (a & b & Ha & Hb & Hr).
  apply resolve_clauses_Some in Hr. destruct Hr as (l & _ & _ & -> & _).
  pose proof (Hover _ Ha). pose proof (Hover _ Hb).
  set_unfold. intros x [[Hx | Hx] _]; auto.
Qed.

(** A pass that goes on has added a clause. *)
Lemma iteration_strict known_clauses known_clauses' :
  iteration known_clauses = Continue known_clauses' →
  known_clauses ⊂ known_clauses'.
Proof.
  intros H. pose proof (iteration_spec known_clauses) as Hs.
  rewrite H in Hs. destruct Hs as (_ & -> & Hnew).
  split; [apply union_subseteq_l|].
  intros Hsub. apply Hnew. intros r Hr. apply Hsub.
  apply elem_of_union. right. now apply elem_of_list_to_set.
Qed.

Lemma saturate_terminates_within (universe : gset (gset Z)) literals :
  (∀ known_clauses, over literals known_clauses → known_clauses ⊆ universe) →
  ∀ n known_clauses,
    over literals known_clauses →
    (size universe - size known_clauses ≤ n)%nat →
    ∃ sat, saturate (S n) known_clauses = Some sat.
Proof.
  intros Huniv. induction n as [|n IH]; intros known_clauses Hover Hsize;
    rewrite saturate_S;
    destruct (iteration known_clauses) as [sat | known_clauses'] eqn:Hit;
    try (exists sat; reflexivity).
  - exfalso. pose proof (iteration_strict _ _ Hit) as Hstrict.
    apply subset_size in Hstrict.
    pose proof (subseteq_size _ _ (Huniv _ (iteration_over _ _ _ Hit Hover))).
    lia.
  - apply IH; [now apply (iteration_over _ _ _ Hit)|].
    pose proof (iteration_strict _ _ Hit) as Hstrict.
    apply subset_size in Hstrict.
    pose proof (subseteq_size _ _ (Huniv _ (iteration_over _ _ _ Hit Hover))).
    lia.
Qed.

Lemma saturate_more fuel fuel' known_clauses sat :
  saturate fuel known_clauses = Some sat → (fuel ≤ fuel')%nat →
  saturate fuel' known_clauses = Some sat.
Proof.
  revert fuel' known_clauses. induction fuel as [|fuel IH];
    intros fuel' known_clauses H Hle; [discriminate|].
  destruct fuel' as [|fuel']; [lia|]. rewrite saturate_S in *.
  destruct (iteration known_clauses); [assumption|].
  apply IH; [assumption | lia].
Qed.

Lemma initial_clauses_over clauses_set :
  over (list_to_set (concat clauses_set)) (initial_clauses clauses_set).
Proof.
  intros c Hc. unfold initial_clauses in Hc.
  apply elem_of_list_to_set, list_elem_of_fmap in Hc.
  destruct Hc as (clause & -> & Hin).
  intros x Hx. apply elem_of_list_to_set in Hx. apply elem_of_list_to_set.
  apply list_elem_of_In, in_concat. exists clause.
  split; now apply list_elem_of_In.
Qed.

(** The fuel [resolution] is run with: one pass more than there are sets
    of literals of the input. *)
Definition resolution_fuel (clauses_set : list (list Z)) : nat :=
  S (size (subsets (concat clauses_set))).

Lemma resolution_returns clauses_set :
  ∃ sat, ∀ fuel, (resolution_fuel clauses_set ≤ fuel)%nat →
                 resolution fuel clauses_set = Some sat.
Proof.
  destruct (saturate_terminates_within
              (subsets (concat clauses_set)) (list_to_set (concat clauses_set)))
    with (n := size (subsets (concat clauses_set)))
         (known_clauses := initial_clauses clauses_set) as [sat Hsat].
  - intros known_clauses Hover c Hc. apply subsets_In. now apply Hover.
  - apply initial_clauses_over.
  - lia.
  - exists sat. intros fuel Hfuel. unfold resolution.
    now apply (saturate_more _ _ _ _ Hsat).
Qed.

(** [resolution] returns, on every input: the known set grows at every
    pass that goes on, inside the finite set of the sets of literals of
    the input, so the passes are fewer than these sets. *)
Theorem resolution_terminates clauses_set :
  ∃ sat, ∀ fuel, (resolution_fuel clauses_set ≤ fuel)%nat →
                 resolution fuel clauses_set = Some sat.
Proof. exact (resolution_returns clauses_set). Qed.

(** ** The verdict decides satisfiability *)

(** An input clause, as a list, that holds a literal and its negation. *)
Definition list_tautology (clause : list Z) : Prop :=
  ∃ l, l ∈ clause ∧ - l ∈ clause.

Lemma initial_clauses_In clauses_set (c : gset Z) :
  c ∈ initial_clauses clauses_set ↔
  ∃ clause, clause ∈ clauses_set ∧ c = list_to_set clause.
Proof.
  unfold initial_clauses. rewrite elem_of_list_to_set, list_elem_of_fmap.
  split; intros (clause & H1 & H2); exists clause; tauto.
Qed.

Lemma set_true_list v (clause : list Z) :
  set_true v (list_to_set clause) ↔ clause_true v clause = true.
Proof.
  rewrite clause_true_iff. unfold set_true. split.
  - intros (l & Hl & Ht). exists l. split; [|assumption].
    apply elem_of_list_to_set in Hl. now apply list_elem_of_In.
  - intros (l & Hl & Ht). exists l. split; [|assumption].
    apply list_elem_of_In in Hl. now apply elem_of_list_to_set.
Qed.

Lemma all_true_initial v clauses_set :
  all_true v (initial_clauses clauses_set) ↔
  ∀ clause, clause ∈ clauses_set → clause_true v clause = true.
Proof.
  split.
  - intros H clause Hc. apply set_true_list, H, initial_clauses_In. eauto.
  - intros H c Hc. apply initial_clauses_In in Hc.
    destruct Hc as (clause & Hc & ->). now apply set_true_list, H.
Qed.

Lemma initial_clauses_tautology_free clauses_set :
  (∀ clause, clause ∈ clauses_set → ¬ list_tautology clause) →
  tautology_free (initial_clauses clauses_set).
Proof.
  intros H c Hc (l & Hl & Hn). apply initial_clauses_In in Hc.
  destruct Hc as (clause & Hc & ->). apply (H _ Hc). exists l.
  apply elem_of_list_to_set in Hl, Hn. tauto.
Qed.

Lemma resolution_correct clauses_set :
  (∀ clause, clause ∈ clauses_set → ¬ list_tautology clause) →
  [] ∉ clauses_set →
  ∃ sat, resolution (resolution_fuel clauses_set) clauses_set = Some sat ∧
         (sat = true ↔
          ∃ v, ∀ clause, clause ∈ clauses_set → clause_true v clause = true).
Proof.
  intros Hnt Hne.
  destruct (resolution_returns clauses_set) as [sat Hsat].
  specialize (Hsat _ (le_n _)). exists sat. split; [assumption|].
  unfold resolution in Hsat. apply saturate_Some in Hsat.
  destruct Hsat as (n & known_n & _ & Hat & Hit).
  pose proof (initial_clauses_tautology_free _ Hnt) as Hnt0.
  destruct (known_at_keeps _ _ _ Hat Hnt0) as (Hntn & Hover & Htrue).
  assert (∅ ∉ initial_clauses clauses_set) as H0
    by now rewrite initial_clauses_empty.
  assert (initial_clauses clauses_set ⊆ known_n) as Hsub.
  { apply (known_at_mono (initial_clauses clauses_set) 0 n); [lia | reflexivity | assumption]. }
  setoid_rewrite <- all_true_initial.
  destruct sat.
  - split; [intros _ | reflexivity].
    apply iteration_true in Hit. destruct Hit as [_ Hfix].
    destruct (closed_true
                (Z.abs <$> concat clauses_set) known_n) as [v Hv].
    + apply Forall_forall. intros x Hx. apply list_elem_of_fmap in Hx.
      destruct Hx as (l & -> & Hl).
      assert (l ≠ 0); [|lia]. intros ->.
      apply list_elem_of_In, in_concat in Hl. destruct Hl as (clause & Hc & Hl).
      apply list_elem_of_In in Hc, Hl. apply (Hnt _ Hc). exists 0. tauto.
    + assumption.
    + now apply (known_at_no_empty (initial_clauses clauses_set) n).
    + now apply fixpoint_closed.
    + intros c l Hc Hl. apply list_elem_of_fmap. exists l. split; [reflexivity|].
      specialize (Hover _ (initial_clauses_over clauses_set) c Hc l Hl).
      now apply elem_of_list_to_set in Hover.
    + exists v. intros c Hc. apply Hv, Hsub, Hc.
  - split; [discriminate|]. intros [v Hv]. exfalso.
    apply (iteration_false known_n v Hit Hntn). now apply Htrue.
Qed.

(** Correctness of [resolution]: on a formula without tautologies and
    without the empty clause, [resolution] returns, and it returns SAT
    exactly when some valuation makes every clause true. *)
Theorem resolution_decides clauses_set :
  (∀ clause, clause ∈ clauses_set → ¬ list_tautology clause) →
  [] ∉ clauses_set →
  ∃ sat, resolution (resolution_fuel clauses_set) clauses_set = Some sat ∧
         (sat = true ↔
          ∃ v, ∀ clause, clause ∈ clauses_set → clause_true v clause = true).
Proof. exact (resolution_correct clauses_set). Qed.

(** The same, for a caller that speaks of lists with [In]. *)
Lemma resolution_decides_In clauses_set :
  (∀ clause l, In clause clauses_set → In l clause → ¬ In (- l) clause) →
  ¬ In [] clauses_set →
  ∃ sat, resolution (resolution_fuel clauses_set) clauses_set = Some sat ∧
         (sat = true ↔
          ∃ v, ∀ clause, In clause clauses_set → clause_true v clause = true).
Proof.
  intros Hnt Hne.
  destruct (resolution_correct clauses_set) as (sat & Hsat & Hiff).
  - intros clause Hc (l & Hl & Hn).
    apply list_elem_of_In in Hc, Hl, Hn. apply (Hnt _ _ Hc Hl Hn).
  - intros H. now apply list_elem_of_In in H.
  - exists sat. split; [assumption|]. rewrite Hiff.
    split; intros [v Hv]; exists v; intros clause Hc; apply Hv;
      now apply list_elem_of_In.
Qed.

Lemma resolution_decides_example :
  (∀ clause, clause ∈ [[1; 2]; [-1; 2]; [1; -2]] → ¬ list_tautology clause) ∧
  ([] ∉ [[1; 2]; [-1; 2]; [1; -2]]) ∧
  ∃ sat, resolution (resolution_fuel [[1; 2]; [-1; 2]; [1; -2]])
           [[1; 2]; [-1; 2]; [1; -2]] = Some sat ∧
         (sat = true ↔
          ∃ v, ∀ clause, clause ∈ [[1; 2]; [-1; 2]; [1; -2]] →
                         clause_true v clause = true).
Proof.
  assert (∀ clause, clause ∈ [[1; 2]; [-1; 2]; [1; -2]] → ¬ list_tautology clause)
    as Hnt.
  { intros clause Hc (l & Hl & Hn).
    apply list_elem_of_In in Hc, Hl, Hn.
    destruct Hc as [<- | [<- | [<- | []]]]; simpl in Hl, Hn; lia. }
  assert ([] ∉ [[1; 2]; [-1; 2]; [1; -2]]) as Hne.
  { intros H. apply list_elem_of_In in H.
    destruct H as [H | [H | [H | []]]]; discriminate. }
  split; [exact Hnt|]. split; [exact Hne|].
  exact (resolution_decides [[1; 2]; [-1; 2]; [1; -2]] Hnt Hne).
Defined.

(** ** Resolvents of two clauses that are no tautologies *)

(** The clauses [a] and [b] clash on [l], and on no other literal. *)
Definition only_clash (a b : gset Z) (l : Z) : Prop :=
  l ∈ a ∧ - l ∈ b ∧ ∀ l', l' ∈ a → - l' ∈ b → l' = l.

Lemma resolve_clauses_only_clash (a b r : gset Z) :
  ¬ tautology a → ¬ tautology b →
  resolve_clauses a b = Some r ↔
  ∃ l, only_clash a b l ∧ r = (a ∪ b) ∖ {[l; - l]}.
Proof.
  intros Ha Hb. split.
  - intros Hr. pose proof Hr as Hr'. apply resolve_clauses_Some in Hr'.
    destruct Hr' as (l & Hl & Hn & Er & _). exists l.
    split; [|assumption]. split; [assumption|]. split; [assumption|].
    intros l' Hl' Hn'.
    pose proof (resolve_clash a b l' Ha Hb Hl' Hn') as Hclash.
    rewrite Hr in Hclash.
    assert (l' ∉ r) as Hout by (rewrite Hclash; set_unfold; tauto).
    rewrite Er in Hout.
    assert (l' = l ∨ l' = - l) as [-> | ->]; [|reflexivity|].
    { destruct (decide (l' = l)); [now left|].
      destruct (decide (l' = - l)); [now right|].
      exfalso. apply Hout. set_unfold. tauto. }
    exfalso. apply Ha. exists l. tauto.
  - intros (l & (Hl & Hn & Honly) & ->).
    pose proof (resolve_clash a b l Ha Hb Hl Hn) as Hclash.
    destruct (resolve_clauses a b) as [r|]; [now subst|].
    destruct Hclash as (l' & Hl' & Hn' & Hne). now destruct (Hne (Honly _ Hl' Hn')).
Qed.

(** [resolve_clauses] on two clauses that are no tautologies: there is a
    resolvent exactly when the clauses clash on one literal and no other,
    and it is their union without that literal and its negation. *)
Theorem resolve_clauses_spec (a b r : gset Z) :
  ¬ tautology a → ¬ tautology b →
  resolve_clauses a b = Some r ↔
  ∃ l, (l ∈ a ∧ - l ∈ b ∧ ∀ l', l' ∈ a → - l' ∈ b → l' = l) ∧
       r = (a ∪ b) ∖ {[l; - l]}.
Proof. apply resolve_clauses_only_clash. Qed.

Lemma resolve_clauses_spec_example :
  ¬ tautology ({[1; 2]} : gset Z) ∧ ¬ tautology ({[-1; 3]} : gset Z) ∧
  (resolve_clauses {[1; 2]} {[-1; 3]} = Some {[2; 3]} ↔
   ∃ l, (l ∈ ({[1; 2]} : gset Z) ∧ - l ∈ ({[-1; 3]} : gset Z) ∧
         ∀ l', l' ∈ ({[1; 2]} : gset Z) → - l' ∈ ({[-1; 3]} : gset Z) → l' = l) ∧
        ({[2; 3]} : gset Z) = ({[1; 2]} ∪ {[-1; 3]}) ∖ {[l; - l]}).
Proof.
  assert (¬ tautology ({[1; 2]} : gset Z)) as Ha.
  { intros (l & Hl & Hn). set_unfold. lia. }
  assert (¬ tautology ({[-1; 3]} : gset Z)) as Hb.
  { intros (l & Hl & Hn). set_unfold. lia. }
  split; [exact Ha|]. split; [exact Hb|].
  exact (resolve_clauses_spec {[1; 2]} {[-1; 3]} {[2; 3]} Ha Hb).
Defined.

Lemma only_clash_sym (a b : gset Z) l :
  only_clash a b l → only_clash b a (- l).
Proof.
  intros (Hl & Hn & Honly). split; [assumption|].
  split; [now rewrite Z.opp_involutive|].
  intros l' Hl' Hn'. specialize (Honly (- l') Hn').
  rewrite Z.opp_involutive in Honly. specialize (Honly Hl'). lia.
Qed.

Lemma resolve_clauses_sym_Some (a b r : gset Z) :
  ¬ tautology a → ¬ tautology b →
  resolve_clauses a b = Some r → resolve_clauses b a = Some r.
Proof.
  intros Ha Hb Hr. apply (resolve_clauses_only_clash a b r Ha Hb) in Hr.
  destruct Hr as (l & Hclash & ->).
  apply (resolve_clauses_only_clash b a _ Hb Ha). exists (- l).
  split; [now apply only_clash_sym|].
  rewrite Z.opp_involutive. apply leibniz_equiv. set_unfold. tauto.
Qed.

(** The order of a pair does not matter: two clauses that are no
    tautologies have the same resolvent, or none, either way round. *)
Theorem resolve_clauses_symmetric (a b : gset Z) :
  ¬ tautology a → ¬ tautology b →
  resolve_clauses a b = resolve_clauses b a.
Proof.
  intros Ha Hb.
  destruct (resolve_clauses a b) as [r|] eqn:Hab.
  - symmetry. now apply resolve_clauses_sym_Some.
  - destruct (resolve_clauses b a) as [r|] eqn:Hba; [|reflexivity].
    apply resolve_clauses_sym_Some in Hba; [congruence | assumption..].
Qed.

Lemma resolve_clauses_symmetric_example :
  ¬ tautology ({[1; 2]} : gset Z) ∧ ¬ tautology ({[-1; 3]} : gset Z) ∧
  resolve_clauses {[1; 2]} {[-1; 3]} = resolve_clauses {[-1; 3]} {[1; 2]}.
Proof.
  assert (¬ tautology ({[1; 2]} : gset Z)) as Ha.
  { intros (l & Hl & Hn). set_unfold. lia. }
  assert (¬ tautology ({[-1; 3]} : gset Z)) as Hb.
  { intros (l & Hl & Hn). set_unfold. lia. }
  split; [exact Ha|]. split; [exact Hb|].
  exact (resolve_clauses_symmetric {[1; 2]} {[-1; 3]} Ha Hb).
Defined.

End Resolution.

(** * The three engines side by side *)

(** C1 (code at the failing input [[[1, -1], [1]]]): [dp] and [dpll]
    return SAT, [resolution] returns UNSAT. *)
Theorem engines_disagree_on_tautology :
  DP.dp [PySet [1; -1]; PySet [1]] = true /\
  DP.dp [PyList [1; -1]; PyList [1]] = true /\
  DPLL.dpll (DPLL.dpll_fuel [[1; -1]; [1]]) [[1; -1]; [1]] []
    = Some (DPLL.Outcome true (Some [1]) [1] [[1]]) /\
  (forall fuel, Resolution.resolution (S fuel) [[1; -1]; [1]] = Some false).
Proof.
  split; [reflexivity|]. split; [reflexivity|]. split; [reflexivity|].
  intros fuel. apply Resolution.resolution_first_pass. vm_compute. reflexivity.
Qed.

(** C2 (code at the failing inputs [[[]]] and [[[], [1]]]): [dpll]
    returns UNSAT for every formula with the empty clause, but
    [resolution] returns SAT on both inputs, and [dp] returns SAT on the
    first, and on the second when its clauses are sets. *)
Theorem empty_clause_verdicts :
  (forall fuel clauses A,
     In [] clauses ->
     DPLL.dpll (S fuel) clauses A = Some (DPLL.Outcome false None A [])) /\
  (forall fuel, Resolution.resolution (S fuel) [[]] = Some true) /\
  (forall fuel, Resolution.resolution (S fuel) [[]; [1]] = Some true) /\
  DP.dp [PyList []] = true /\
  DP.dp [PySet []] = true /\
  DP.dp [PySet []; PySet [1]] = true /\
  DP.dp [PyList []; PyList [1]] = false.
Proof.
  split; [exact DPLL.dpll_empty_clause|].
  split; [intros fuel; apply Resolution.resolution_first_pass;
          vm_compute; reflexivity|].
  split; [intros fuel; apply Resolution.resolution_first_pass;
          vm_compute; reflexivity|].
  repeat split.
Qed.

(** * The objects a call works on

    The three engines receive Python objects: a list of clauses, each a
    list or a set of integers, and for [dpll] a list of integers.  To say
    what a call leaves of them, the engines are written once more over a
    store of objects.  Every list, set and dict that the source binds to a
    name or passes to a call is an object of the store, created where the
    source creates it; every statement that changes an object in place
    ([append], [extend], [pop], [add], [update], a dict assignment) writes
    to the object its variable refers to at that moment.  Integers,
    frozensets, booleans, [None] and the tuples returned are values.  A
    computation answers [None] where the source would raise on an object
    of the wrong kind, or when its fuel runs out. *)

Module Store.
Import stdpp.gmap.
Local Open Scope Z_scope.
#[local] Set Warnings "-clear-no-such-hyp".

(** What a list holds: an integer, a reference to an object, or a
    frozenset of integers. *)
Inductive value :=
| Int (n : Z)
| Ref (a : nat)
| Frozen (c : gset Z).

Inductive object :=
| ListObj (items : list value)
| SetObj (items : list Z)
| FrozenSetsObj (known : gset (gset Z))
| DictObj (entries : list (Z * nat)).

(** The store: the object of address [a] is at position [a]. *)
Abbreviation store := (list object).

(** A new object. *)
Definition alloc (o : object) (s : store) : nat * store :=
  (length s, s ++ [o]).

(** The items of the list at [a]. *)
Definition list_at (s : store) (a : nat) : option (list value) :=
  match s !! a with
  | Some (ListObj items) => Some items
  | _ => None
  end.

(** [list.append(v)] on the list at [a]. *)
Definition append (a : nat) (v : value) (s : store) : option store :=
  items ← list_at s a; Some (<[a := ListObj (items ++ [v])]> s).

(** [list.extend(vs)] on the list at [a]. *)
Definition extend (a : nat) (vs : list value) (s : store) : option store :=
  items ← list_at s a; Some (<[a := ListObj (items ++ vs)]> s).

Definition int_of (v : value) : option Z :=
  match v with Int n => Some n | _ => None end.

(** The integers of a list of integers. *)
Definition ints_at (s : store) (a : nat) : option (list Z) :=
  items ← list_at s a; mapM int_of items.

(** The clause that [v] refers to: a list or a set of integers. *)
Definition clause_at (s : store) (v : value) : option pyclause :=
  match v with
  | Ref a =>
      match s !! a with
      | Some (ListObj items) => PyList <$> mapM int_of items
      | Some (SetObj items) => Some (PySet items)
      | _ => None
      end
  | _ => None
  end.

(** The formula at [a]: a list of clauses. *)
Definition formula_at (s : store) (a : nat) : option (list pyclause) :=
  items ← list_at s a; mapM (clause_at s) items.

(** ** [dp] *)

(** [resolve(clause1, clause2, variable)]: [resolvent] is a new list,
    returned unless it is a tautology. *)
Definition resolve (clause1 clause2 : value) (variable : Z) (s : store)
  : option (option nat * store) :=
  c1 ← clause_at s clause1;
  c2 ← clause_at s clause2;
  let literals :=
    nodup Z.eq_dec
      (List.filter (λ literal, negb (literal =? variable)) (literals_of c1)
       ++ List.filter (λ literal, negb (literal =? - variable)) (literals_of c2)) in
  let '(resolvent, s) := alloc (ListObj (Int <$> literals)) s in
  Some (if DP.is_tautology literals then None else Some resolvent, s).

(** The loop [for c2 in neg_clauses] for one [c1]. *)
Fixpoint resolve_each (c1 : value) (neg_clauses : list value) (var : Z)
    (new_clauses : nat) (s : store) : option store :=
  match neg_clauses with
  | [] => Some s
  | c2 :: neg_clauses =>
      '(resolvent, s) ← resolve c1 c2 var s;
      s ← match resolvent with
          | Some resolvent => append new_clauses (Ref resolvent) s
          | None => Some s
          end;
      resolve_each c1 neg_clauses var new_clauses s
  end.

(** The loop [for c1 in pos_clauses]. *)
Fixpoint resolve_all (pos_clauses neg_clauses : list value) (var : Z)
    (new_clauses : nat) (s : store) : option store :=
  match pos_clauses with
  | [] => Some s
  | c1 :: pos_clauses =>
      s ← resolve_each c1 neg_clauses var new_clauses s;
      resolve_all pos_clauses neg_clauses var new_clauses s
  end.

(** [[clause for clause in formula if test(clause)]], before it is made
    an object: the items kept. *)
Fixpoint select (test : pyclause → bool) (items : list value) (s : store)
  : option (list value) :=
  match items with
  | [] => Some []
  | clause :: items =>
      c ← clause_at s clause;
      kept ← select test items s;
      Some (if test c then clause :: kept else kept)
  end.

(** [[] in formula]. *)
Definition has_empty_list (formula : nat) (s : store) : option bool :=
  DP.has_empty_list <$> formula_at s formula.

(** The [while variables:] loop; [formula] and [variables] are the
    objects the two names refer to.  The set yields its first element. *)
Fixpoint dp_loop (fuel : nat) (formula variables : nat) (s : store)
  : option (bool * store) :=
  match s !! variables with
  | Some (SetObj []) => Some (true, s)
  | Some (SetObj (var :: rest)) =>
      match fuel with
      | O => None
      | S fuel =>
          let s := <[variables := SetObj rest]> s in
          items ← list_at s formula;
          pos ← select (DP.contains var) items s;
          let '(pos_clauses, s) := alloc (ListObj pos) s in
          neg ← select (DP.contains (- var)) items s;
          let '(neg_clauses, s) := alloc (ListObj neg) s in
          let '(new_clauses, s) := alloc (ListObj []) s in
          pos ← list_at s pos_clauses;
          neg ← list_at s neg_clauses;
          s ← resolve_all pos neg var new_clauses s;
          items ← list_at s formula;
          rest_clauses ←
            select (λ clause, negb (DP.contains var clause)
                              && negb (DP.contains (- var) clause)) items s;
          let '(formula, s) := alloc (ListObj rest_clauses) s in
          new ← list_at s new_clauses;
          s ← extend formula new s;
          found ← has_empty_list formula s;
          if (found : bool) then Some (false, s)
          else dp_loop fuel formula variables s
      end
  | _ => None
  end.

(** The copy that [deepcopy] has made of the object at [a], if any. *)
Fixpoint copy_of (a : nat) (memo : list (nat * nat)) : option nat :=
  match memo with
  | [] => None
  | (a', b) :: memo => if bool_decide (a' = a) then Some b else copy_of a memo
  end.

(** The copy of a clause: a list or a set with the same integers. *)
Definition copy_clause (o : object) : option object :=
  match o with
  | ListObj literals => _ ← mapM int_of literals; Some (ListObj literals)
  | SetObj literals => Some (SetObj literals)
  | _ => None
  end.

(** [deepcopy] of the items of a list of clauses, into the new list [y]:
    a clause is copied with its literals, and a clause met twice is copied
    once, as the memo of [deepcopy] has it. *)
Fixpoint deepcopy_items (items : list value) (memo : list (nat * nat))
    (y : nat) (s : store) : option store :=
  match items with
  | [] => Some s
  | Ref a :: items =>
      match copy_of a memo with
      | Some b =>
          s ← append y (Ref b) s;
          deepcopy_items items memo y s
      | None =>
          o ← s !! a;
          copy ← copy_clause o;
          let '(b, s) := alloc copy s in
          s ← append y (Ref b) s;
          deepcopy_items items ((a, b) :: memo) y s
      end
  | _ => None
  end.

(** [deepcopy(clauses)]. *)
Definition deepcopy (clauses : nat) (s : store) : option (nat * store) :=
  items ← list_at s clauses;
  let '(y, s) := alloc (ListObj []) s in
  s ← deepcopy_items items [] y s;
  Some (y, s).

(** [dp(clauses)] when the set yields its variables in the order
    [variables]. *)
Definition dp_popping (variables : list Z) (clauses : nat) (s : store)
  : option (bool * store) :=
  '(formula, s) ← deepcopy clauses s;
  let '(variables_set, s) := alloc (SetObj variables) s in
  dp_loop (length variables) formula variables_set s.

(** The formula [[{1, 2}, {-1}]] at address 0, its clauses at 1 and 2:
    the call leaves the three objects as they were and adds its own, the
    copy (3 to 5), the set of variables (6) and those of the two rounds. *)
Example dp_store_example :
  dp_popping [1; 2] 0 [ListObj [Ref 1; Ref 2]; SetObj [1; 2]; SetObj [-1]]
  = Some (true,
          [ListObj [Ref 1; Ref 2]; SetObj [1; 2]; SetObj [-1];
           ListObj [Ref 4; Ref 5]; SetObj [1; 2]; SetObj [-1]; SetObj [];
           ListObj [Ref 4]; ListObj [Ref 5]; ListObj [Ref 10];
           ListObj [Int 2]; ListObj [Ref 10];
           ListObj [Ref 10]; ListObj []; ListObj []; ListObj []]).
Proof. vm_compute. reflexivity. Qed.

(** ** [resolution] *)

(** The set of frozensets at [a]. *)
Definition sets_at (s : store) (a : nat) : option (gset (gset Z)) :=
  match s !! a with
  | Some (FrozenSetsObj known) => Some known
  | _ => None
  end.

Definition frozen_of (v : value) : option (gset Z) :=
  match v with Frozen c => Some c | _ => None end.

(** The inner [for j] loop for one [clause_list[i]]; [false] stands for
    the [return False] on an empty resolvent.  The resolvent, a frozenset,
    is a value; [new_resolvents.add] writes to the set. *)
Fixpoint resolve_with (clause_i : gset Z) (later : list (gset Z))
    (new_resolvents : nat) (s : store) : option (bool * store) :=
  match later with
  | [] => Some (true, s)
  | clause_j :: later =>
      match Resolution.resolve_clauses clause_i clause_j with
      | None => resolve_with clause_i later new_resolvents s
      | Some resolvent =>
          if bool_decide (resolvent = ∅) then Some (false, s)
          else
            found ← sets_at s new_resolvents;
            resolve_with clause_i later new_resolvents
              (<[new_resolvents := FrozenSetsObj ({[resolvent]} ∪ found)]> s)
      end
  end.

(** The two nested loops over the pairs [i < j] of [clause_list]. *)
Fixpoint resolve_pairs (clause_list : list (gset Z)) (new_resolvents : nat)
    (s : store) : option (bool * store) :=
  match clause_list with
  | [] => Some (true, s)
  | clause_i :: later =>
      '(go_on, s) ← resolve_with clause_i later new_resolvents s;
      if (go_on : bool) then resolve_pairs later new_resolvents s
      else Some (false, s)
  end.

(** The [while True:] loop on the set at [known_clauses]. *)
Fixpoint saturate (fuel : nat) (known_clauses : nat) (s : store)
  : option (bool * store) :=
  match fuel with
  | O => None
  | S fuel =>
      let '(new_resolvents, s) := alloc (FrozenSetsObj ∅) s in
      known ← sets_at s known_clauses;
      let '(clause_list, s) := alloc (ListObj (Frozen <$> elements known)) s in
      items ← list_at s clause_list;
      clauses ← mapM frozen_of items;
      '(go_on, s) ← resolve_pairs clauses new_resolvents s;
      if (go_on : bool) then
        new ← sets_at s new_resolvents;
        known ← sets_at s known_clauses;
        if bool_decide (new ⊆ known) || bool_decide (new = ∅)
        then Some (true, s)
        else saturate fuel known_clauses
               (<[known_clauses := FrozenSetsObj (known ∪ new)]> s)
      else Some (false, s)
  end.

(** [resolution(clauses_set)]: the clauses are read and made
    frozensets. *)
Definition resolution (fuel : nat) (clauses_set : nat) (s : store)
  : option (bool * store) :=
  f ← formula_at s clauses_set;
  let '(known_clauses, s) :=
    alloc (FrozenSetsObj (Resolution.initial_clauses (List.map literals_of f))) s in
  saturate fuel known_clauses s.

(** ** [dpll] *)

(** The literals of the clauses of the list at [a]. *)
Definition clauses_at (s : store) (a : nat) : option (list (list Z)) :=
  List.map literals_of <$> formula_at s a.

(** The loop of [simplify]; [false] stands for [return None].  Every
    [new_clause] is a new list. *)
Fixpoint simplify_loop (clauses : list value) (current_assignment : nat)
    (new_clauses : nat) (s : store) : option (bool * store) :=
  match clauses with
  | [] => Some (true, s)
  | clause :: clauses =>
      c ← clause_at s clause;
      assigned ← ints_at s current_assignment;
      if existsb (λ literal, mem literal assigned) (literals_of c)
      then simplify_loop clauses current_assignment new_clauses s
      else
        let literals :=
          List.filter (λ literal, negb (mem (- literal) assigned))
            (literals_of c) in
        let '(new_clause, s) := alloc (ListObj (Int <$> literals)) s in
        match literals with
        | [] => Some (false, s)
        | _ =>
            s ← append new_clauses (Ref new_clause) s;
            simplify_loop clauses current_assignment new_clauses s
        end
  end.

(** [simplify(clauses, current_assignment)]. *)
Definition simplify (clauses current_assignment : nat) (s : store)
  : option (option nat * store) :=
  let '(new_clauses, s) := alloc (ListObj []) s in
  items ← list_at s clauses;
  '(whole, s) ← simplify_loop items current_assignment new_clauses s;
  Some (if (whole : bool) then Some new_clauses else None, s).

(** [find_unit_clause(clauses)]: nothing is written. *)
Definition find_unit_clause (clauses : nat) (s : store) : option (option Z) :=
  DPLL.find_unit_clause <$> clauses_at s clauses.

(** [counter[literal] = counter.get(literal, 0) + 1] for the literals of
    one clause. *)
Fixpoint count_clause (literals : list Z) (counter : nat) (s : store)
  : option store :=
  match literals with
  | [] => Some s
  | literal :: literals =>
      match s !! counter with
      | Some (DictObj entries) =>
          count_clause literals counter
            (<[counter := DictObj (DPLL.counter_incr entries literal)]> s)
      | _ => None
      end
  end.

Fixpoint count_clauses (clauses : list (list Z)) (counter : nat) (s : store)
  : option store :=
  match clauses with
  | [] => Some s
  | clause :: clauses =>
      s ← count_clause clause counter s;
      count_clauses clauses counter s
  end.

(** [for lit in counter: if -lit not in counter:
    pure_literals.append(lit)]. *)
Fixpoint collect_pure (keys all_keys : list Z) (pure_literals : nat) (s : store)
  : option store :=
  match keys with
  | [] => Some s
  | lit :: keys =>
      s ← (if mem (- lit) all_keys then Some s
           else append pure_literals (Int lit) s);
      collect_pure keys all_keys pure_literals s
  end.

(** [find_pure_literals(clauses)]: the dict and the list are new. *)
Definition find_pure_literals (clauses : nat) (s : store) : option (nat * store) :=
  let '(counter, s) := alloc (DictObj []) s in
  literals ← clauses_at s clauses;
  s ← count_clauses literals counter s;
  let '(pure_literals, s) := alloc (ListObj []) s in
  o ← s !! counter;
  match o with
  | DictObj entries =>
      s ← collect_pure (List.map fst entries) (List.map fst entries)
            pure_literals s;
      Some (pure_literals, s)
  | _ => None
  end.

(** [choose_literal(clauses)]: nothing is written. *)
Definition choose_literal (clauses : nat) (s : store) : option (option Z) :=
  DPLL.choose_literal <$> clauses_at s clauses.

(** The unit-propagation loop: [current_assignment.append] writes to the
    list the caller passed; [[unit_literal]] is a new list.  The result is
    the object [clauses] refers to at the end, [None] after a conflict. *)
Fixpoint unit_propagate (fuel : nat) (clauses current_assignment : nat)
    (s : store) : option (option nat * store) :=
  found ← find_unit_clause clauses s;
  match found with
  | None => Some (Some clauses, s)
  | Some unit_literal =>
      match fuel with
      | O => None
      | S fuel =>
          s ← append current_assignment (Int unit_literal) s;
          let '(unit_list, s) := alloc (ListObj [Int unit_literal]) s in
          '(simplified, s) ← simplify clauses unit_list s;
          match simplified with
          | None => Some (None, s)
          | Some clauses => unit_propagate fuel clauses current_assignment s
          end
      end
  end.

(** [for literal in pure_literals: current_assignment.append(literal)]. *)
Fixpoint append_each (current_assignment : nat) (literals : list Z) (s : store)
  : option store :=
  match literals with
  | [] => Some s
  | literal :: literals =>
      s ← append current_assignment (Int literal) s;
      append_each current_assignment literals s
  end.

(** [[clause[:] for clause in clauses]]: a new list of new lists. *)
Fixpoint copy_clauses (clauses : list value) (s : store)
  : option (list value * store) :=
  match clauses with
  | [] => Some ([], s)
  | clause :: clauses =>
      match clause with
      | Ref a =>
          literals ← list_at s a;
          let '(copy, s) := alloc (ListObj literals) s in
          '(copies, s) ← copy_clauses clauses s;
          Some (Ref copy :: copies, s)
      | _ => None
      end
  end.

(** The body of the loop [for value in [variable, -variable]] down to
    the call [dpll([clause[:] for clause in clauses],
    current_assignment + [value])]: both arguments are new lists. *)
Definition branch
    (call : nat → nat → store → option (bool * option nat * store))
    (clauses current_assignment : nat) (value : Z) (s : store)
  : option (bool * option nat * store) :=
  items ← list_at s clauses;
  '(copies, s) ← copy_clauses items s;
  let '(copy, s) := alloc (ListObj copies) s in
  assigned ← list_at s current_assignment;
  let '(extended, s) := alloc (ListObj (assigned ++ [Int value])) s in
  call copy extended s.

(** [dpll(clauses, current_assignment)]: the pair returned holds the
    verdict and, for SAT, the list object that holds the witness. *)
Fixpoint dpll (fuel : nat) (clauses current_assignment : nat) (s : store)
  : option (bool * option nat * store) :=
  match fuel with
  | O => None
  | S fuel =>
      '(simplified, s) ← simplify clauses current_assignment s;
      match simplified with
      | None => Some (false, None, s)
      | Some clauses =>
          items ← list_at s clauses;
          match items with
          | [] => Some (true, Some current_assignment, s)
          | _ =>
              '(propagated, s) ←
                unit_propagate (length items) clauses current_assignment s;
              match propagated with
              | None => Some (false, None, s)
              | Some clauses =>
                  '(pure_literals, s) ← find_pure_literals clauses s;
                  literals ← ints_at s pure_literals;
                  s ← append_each current_assignment literals s;
                  '(simplified, s) ← simplify clauses pure_literals s;
                  match simplified with
                  | None => Some (false, None, s)
                  | Some clauses =>
                      chosen ← choose_literal clauses s;
                      match chosen with
                      | None => Some (true, Some current_assignment, s)
                      | Some variable =>
                          '(is_sat, witness, s) ←
                            branch (dpll fuel) clauses current_assignment
                              variable s;
                          if (is_sat : bool) then Some (true, witness, s)
                          else
                            '(is_sat, witness, s) ←
                              branch (dpll fuel) clauses current_assignment
                                (- variable) s;
                            if (is_sat : bool) then Some (true, witness, s)
                            else Some (false, None, s)
                      end
                  end
              end
          end
      end
  end.

(** The clause list [[[1]]] at address 0 and an empty assignment list at
    address 2: after the call the list at 2 holds the literal 1, and it is
    the object returned as the witness. *)
Example dpll_store_example :
  dpll 3 0 2 [ListObj [Ref 1]; ListObj [Int 1]; ListObj []]
  = Some (true, Some 2%nat,
          [ListObj [Ref 1]; ListObj [Int 1]; ListObj [Int 1];
           ListObj [Ref 4]; ListObj [Int 1]; ListObj [Int 1];
           ListObj []; DictObj []; ListObj []; ListObj []]).
Proof. vm_compute. reflexivity. Qed.

(** ** What a computation keeps of the store *)

Local Open Scope nat_scope.

(** From [s] to [s'] no object is lost, and every object of [s] whose
    address is not in [W] is the same in [s']. *)
Definition kept (W : nat → Prop) (s s' : store) : Prop :=
  length s ≤ length s' ∧ ∀ a, a < length s → ¬ W a → s' !! a = s !! a.

Definition nowhere : nat → Prop := λ _, False.

Lemma kept_refl W s : kept W s s.
Proof. split; [lia | reflexivity]. Qed.

Lemma kept_alloc W o s : kept W s (s ++ [o]).
Proof.
  split; [rewrite length_app; lia|]. intros a Ha _. now apply lookup_app_l.
Qed.

Lemma kept_write W a o s : W a → kept W s (<[a := o]> s).
Proof.
  intros Ha. split; [rewrite length_insert; lia|]. intros b Hb Hn.
  apply list_lookup_insert_ne. intros ->. contradiction.
Qed.

(** Two steps: what the second writes to was written to by the whole, or
    is new. *)
Lemma kept_step W W' s0 s1 s2 :
  kept W s0 s1 → kept W' s1 s2 →
  (∀ a, W' a → a < length s0 → W a) →
  kept W s0 s2.
Proof.
  intros [L1 K1] [L2 K2] HW. split; [lia|]. intros a Ha Hn.
  rewrite K2; [now apply K1 | lia |]. intros Hw. apply Hn. now apply HW.
Qed.

Lemma kept_trans W s0 s1 s2 : kept W s0 s1 → kept W s1 s2 → kept W s0 s2.
Proof. intros H1 H2. apply (kept_step W W s0 s1 s2 H1 H2). auto. Qed.

Lemma kept_lookup W s s' a o :
  kept W s s' → s !! a = Some o → ¬ W a → s' !! a = Some o.
Proof.
  intros [_ K] Ha Hn. rewrite K; [assumption | | assumption].
  now apply lookup_lt_Some in Ha.
Qed.

Lemma list_at_Some s a items :
  list_at s a = Some items ↔ s !! a = Some (ListObj items).
Proof.
  unfold list_at. destruct (s !! a) as [[]|]; split; congruence.
Qed.

Lemma list_at_lt s a items : list_at s a = Some items → a < length s.
Proof. rewrite list_at_Some. apply lookup_lt_Some. Qed.

Lemma list_at_kept W s s' a items :
  kept W s s' → list_at s a = Some items → ¬ W a → list_at s' a = Some items.
Proof. rewrite !list_at_Some. apply kept_lookup. Qed.

Lemma clause_at_kept W s s' v c :
  kept W s s' → clause_at s v = Some c → (∀ a, v = Ref a → ¬ W a) →
  clause_at s' v = Some c.
Proof.
  intros K H Hn. destruct v as [n | a | x]; try discriminate. simpl in *.
  destruct (s !! a) as [o|] eqn:E; [|discriminate].
  now rewrite (kept_lookup W s s' a o K E (Hn a eq_refl)).
Qed.

Lemma clause_at_lt s a c : clause_at s (Ref a) = Some c → a < length s.
Proof.
  simpl. destruct (s !! a) eqn:E; [|discriminate]. intros _.
  now apply lookup_lt_Some in E.
Qed.

(** The clauses that the items of a list refer to. *)
Definition decoded (s : store) (items : list value) (f : list pyclause) : Prop :=
  Forall2 (λ v c, clause_at s v = Some c) items f.

(** No item refers to an object that [W] holds. *)
Definition outside (W : nat → Prop) (items : list value) : Prop :=
  Forall (λ v, ∀ a, v = Ref a → ¬ W a) items.

Lemma decoded_kept W s s' items f :
  kept W s s' → decoded s items f → outside W items → decoded s' items f.
Proof.
  intros K H. induction H as [|v c items f Hv H IH]; intros Ho.
  - constructor.
  - inversion Ho; subst. constructor; [|now apply IH].
    now apply (clause_at_kept W s s').
Qed.

Lemma decoded_lt s items f :
  decoded s items f → Forall (λ v, ∀ a, v = Ref a → a < length s) items.
Proof.
  induction 1 as [|v c items f Hv H IH]; constructor; [|assumption].
  intros a ->. now apply clause_at_lt in Hv.
Qed.

(** Objects made after [s] are outside what was decoded in [s]. *)
Lemma decoded_outside s items f (W : nat → Prop) :
  decoded s items f → (∀ a, W a → length s ≤ a) → outside W items.
Proof.
  intros H HW. apply decoded_lt in H. unfold outside.
  eapply Forall_impl; [exact H|]. simpl. intros v Hv a E Hw.
  specialize (Hv a E). specialize (HW a Hw). lia.
Qed.

Lemma formula_at_decoded s a f :
  formula_at s a = Some f ↔
  ∃ items, list_at s a = Some items ∧ decoded s items f.
Proof.
  unfold formula_at, decoded. split.
  - intros H. destruct (list_at s a) as [items|]; [|discriminate].
    simpl in H. exists items. split; [reflexivity|]. now apply mapM_Some_1.
  - intros [items [-> H]]. simpl. now apply mapM_Some_2.
Qed.

Lemma append_spec a v s items :
  list_at s a = Some items →
  append a v s = Some (<[a := ListObj (items ++ [v])]> s) ∧
  list_at (<[a := ListObj (items ++ [v])]> s) a = Some (items ++ [v]).
Proof.
  intros H. unfold append. rewrite H. simpl. split; [reflexivity|].
  apply list_at_Some, list_lookup_insert_eq. now apply list_at_lt in H.
Qed.

Lemma alloc_lookup (o : object) (s : store) : (s ++ [o]) !! length s = Some o.
Proof. now apply list_lookup_middle. Qed.

Lemma alloc_list_at items (s : store) : list_at (s ++ [ListObj items]) (length s) = Some items.
Proof. apply list_at_Some, alloc_lookup. Qed.

(** ** [dp] over the store and [DP.dp] *)

Lemma ints_of_Int (literals : list Z) : mapM int_of (Int <$> literals) = Some literals.
Proof.
  apply mapM_Some_2. induction literals; constructor; auto.
Qed.

Lemma clause_at_alloc_list (s : store) literals :
  clause_at (s ++ [ListObj (Int <$> literals)]) (Ref (length s))
  = Some (PyList literals).
Proof. simpl. rewrite alloc_lookup, ints_of_Int. reflexivity. Qed.

Lemma store_resolve c1 c2 p1 p2 var (s : store) :
  clause_at s c1 = Some p1 → clause_at s c2 = Some p2 →
  ∃ o, resolve c1 c2 var s
       = Some (match DP.resolve p1 p2 var with
               | Some _ => Some (length s)
               | None => None
               end, s ++ [o]) ∧
       ∀ r, DP.resolve p1 p2 var = Some r →
            clause_at (s ++ [o]) (Ref (length s)) = Some (PyList r).
Proof.
  intros H1 H2. unfold resolve, DP.resolve. rewrite H1, H2. simpl.
  eexists. split.
  - destruct (DP.is_tautology _); reflexivity.
  - intros r Hr. destruct (DP.is_tautology _); [discriminate|].
    injection Hr as <-. apply clause_at_alloc_list.
Qed.

(** The resolvents of [p1] with the clauses [nf], as [DP.eliminate]
    lists them. *)
Definition resolvents_with (p1 : pyclause) (nf : list pyclause) (var : Z)
  : list pyclause :=
  flat_map (λ c2, match DP.resolve p1 c2 var with
                  | Some resolvent => [PyList resolvent]
                  | None => []
                  end) nf.

(** Every item is a new object, made after [s]. *)
Definition made_after (s : store) (items : list value) : Prop :=
  Forall (λ v, ∃ a, v = Ref a ∧ length s ≤ a) items.

Lemma made_after_outside s items (W : nat → Prop) :
  made_after s items → (∀ a, W a → a < length s) → outside W items.
Proof.
  intros H HW. unfold outside. eapply Forall_impl; [exact H|]. simpl.
  intros v [a [-> Ha]] b [= <-] Hw. specialize (HW _ Hw). lia.
Qed.

Lemma made_after_mono s s' items :
  made_after s' items → length s ≤ length s' → made_after s items.
Proof.
  intros H L. unfold made_after. eapply Forall_impl; [exact H|]. simpl.
  intros v [a [-> Ha]]. exists a. split; [reflexivity | lia].
Qed.

Lemma resolvents_with_cons p1 p2 nf var :
  resolvents_with p1 (p2 :: nf) var
  = match DP.resolve p1 p2 var with
    | Some resolvent => PyList resolvent :: resolvents_with p1 nf var
    | None => resolvents_with p1 nf var
    end.
Proof.
  unfold resolvents_with. cbn [flat_map].
  destruct (DP.resolve p1 p2 var); reflexivity.
Qed.

#[local] Arguments resolvents_with : simpl never.

Lemma store_resolve_each c1 p1 var N :
  ∀ negs nf s acc,
    clause_at s c1 = Some p1 → (∀ a, c1 = Ref a → a ≠ N) →
    decoded s negs nf → outside (eq N) negs →
    list_at s N = Some acc →
    ∃ s' new,
      resolve_each c1 negs var N s = Some s' ∧
      kept (eq N) s s' ∧
      list_at s' N = Some (acc ++ new) ∧
      decoded s' new (resolvents_with p1 nf var) ∧
      made_after s new.
Proof.
  induction negs as [|c2 negs IH]; intros nf s acc H1 Hc1 Hd Ho HN.
  - inversion Hd; subst. exists s, []. simpl. rewrite app_nil_r.
    split; [reflexivity|]. split; [apply kept_refl|].
    split; [assumption|]. split; constructor.
  - inversion Hd as [|? p2 ? nf' H2 Hd']; subst.
    inversion Ho as [|? ? Hc2 Ho']; subst.
    destruct (store_resolve c1 c2 p1 p2 var s H1 H2) as [o [Hr Hnew]].
    pose proof (list_at_lt _ _ _ HN) as HNlt.
    assert (kept (eq N) s (s ++ [o])) as K1 by apply kept_alloc.
    assert (outside (eq N) [c1]) as Oc1.
    { constructor; [|constructor]. intros a E Hw. now apply (Hc1 a E). }
    assert (∀ s', kept (eq N) s s' → clause_at s' c1 = Some p1) as H1'.
    { intros s' K. apply (clause_at_kept _ _ _ _ _ K H1).
      intros a E Hw. now apply (Hc1 a E). }
    simpl. rewrite Hr. simpl.
    destruct (DP.resolve p1 p2 var) as [r|] eqn:Er; simpl.
    + destruct (append_spec N (Ref (length s)) (s ++ [o]) acc) as [Ha HN2].
      { rewrite list_at_Some. rewrite lookup_app_l by assumption.
        now apply list_at_Some. }
      rewrite Ha. simpl.
      set (s2 := <[N := ListObj (acc ++ [Ref (length s)])]> (s ++ [o])) in *.
      assert (kept (eq N) s s2) as K2.
      { apply (kept_trans _ _ _ _ K1). now apply kept_write. }
      destruct (IH nf' s2 (acc ++ [Ref (length s)]))
        as (s' & new & Hrun & K3 & HN3 & Hdec & Hmade); auto.
      { now apply (decoded_kept _ _ _ _ _ K2). }
      exists s', (Ref (length s) :: new). split; [exact Hrun|].
      split; [now apply (kept_trans _ _ _ _ K2)|].
      split; [now rewrite <- app_assoc in HN3|].
      rewrite resolvents_with_cons, Er. split.
      * constructor; [|assumption].
        apply (clause_at_kept (eq N) s2 s'); [assumption| |].
        -- unfold s2. simpl. rewrite list_lookup_insert_ne by lia.
           apply (Hnew r eq_refl).
        -- intros a [= <-]. lia.
      * constructor; [eauto|].
        apply (made_after_mono _ s2); [assumption|]. apply K2.
    + destruct (IH nf' (s ++ [o]) acc)
        as (s' & new & Hrun & K3 & HN3 & Hdec & Hmade); auto.
      { now apply (decoded_kept _ _ _ _ _ K1). }
      { apply (list_at_kept nowhere s); [apply kept_alloc | assumption | intros []]. }
      exists s', new. split; [exact Hrun|].
      split; [now apply (kept_trans _ _ _ _ K1)|].
      split; [assumption|].
      rewrite resolvents_with_cons, Er.
      split; [assumption|].
      apply (made_after_mono _ (s ++ [o])); [assumption|]. apply K1.
Qed.

Lemma decoded_app s items1 f1 items2 f2 :
  decoded s items1 f1 → decoded s items2 f2 →
  decoded s (items1 ++ items2) (f1 ++ f2).
Proof. apply Forall2_app. Qed.

Lemma store_resolve_all var N :
  ∀ poss pf negs nf s acc,
    decoded s poss pf → outside (eq N) poss →
    decoded s negs nf → outside (eq N) negs →
    list_at s N = Some acc →
    ∃ s' new,
      resolve_all poss negs var N s = Some s' ∧
      kept (eq N) s s' ∧
      list_at s' N = Some (acc ++ new) ∧
      decoded s' new (flat_map (λ c1, resolvents_with c1 nf var) pf) ∧
      made_after s new.
Proof.
  induction poss as [|c1 poss IH]; intros pf negs nf s acc Hp Op Hn On HN.
  - inversion Hp; subst. exists s, []. simpl. rewrite app_nil_r.
    split; [reflexivity|]. split; [apply kept_refl|].
    split; [assumption|]. split; constructor.
  - inversion Hp as [|? p1 ? pf' H1 Hp']; subst.
    inversion Op as [|? ? Oc1 Op']; subst.
    pose proof (list_at_lt _ _ _ HN) as HNlt.
    destruct (store_resolve_each c1 p1 var N negs nf s acc)
      as (s1 & new1 & Hrun1 & K1 & HN1 & Hd1 & Hm1); auto.
    { intros a E Ha. apply (Oc1 a E). congruence. }
    destruct (IH pf' negs nf s1 (acc ++ new1))
      as (s2 & new2 & Hrun2 & K2 & HN2 & Hd2 & Hm2); auto.
    { now apply (decoded_kept _ _ _ _ _ K1). }
    { now apply (decoded_kept _ _ _ _ _ K1). }
    exists s2, (new1 ++ new2). simpl. rewrite Hrun1. simpl.
    split; [exact Hrun2|].
    split; [now apply (kept_trans _ _ _ _ K1)|].
    split; [now rewrite app_assoc|].
    split.
    + apply decoded_app; [|assumption].
      apply (decoded_kept _ _ _ _ _ K2 Hd1).
      apply (made_after_outside s); [assumption|]. now intros a <-.
    + apply Forall_app. split; [assumption|].
      apply (made_after_mono _ s1); [assumption | apply K1].
Qed.

Lemma store_select test :
  ∀ items f s,
    decoded s items f →
    ∃ chosen,
      select test items s = Some chosen ∧
      decoded s chosen (List.filter test f) ∧
      ∀ P : value → Prop, Forall P items → Forall P chosen.
Proof.
  induction items as [|v items IH]; intros f s Hd.
  - inversion Hd; subst. exists []. split; [reflexivity|]. split; [constructor | auto].
  - inversion Hd as [|? c ? f' Hv Hd']; subst.
    destruct (IH f' s Hd') as (chosen & Hs & Hc & HP).
    simpl. rewrite Hv, Hs. simpl. destruct (test c).
    + exists (v :: chosen). split; [reflexivity|].
      split; [now constructor|]. intros P HF. inversion HF; subst.
      constructor; auto.
    + exists chosen. split; [reflexivity|]. split; [assumption|].
      intros P HF. inversion HF; subst. auto.
Qed.

Lemma decoded_alloc (s : store) o items f :
  decoded s items f → decoded (s ++ [o]) items f.
Proof.
  intros H. apply (decoded_kept nowhere s); [apply kept_alloc | assumption|].
  unfold outside. apply Forall_forall. intros v _ a _ [].
Qed.

Lemma list_at_alloc (s : store) o a items :
  list_at s a = Some items → list_at (s ++ [o]) a = Some items.
Proof. rewrite !list_at_Some. apply lookup_app_l_Some. Qed.

Lemma kept_then_alloc W (s0 s : store) o : kept W s0 s → kept W s0 (s ++ [o]).
Proof. intros K. apply (kept_trans _ _ _ _ K), kept_alloc. Qed.

Lemma kept_then_write W (s0 s : store) a o :
  kept W s0 s → length s0 ≤ a ∨ W a → kept W s0 (<[a := o]> s).
Proof.
  intros K Ha. apply (kept_step W (eq a) s0 s); [assumption | |].
  - now apply kept_write.
  - intros b <- Hb. destruct Ha; [lia | assumption].
Qed.

Lemma outside_app W items1 items2 :
  outside W items1 → outside W items2 → outside W (items1 ++ items2).
Proof. intros H1 H2. apply Forall_app. tauto. Qed.

#[local] Arguments resolve_all : simpl never.
#[local] Arguments select : simpl never.

Lemma store_dp_loop :
  ∀ vars fuel F V (s : store) items f,
    length vars ≤ fuel →
    s !! V = Some (SetObj vars) →
    list_at s F = Some items → decoded s items f →
    outside (eq V) items → F ≠ V →
    ∃ s', dp_loop fuel F V s = Some (fst (DP.dp_loop vars f), s') ∧
          kept (eq V) s s'.
Proof.
  induction vars as [|var rest IH]; intros fuel F V s items f Hfuel HV HF Hd Ho HFV.
  - exists s. split; [|apply kept_refl].
    destruct fuel; simpl; rewrite HV; reflexivity.
  - destruct fuel as [|fuel]; [simpl in Hfuel; lia|].
    pose proof (lookup_lt_Some _ _ _ HV) as HVlt.
    pose proof (list_at_lt _ _ _ HF) as HFlt.
    cbn [dp_loop]. rewrite HV.
    set (s1 := <[V := SetObj rest]> s).
    assert (kept (eq V) s s1) as K1 by now apply kept_write.
    assert (length s1 = length s) as L1 by apply length_insert.
    assert (list_at s1 F = Some items) as HF1
      by (apply (list_at_kept _ _ _ _ _ K1 HF); congruence).
    assert (decoded s1 items f) as D1 by now apply (decoded_kept _ _ _ _ _ K1).
    rewrite HF1. cbn [mbind option_bind].
    destruct (store_select (DP.contains var) items f s1 D1)
      as (pos & Hsel1 & Dpos & _).
    rewrite Hsel1. cbn [mbind option_bind alloc].
    set (s2 := s1 ++ [ListObj pos]).
    assert (decoded s2 items f) as D2 by now apply decoded_alloc.
    destruct (store_select (DP.contains (- var)%Z) items f s2 D2)
      as (neg & Hsel2 & Dneg & _).
    rewrite Hsel2. cbn [mbind option_bind alloc].
    set (s3 := s2 ++ [ListObj neg]).
    set (s4 := s3 ++ [ListObj []]).
    assert (length s2 = S (length s)) as L2
      by (unfold s2; rewrite length_app; simpl; lia).
    assert (length s3 = S (S (length s))) as L3
      by (unfold s3; rewrite length_app; simpl; lia).
    assert (length s4 = S (S (S (length s)))) as L4
      by (unfold s4; rewrite length_app; simpl; lia).
    assert (list_at s4 (length s1) = Some pos) as HP4.
    { apply list_at_alloc, list_at_alloc, alloc_list_at. }
    assert (list_at s4 (length s2) = Some neg) as HQ4.
    { apply list_at_alloc, alloc_list_at. }
    rewrite HP4, HQ4. cbn [mbind option_bind].
    assert (∀ items' f', decoded s1 items' f' → outside (eq (length s3)) items')
      as Hout1.
    { intros items' f' H. apply (decoded_outside s1 _ f'); [assumption|].
      intros a <-. lia. }
    destruct (store_resolve_all var (length s3)
                pos (List.filter (DP.contains var) f)
                neg (List.filter (DP.contains (- var)%Z) f) s4 [])
      as (s5 & new & Hrun & K5 & HN5 & Dnew & Mnew).
    { now apply decoded_alloc, decoded_alloc, decoded_alloc. }
    { now apply (Hout1 _ _ Dpos). }
    { now apply decoded_alloc, decoded_alloc. }
    { apply (decoded_outside s2 _ _ _ Dneg). intros a <-. lia. }
    { apply alloc_list_at. }
    rewrite Hrun. cbn [mbind option_bind].
    assert (list_at s5 F = Some items) as HF5.
    { apply (list_at_kept _ _ _ _ _ K5); [|lia].
      now apply list_at_alloc, list_at_alloc, list_at_alloc. }
    assert (decoded s5 items f) as D5.
    { apply (decoded_kept _ _ _ _ _ K5); [|now apply (Hout1 _ _ D1)].
      now apply decoded_alloc, decoded_alloc, decoded_alloc. }
    rewrite HF5. cbn [mbind option_bind].
    destruct (store_select
                (λ clause, negb (DP.contains var clause)
                           && negb (DP.contains (- var)%Z clause)) items f s5 D5)
      as (rc & Hsel3 & Drc & Prc).
    rewrite Hsel3. cbn [mbind option_bind alloc].
    set (s6 := s5 ++ [ListObj rc]).
    assert (list_at s6 (length s3) = Some new) as HN6
      by now apply list_at_alloc.
    rewrite HN6. cbn [mbind option_bind]. unfold extend.
    assert (list_at s6 (length s5) = Some rc) as HF6 by apply alloc_list_at.
    rewrite HF6. cbn [mbind option_bind].
    set (s7 := <[length s5 := ListObj (rc ++ new)]> s6).
    assert (length s4 ≤ length s5) as L5 by apply K5.
    assert (length s6 = S (length s5)) as L6
      by (unfold s6; rewrite length_app; simpl; lia).
    assert (kept (eq (length s5)) s6 s7) as K7 by now apply kept_write.
    assert (list_at s7 (length s5) = Some (rc ++ new)) as HF7.
    { apply list_at_Some, list_lookup_insert_eq. lia. }
    assert (decoded s7 (rc ++ new) (DP.eliminate var f)) as D7.
    { unfold DP.eliminate. apply decoded_app.
      - apply (decoded_kept _ _ _ _ _ K7); [now apply decoded_alloc|].
        apply (decoded_outside s5 _ _ _ Drc). intros a <-. lia.
      - apply (decoded_kept _ _ _ _ _ K7); [now apply decoded_alloc|].
        apply (decoded_outside s5 _ _ _ Dnew). intros a <-. lia. }
    assert (has_empty_list (length s5) s7
            = Some (DP.has_empty_list (DP.eliminate var f))) as HE.
    { unfold has_empty_list.
      rewrite (proj2 (formula_at_decoded s7 (length s5) (DP.eliminate var f)));
        [reflexivity|]. eauto. }
    rewrite HE. cbn [mbind option_bind].
    assert (kept (eq V) s s7) as K07.
    { unfold s7, s6. apply kept_then_write; [|left; lia].
      apply kept_then_alloc.
      apply (kept_step (eq V) (eq (length s3)) s s4 s5); [|assumption|].
      - unfold s4, s3, s2. now repeat apply kept_then_alloc.
      - intros a <-. lia. }
    cbn [DP.dp_loop].
    destruct (DP.has_empty_list (DP.eliminate var f)) eqn:Hempty.
    + exists s7. split; [reflexivity | assumption].
    + destruct (IH fuel (length s5) V s7 (rc ++ new) (DP.eliminate var f))
        as (s' & Hrec & K'); try assumption.
      * simpl in Hfuel. lia.
      * unfold s7, s6. rewrite list_lookup_insert_ne by lia.
        apply lookup_app_l_Some.
        apply (kept_lookup _ _ _ _ _ K5); [|lia].
        unfold s4, s3, s2. repeat apply lookup_app_l_Some.
        unfold s1. apply list_lookup_insert_eq. assumption.
      * apply outside_app; [now apply Prc|].
        apply (made_after_outside s4); [assumption|]. intros a <-. lia.
      * lia.
      * exists s'. split.
        -- rewrite Hrec. destruct (DP.dp_loop rest (DP.eliminate var f)).
           reflexivity.
        -- now apply (kept_trans _ _ _ _ K07).
Qed.

(** The copies recorded are objects equal to their originals, and none
    is the list being filled. *)
Definition copies (memo : list (nat * nat)) (y : nat) (s : store) : Prop :=
  ∀ a b, copy_of a memo = Some b →
    a ≠ y ∧ b ≠ y ∧ a < length s ∧ b < length s ∧ s !! b = s !! a.

Lemma copies_kept memo y (s s' : store) :
  copies memo y s → kept (eq y) s s' → copies memo y s'.
Proof.
  intros H K a b Hab. destruct (H a b Hab) as (Ha & Hb & La & Lb & E).
  destruct K as [L K]. repeat split; try lia.
  rewrite !K by (auto || lia). assumption.
Qed.

Lemma clause_at_same (s : store) a b :
  s !! b = s !! a → clause_at s (Ref b) = clause_at s (Ref a).
Proof. simpl. now intros ->. Qed.

Lemma store_deepcopy_items y :
  ∀ items f memo (s : store) acc,
    decoded s items f → outside (eq y) items →
    copies memo y s → list_at s y = Some acc →
    ∃ s' new,
      deepcopy_items items memo y s = Some s' ∧
      kept (eq y) s s' ∧
      list_at s' y = Some (acc ++ new) ∧
      decoded s' new f ∧ outside (eq y) new.
Proof.
  induction items as [|v items IH]; intros f memo s acc Hd Ho Hm Hy.
  - inversion Hd; subst. exists s, []. simpl. rewrite app_nil_r.
    split; [reflexivity|]. split; [apply kept_refl|].
    split; [assumption|]. split; constructor.
  - inversion Hd as [|? c ? f' Hv Hd']; subst.
    inversion Ho as [|? ? Ov Ho']; subst.
    pose proof (list_at_lt _ _ _ Hy) as Hylt.
    destruct v as [n | a | x]; try discriminate.
    pose proof (clause_at_lt _ _ _ Hv) as Halt.
    assert (y ≠ a) as Hya by now apply Ov.
    cbn [deepcopy_items].
    destruct (copy_of a memo) as [b|] eqn:Hcopy.
    + destruct (Hm a b Hcopy) as (_ & Hby & _ & Hblt & Eb).
      destruct (append_spec y (Ref b) s acc Hy) as [Ha Hy2].
      rewrite Ha. cbn [mbind option_bind].
      set (s2 := <[y := ListObj (acc ++ [Ref b])]> s) in *.
      assert (kept (eq y) s s2) as K2 by now apply kept_write.
      destruct (IH f' memo s2 (acc ++ [Ref b]))
        as (s' & new & Hrun & K' & Hy' & Hd'' & Ho''); auto.
      { now apply (decoded_kept _ _ _ _ _ K2). }
      { now apply (copies_kept _ _ s). }
      exists s', (Ref b :: new). split; [exact Hrun|].
      split; [now apply (kept_trans _ _ _ _ K2)|].
      split; [now rewrite <- app_assoc in Hy'|].
      split.
      * constructor; [|assumption].
        apply (clause_at_kept (eq y) s s');
          [now apply (kept_trans _ _ _ _ K2) | | intros ? [= <-]; congruence].
        rewrite (clause_at_same s a b Eb). assumption.
      * constructor; [|assumption]. intros ? [= <-]. congruence.
    + assert (∃ copy, s !! a = Some copy ∧ copy_clause copy = Some copy)
        as (copy & Ea & Ecopy).
      { simpl in Hv. destruct (s !! a) as [[literals | literals | |]|] eqn:E;
          try discriminate; eexists; (split; [reflexivity|]); simpl.
        - destruct (mapM int_of literals); [reflexivity | discriminate].
        - reflexivity. }
      rewrite Ea. cbn [mbind option_bind]. rewrite Ecopy.
      cbn [mbind option_bind alloc].
      set (s1 := s ++ [copy]).
      assert (list_at s1 y = Some acc) as Hy1 by now apply list_at_alloc.
      destruct (append_spec y (Ref (length s)) s1 acc Hy1) as [Ha Hy2].
      rewrite Ha. cbn [mbind option_bind].
      set (s2 := <[y := ListObj (acc ++ [Ref (length s)])]> s1) in *.
      assert (kept (eq y) s s2) as K2.
      { unfold s2, s1. apply kept_then_write; [|now right]. apply kept_alloc. }
      assert (s2 !! length s = Some copy) as Ecopy2.
      { unfold s2, s1. rewrite list_lookup_insert_ne by lia. apply alloc_lookup. }
      assert (s2 !! a = Some copy) as Ea2
        by (apply (kept_lookup _ _ _ _ _ K2 Ea); congruence).
      assert (length s2 = S (length s)) as L2.
      { unfold s2, s1. rewrite length_insert, length_app. simpl. lia. }
      destruct (IH f' ((a, length s) :: memo) s2 (acc ++ [Ref (length s)]))
        as (s' & new & Hrun & K' & Hy' & Hd'' & Ho''); auto.
      { now apply (decoded_kept _ _ _ _ _ K2). }
      { intros a' b'. cbn [copy_of]. case_bool_decide as Haa.
        - intros [= <-]. subst a'. repeat split; try lia. congruence.
        - intros Hab. apply (copies_kept _ _ s s2 Hm K2 a' b' Hab). }
      exists s', (Ref (length s) :: new). split; [exact Hrun|].
      split; [now apply (kept_trans _ _ _ _ K2)|].
      split; [now rewrite <- app_assoc in Hy'|].
      split.
      * constructor; [|assumption].
        apply (clause_at_kept (eq y) s2 s'); [assumption | |].
        -- rewrite (clause_at_same s2 a (length s)) by congruence.
           apply (clause_at_kept (eq y) s s2); [assumption.. |].
           intros ? [= <-]. congruence.
        -- intros ? [= <-]. lia.
      * constructor; [|assumption]. intros ? [= <-]. lia.
Qed.

Lemma store_deepcopy clauses (s : store) f :
  formula_at s clauses = Some f →
  ∃ s' new,
    deepcopy clauses s = Some (length s, s') ∧
    kept nowhere s s' ∧
    list_at s' (length s) = Some new ∧ decoded s' new f.
Proof.
  intros H. apply formula_at_decoded in H. destruct H as (items & Hl & Hd).
  unfold deepcopy. rewrite Hl. cbn [mbind option_bind alloc].
  destruct (store_deepcopy_items (length s) items f [] (s ++ [ListObj []]) [])
    as (s' & new & Hrun & K & Hy & Hd' & _).
  - now apply decoded_alloc.
  - apply (decoded_outside s _ _ _ Hd). intros a <-. lia.
  - intros a b. discriminate.
  - apply alloc_list_at.
  - rewrite Hrun. cbn [mbind option_bind]. exists s', new.
    split; [reflexivity|]. split; [|split; assumption].
    apply (kept_step nowhere (eq (length s)) s (s ++ [ListObj []]) s');
      [apply kept_alloc | assumption|]. intros a <-. lia.
Qed.

(** [dp] over the store returns what [DP.dp_popping] returns on the
    formula read from the store, and leaves every object of the store as
    it was. *)
Lemma store_dp_popping variables clauses (s : store) f :
  formula_at s clauses = Some f →
  ∃ s', dp_popping variables clauses s
        = Some (DP.dp_popping variables f, s') ∧
        kept nowhere s s'.
Proof.
  intros H. destruct (store_deepcopy clauses s f H)
    as (s1 & new & Hcopy & K1 & Hl & Hd).
  unfold dp_popping. rewrite Hcopy. cbn [mbind option_bind alloc].
  assert (length s < length s1) as L1 by now apply list_at_lt in Hl.
  destruct (store_dp_loop variables (length variables) (length s) (length s1)
              (s1 ++ [SetObj variables]) new f)
    as (s' & Hrun & K').
  - lia.
  - apply alloc_lookup.
  - now apply list_at_alloc.
  - now apply decoded_alloc.
  - apply (decoded_outside s1 _ _ _ Hd). intros a <-. lia.
  - lia.
  - exists s'. split; [exact Hrun|].
    apply (kept_step nowhere (eq (length s1)) s (s1 ++ [SetObj variables]) s');
      [now apply kept_then_alloc | assumption|]. intros a <-. lia.
Qed.

(** ** [resolution] over the store and [Resolution.resolution] *)

Lemma sets_at_Some (s : store) a known :
  sets_at s a = Some known ↔ s !! a = Some (FrozenSetsObj known).
Proof.
  unfold sets_at. destruct (s !! a) as [[]|]; split; congruence.
Qed.

Lemma sets_at_kept W (s s' : store) a known :
  kept W s s' → sets_at s a = Some known → ¬ W a → sets_at s' a = Some known.
Proof. rewrite !sets_at_Some. apply kept_lookup. Qed.

Lemma store_resolve_with clause_i N :
  ∀ later (s : store) acc,
    sets_at s N = Some acc →
    ∃ s',
      resolve_with clause_i later N s
      = Some (bool_decide (is_Some (Resolution.resolve_with clause_i later acc)),
              s') ∧
      kept (eq N) s s' ∧
      ∀ new, Resolution.resolve_with clause_i later acc = Some new →
             sets_at s' N = Some new.
Proof.
  induction later as [|clause_j later IH]; intros s acc HN.
  - exists s. simpl. split; [reflexivity|]. split; [apply kept_refl|].
    now intros new [= <-].
  - cbn [resolve_with Resolution.resolve_with].
    destruct (Resolution.resolve_clauses clause_i clause_j) as [resolvent|];
      [|now apply IH].
    case_bool_decide as Hempty.
    + exists s. split; [reflexivity|]. split; [apply kept_refl|]. discriminate.
    + rewrite HN. cbn [mbind option_bind].
      pose proof (proj1 (sets_at_Some _ _ _) HN) as HN'.
      apply lookup_lt_Some in HN'.
      destruct (IH (<[N := FrozenSetsObj ({[resolvent]} ∪ acc)]> s)
                   ({[resolvent]} ∪ acc)) as (s' & Hrun & K & Hnew).
      { apply sets_at_Some, list_lookup_insert_eq. assumption. }
      exists s'. split; [exact Hrun|]. split; [|assumption].
      apply (kept_trans _ _ _ _ (kept_write (eq N) N _ s eq_refl) K).
Qed.

Lemma store_resolve_pairs N :
  ∀ clause_list (s : store) acc,
    sets_at s N = Some acc →
    ∃ s',
      resolve_pairs clause_list N s
      = Some (bool_decide (is_Some (Resolution.resolve_pairs clause_list acc)),
              s') ∧
      kept (eq N) s s' ∧
      ∀ new, Resolution.resolve_pairs clause_list acc = Some new →
             sets_at s' N = Some new.
Proof.
  induction clause_list as [|clause_i later IH]; intros s acc HN.
  - exists s. simpl. split; [reflexivity|]. split; [apply kept_refl|].
    now intros new [= <-].
  - cbn [resolve_pairs Resolution.resolve_pairs].
    destruct (store_resolve_with clause_i N later s acc HN)
      as (s1 & Hrun1 & K1 & Hnew1).
    rewrite Hrun1. cbn [mbind option_bind].
    destruct (Resolution.resolve_with clause_i later acc) as [new1|].
    + rewrite bool_decide_eq_true_2 by eauto.
      destruct (IH s1 new1 (Hnew1 new1 eq_refl)) as (s' & Hrun & K & Hnew).
      exists s'. split; [exact Hrun|]. split; [|assumption].
      now apply (kept_trans _ _ _ _ K1).
    + rewrite bool_decide_eq_false_2 by (intros [? ?]; discriminate).
      exists s1. split; [reflexivity|]. split; [assumption | discriminate].
Qed.

Lemma frozen_of_Frozen (clauses : list (gset Z)) :
  mapM frozen_of (Frozen <$> clauses) = Some clauses.
Proof. apply mapM_Some_2. induction clauses; constructor; auto. Qed.

#[local] Arguments resolve_pairs : simpl never.

Lemma store_saturate K :
  ∀ fuel (s : store) known sat,
    sets_at s K = Some known →
    Resolution.saturate fuel known = Some sat →
    ∃ s', saturate fuel K s = Some (sat, s') ∧ kept (eq K) s s'.
Proof.
  induction fuel as [|fuel IH]; intros s known sat HK Hsat; [discriminate|].
  pose proof (proj1 (sets_at_Some _ _ _) HK) as HKlt.
  apply lookup_lt_Some in HKlt.
  cbn [saturate alloc].
  set (s1 := s ++ [FrozenSetsObj ∅]).
  assert (sets_at s1 K = Some known) as HK1.
  { apply sets_at_Some, lookup_app_l_Some. now apply sets_at_Some. }
  rewrite HK1. cbn [mbind option_bind alloc].
  set (s2 := s1 ++ [ListObj (Frozen <$> elements known)]).
  assert (length s1 = S (length s)) as L1
    by (unfold s1; rewrite length_app; simpl; lia).
  assert (length s2 = S (S (length s))) as L2
    by (unfold s2; rewrite length_app; simpl; lia).
  assert (list_at s2 (length s1) = Some (Frozen <$> elements known)) as HL
    by apply alloc_list_at.
  rewrite HL. cbn [mbind option_bind]. rewrite frozen_of_Frozen.
  cbn [mbind option_bind].
  destruct (store_resolve_pairs (length s) (elements known) s2 ∅)
    as (s3 & Hrun & K3 & Hnew).
  { apply sets_at_Some. unfold s2. apply lookup_app_l_Some. apply alloc_lookup. }
  rewrite Hrun. cbn [mbind option_bind].
  assert (kept (eq K) s s3) as K03.
  { apply (kept_step (eq K) (eq (length s)) s s2 s3); [|assumption|].
    - unfold s2, s1. now repeat apply kept_then_alloc || apply kept_refl.
    - intros a <-. lia. }
  cbn [Resolution.saturate] in Hsat. unfold Resolution.iteration in Hsat.
  destruct (Resolution.resolve_pairs (elements known) ∅) as [new|].
  - rewrite bool_decide_eq_true_2 by eauto.
    rewrite (Hnew new eq_refl). cbn [mbind option_bind].
    assert (sets_at s3 K = Some known) as HK3.
    { apply (sets_at_kept _ _ _ _ _ K3); [|lia].
      apply sets_at_Some. unfold s2. apply lookup_app_l_Some.
      now apply sets_at_Some. }
    rewrite HK3. cbn [mbind option_bind].
    destruct (bool_decide (new ⊆ known) || bool_decide (new = ∅)).
    + injection Hsat as <-. exists s3. split; [reflexivity | assumption].
    + destruct (IH (<[K := FrozenSetsObj (known ∪ new)]> s3) (known ∪ new) sat)
        as (s' & Hrec & K'); [| assumption |].
      { apply sets_at_Some, list_lookup_insert_eq.
        destruct K3 as [L3 _]. lia. }
      exists s'. split; [exact Hrec|].
      apply (kept_trans _ _ _ _ K03).
      apply (kept_trans _ _ _ _ (kept_write (eq K) K _ s3 eq_refl) K').
  - rewrite bool_decide_eq_false_2 by (intros [? ?]; discriminate).
    injection Hsat as <-. exists s3. split; [reflexivity | assumption].
Qed.

(** [resolution] over the store returns what [Resolution.resolution]
    returns on the clauses read from the store, and leaves every object of
    the store as it was. *)
Lemma store_resolution fuel clauses_set (s : store) f sat :
  formula_at s clauses_set = Some f →
  Resolution.resolution fuel (List.map literals_of f) = Some sat →
  ∃ s', resolution fuel clauses_set s = Some (sat, s') ∧ kept nowhere s s'.
Proof.
  intros Hf Hsat. unfold resolution. rewrite Hf. cbn [mbind option_bind alloc].
  destruct (store_saturate (length s) fuel
              (s ++ [FrozenSetsObj
                       (Resolution.initial_clauses (List.map literals_of f))])
              (Resolution.initial_clauses (List.map literals_of f)) sat)
    as (s' & Hrun & K); [apply sets_at_Some, alloc_lookup | exact Hsat |].
  exists s'. split; [exact Hrun|].
  apply (kept_step nowhere (eq (length s)) s _ s' (kept_alloc _ _ _) K).
  intros a <-. lia.
Qed.

(** ** [dpll] over the store and [DPLL.dpll] *)

Lemma ints_at_Some (s : store) a literals :
  s !! a = Some (ListObj (Int <$> literals)) → ints_at s a = Some literals.
Proof.
  intros H. unfold ints_at. rewrite (proj2 (list_at_Some _ _ _) H).
  cbn [mbind option_bind]. apply ints_of_Int.
Qed.

Lemma ints_of_inv items literals :
  mapM int_of items = Some literals → items = Int <$> literals.
Proof.
  intros H. apply mapM_Some_1 in H.
  induction H as [|v n items literals Hv H IH]; [reflexivity|].
  destruct v; try discriminate. injection Hv as ->. simpl. now f_equal.
Qed.

Lemma ints_at_inv (s : store) a literals :
  ints_at s a = Some literals → s !! a = Some (ListObj (Int <$> literals)).
Proof.
  unfold ints_at. intros H.
  destruct (list_at s a) as [items|] eqn:E; [|discriminate].
  cbn [mbind option_bind] in H. apply ints_of_inv in H. subst items.
  now apply list_at_Some.
Qed.

Lemma ints_at_kept W (s s' : store) a literals :
  kept W s s' → ints_at s a = Some literals → ¬ W a →
  ints_at s' a = Some literals.
Proof.
  intros K H Hn. apply ints_at_Some. apply ints_at_inv in H.
  now apply (kept_lookup W s s').
Qed.

Lemma ints_at_lt (s : store) a literals :
  ints_at s a = Some literals → a < length s.
Proof. intros H. apply ints_at_inv in H. now apply lookup_lt_Some in H. Qed.

Lemma literals_of_PyList (clauses : list (list Z)) :
  List.map literals_of (List.map PyList clauses) = clauses.
Proof. induction clauses; simpl; now f_equal. Qed.

#[local] Arguments DPLL.simplify : simpl never.

Lemma store_simplify_loop A N assigned :
  ∀ items f (s : store) acc,
    decoded s items f → outside (eq N) items →
    ints_at s A = Some assigned → A ≠ N →
    list_at s N = Some acc →
    ∃ s',
      simplify_loop items A N s
      = Some (bool_decide
                (is_Some (DPLL.simplify (List.map literals_of f) assigned)),
              s') ∧
      kept (eq N) s s' ∧
      ∀ new_clauses,
        DPLL.simplify (List.map literals_of f) assigned = Some new_clauses →
        ∃ new,
          list_at s' N = Some (acc ++ new) ∧
          decoded s' new (List.map PyList new_clauses) ∧
          made_after s new.
Proof.
  induction items as [|v items IH]; intros f s acc Hd Ho HA HAN HN.
  - inversion Hd; subst. exists s. split; [reflexivity|].
    split; [apply kept_refl|]. intros ? [= <-]. exists [].
    rewrite app_nil_r. split; [assumption|]. split; constructor.
  - inversion Hd as [|? c ? f' Hv Hd']; subst.
    inversion Ho as [|? ? Ov Ho']; subst.
    pose proof (list_at_lt _ _ _ HN) as HNlt.
    cbn [simplify_loop List.map]. rewrite Hv, HA. cbn [mbind option_bind].
    rewrite DPLL.simplify_cons. unfold DPLL.reduce.
    destruct (existsb (λ literal, mem literal assigned) (literals_of c)).
    { now apply IH. }
    cbn [alloc].
    set (literals := List.filter (λ literal, negb (mem (- literal)%Z assigned))
                       (literals_of c)).
    set (s1 := s ++ [ListObj (Int <$> literals)]).
    assert (kept (eq N) s s1) as K1 by apply kept_alloc.
    destruct literals as [|l literals'] eqn:El.
    { exists s1. rewrite bool_decide_eq_false_2 by (intros [? ?]; discriminate).
      split; [reflexivity|]. split; [assumption | discriminate]. }
    rewrite <- El in *.
    assert (list_at s1 N = Some acc) as HN1 by now apply list_at_alloc.
    destruct (append_spec N (Ref (length s)) s1 acc HN1) as [Ha HN2].
    rewrite Ha. cbn [mbind option_bind].
    set (s2 := <[N := ListObj (acc ++ [Ref (length s)])]> s1) in *.
    assert (kept (eq N) s s2) as K2.
    { apply (kept_trans _ _ _ _ K1). now apply kept_write. }
    destruct (IH f' s2 (acc ++ [Ref (length s)]))
      as (s' & Hrun & K' & Hnew); auto.
    { now apply (decoded_kept _ _ _ _ _ K2). }
    { apply (ints_at_kept _ _ _ _ _ K2 HA). congruence. }
    exists s'. split.
    { rewrite Hrun. do 2 f_equal. rewrite El.
      destruct (DPLL.simplify (List.map literals_of f') assigned);
        apply bool_decide_ext; split; intros [? ?]; eauto; discriminate. }
    split; [now apply (kept_trans _ _ _ _ K2)|].
    intros new_clauses Hs. rewrite El in Hs.
    destruct (DPLL.simplify (List.map literals_of f') assigned) as [rest|];
      [|discriminate].
    injection Hs as <-. destruct (Hnew rest eq_refl) as (new & HN' & Hd'' & Hm).
    exists (Ref (length s) :: new).
    split; [now rewrite <- app_assoc in HN'|].
    split.
    + cbn [List.map]. constructor; [|assumption].
      apply (clause_at_kept (eq N) s1 s').
      * apply (kept_trans _ _ s2); [now apply kept_write | assumption].
      * unfold s1. apply (clause_at_alloc_list s).
      * intros ? [= <-]. lia.
    + constructor; [eauto|].
      apply (made_after_mono _ s2); [assumption | apply K2].
Qed.

#[local] Arguments simplify_loop : simpl never.

Lemma store_simplify C A (s : store) f assigned :
  formula_at s C = Some f → ints_at s A = Some assigned →
  ∃ s',
    simplify C A s
    = Some (match DPLL.simplify (List.map literals_of f) assigned with
            | Some _ => Some (length s)
            | None => None
            end, s') ∧
    kept nowhere s s' ∧
    ∀ new_clauses,
      DPLL.simplify (List.map literals_of f) assigned = Some new_clauses →
      ∃ new,
        list_at s' (length s) = Some new ∧
        decoded s' new (List.map PyList new_clauses) ∧
        made_after s new.
Proof.
  intros Hf HA. apply formula_at_decoded in Hf.
  destruct Hf as (items & Hl & Hd).
  pose proof (ints_at_lt _ _ _ HA) as HAlt.
  unfold simplify. cbn [alloc].
  rewrite (list_at_alloc s (ListObj []) C items Hl). cbn [mbind option_bind].
  destruct (store_simplify_loop A (length s) assigned items f
              (s ++ [ListObj []]) [])
    as (s' & Hrun & K & Hnew).
  - now apply decoded_alloc.
  - apply (decoded_outside s _ _ _ Hd). intros a <-. lia.
  - apply (ints_at_kept nowhere s); [apply kept_alloc | assumption | intros []].
  - lia.
  - apply alloc_list_at.
  - rewrite Hrun. cbn [mbind option_bind]. exists s'. split; [|split].
    + destruct (DPLL.simplify (List.map literals_of f) assigned).
      * now rewrite bool_decide_eq_true_2 by eauto.
      * now rewrite bool_decide_eq_false_2 by (intros [? ?]; discriminate).
    + apply (kept_step nowhere (eq (length s)) s _ s' (kept_alloc _ _ _) K).
      intros a <-. lia.
    + intros new_clauses Hs. destruct (Hnew new_clauses Hs) as (new & H1 & H2 & H3).
      exists new. split; [assumption|]. split; [assumption|].
      apply (made_after_mono _ (s ++ [ListObj []])); [assumption|].
      rewrite length_app. lia.
Qed.

(** The list at [C] holds the clauses [f], and neither it nor one of its
    clauses is the object [A]. *)
Definition holds (s : store) (C : nat) (f : list pyclause) (A : nat) : Prop :=
  C ≠ A ∧
  ∃ items, list_at s C = Some items ∧ decoded s items f ∧ outside (eq A) items.

Lemma holds_formula_at s C f A : holds s C f A → formula_at s C = Some f.
Proof.
  intros (_ & items & Hl & Hd & _). apply formula_at_decoded. eauto.
Qed.

Lemma holds_kept (W : nat → Prop) s s' C f A :
  holds s C f A → kept W s s' →
  (∀ a, W a → a = A ∨ length s ≤ a) →
  holds s' C f A.
Proof.
  intros (HCA & items & Hl & Hd & Ho) K HW.
  pose proof (list_at_lt _ _ _ Hl) as HClt.
  split; [assumption|]. exists items. split; [|split; [|assumption]].
  - apply (list_at_kept W s); [assumption.. |]. intros Hw.
    destruct (HW _ Hw); [congruence | lia].
  - apply (decoded_kept W s); [assumption.. |].
    pose proof (decoded_lt _ _ _ Hd) as Hlt.
    unfold outside in *. rewrite Forall_forall in *.
    intros v Hv a E Hw. destruct (HW _ Hw) as [-> | Hge].
    + now apply (Ho v Hv A).
    + specialize (Hlt v Hv a E). lia.
Qed.

(** A list made after [s] of clauses made after [s] holds them apart from
    every object of [s]. *)
Lemma holds_new s0 s C new f A :
  list_at s C = Some new → decoded s new f → made_after s0 new →
  length s0 ≤ C → A < length s0 →
  holds s C f A.
Proof.
  intros Hl Hd Hm HC HA. split; [lia|]. exists new.
  split; [assumption|]. split; [assumption|].
  apply (made_after_outside s0); [assumption|]. now intros a <-.
Qed.

Lemma clauses_at_holds s C f A :
  holds s C f A → clauses_at s C = Some (List.map literals_of f).
Proof.
  intros H. unfold clauses_at. now rewrite (holds_formula_at _ _ _ _ H).
Qed.

Lemma store_count_clause counter :
  ∀ literals (s : store) entries,
    s !! counter = Some (DictObj entries) →
    ∃ s',
      count_clause literals counter s = Some s' ∧
      kept (eq counter) s s' ∧ length s' = length s ∧
      s' !! counter = Some (DictObj (fold_left DPLL.counter_incr literals entries)).
Proof.
  induction literals as [|l literals IH]; intros s entries Hc.
  - exists s. split; [reflexivity|]. split; [apply kept_refl|]. auto.
  - cbn [count_clause fold_left]. rewrite Hc.
    pose proof (lookup_lt_Some _ _ _ Hc) as Hlt.
    destruct (IH (<[counter := DictObj (DPLL.counter_incr entries l)]> s)
                 (DPLL.counter_incr entries l))
      as (s' & Hrun & K & L & Hc'); [now apply list_lookup_insert_eq|].
    exists s'. split; [exact Hrun|].
    split; [|split; [now rewrite L, length_insert | assumption]].
    apply (kept_trans _ _ _ _ (kept_write (eq counter) counter _ s eq_refl) K).
Qed.

Lemma store_count_clauses counter :
  ∀ clauses (s : store) entries,
    s !! counter = Some (DictObj entries) →
    ∃ s',
      count_clauses clauses counter s = Some s' ∧
      kept (eq counter) s s' ∧ length s' = length s ∧
      s' !! counter
      = Some (DictObj
                (fold_left (λ counter clause,
                              fold_left DPLL.counter_incr clause counter)
                   clauses entries)).
Proof.
  induction clauses as [|clause clauses IH]; intros s entries Hc.
  - exists s. split; [reflexivity|]. split; [apply kept_refl|]. auto.
  - cbn [count_clauses fold_left].
    destruct (store_count_clause counter clause s entries Hc)
      as (s1 & Hrun1 & K1 & L1 & Hc1).
    rewrite Hrun1. cbn [mbind option_bind].
    destruct (IH s1 _ Hc1) as (s' & Hrun & K & L & Hc').
    exists s'. split; [exact Hrun|].
    split; [now apply (kept_trans _ _ _ _ K1)|].
    split; [lia | assumption].
Qed.

Lemma store_collect_pure P all_keys :
  ∀ keys (s : store) acc,
    ints_at s P = Some acc →
    ∃ s',
      collect_pure keys all_keys P s = Some s' ∧
      kept (eq P) s s' ∧ length s' = length s ∧
      ints_at s' P
      = Some (acc ++ List.filter (λ lit, negb (mem (- lit)%Z all_keys)) keys).
Proof.
  induction keys as [|lit keys IH]; intros s acc HP.
  - exists s. split; [reflexivity|]. split; [apply kept_refl|].
    split; [reflexivity|]. simpl. now rewrite app_nil_r.
  - cbn [collect_pure List.filter].
    destruct (mem (- lit)%Z all_keys); cbn [negb mbind option_bind].
    + now apply IH.
    + pose proof (ints_at_inv _ _ _ HP) as HP'.
      pose proof (lookup_lt_Some _ _ _ HP') as Hlt.
      destruct (append_spec P (Int lit) s (Int <$> acc)) as [Ha _];
        [now apply list_at_Some|].
      rewrite Ha. cbn [mbind option_bind].
      destruct (IH (<[P := ListObj ((Int <$> acc) ++ [Int lit])]> s)
                   (acc ++ [lit])) as (s' & Hrun & K & L & HP'').
      { apply ints_at_Some. rewrite fmap_app.
        now apply list_lookup_insert_eq. }
      exists s'. split; [exact Hrun|].
      split; [|split; [now rewrite L, length_insert|]].
      * apply (kept_trans _ _ _ _ (kept_write (eq P) P _ s eq_refl) K).
      * now rewrite <- app_assoc in HP''.
Qed.

(** [find_pure_literals] over the store: the list returned is new and
    holds the pure literals. *)
Lemma store_find_pure_literals C (s : store) f A :
  holds s C f A →
  ∃ s',
    find_pure_literals C s = Some (S (length s), s') ∧
    kept nowhere s s' ∧ length s' = S (S (length s)) ∧
    ints_at s' (S (length s))
    = Some (DPLL.find_pure_literals (List.map literals_of f)).
Proof.
  intros H. unfold find_pure_literals. cbn [alloc].
  assert (holds (s ++ [DictObj []]) C f A) as H1.
  { apply (holds_kept nowhere s); [assumption | apply kept_alloc | intros ? []]. }
  rewrite (clauses_at_holds _ _ _ _ H1). cbn [mbind option_bind].
  destruct (store_count_clauses (length s) (List.map literals_of f)
              (s ++ [DictObj []]) []) as (s1 & Hrun1 & K1 & L1 & Hc1);
    [apply alloc_lookup|].
  rewrite Hrun1. cbn [mbind option_bind].
  rewrite length_app in L1. simpl in L1.
  assert ((s1 ++ [ListObj []]) !! length s
          = Some (DictObj (DPLL.count_literals (List.map literals_of f)))) as Hc2
    by now apply lookup_app_l_Some.
  rewrite Hc2. cbn [mbind option_bind].
  destruct (store_collect_pure (length s1)
              (List.map fst (DPLL.count_literals (List.map literals_of f)))
              (List.map fst (DPLL.count_literals (List.map literals_of f)))
              (s1 ++ [ListObj []]) [])
    as (s2 & Hrun2 & K2 & L2 & HP).
  { apply ints_at_Some. apply alloc_lookup. }
  rewrite Hrun2. cbn [mbind option_bind].
  rewrite length_app in L2. simpl in L2.
  exists s2. replace (S (length s)) with (length s1) by lia.
  split; [reflexivity|]. split; [|split; [lia | exact HP]].
  apply (kept_step nowhere (eq (length s1)) s (s1 ++ [ListObj []]) s2);
    [| assumption | intros a <-; lia].
  apply kept_then_alloc.
  apply (kept_step nowhere (eq (length s)) s (s ++ [DictObj []]) s1);
    [apply kept_alloc | assumption | intros a <-; lia].
Qed.

(** The appends to the assignment list. *)
Lemma store_append_each A :
  ∀ literals (s : store) assigned,
    ints_at s A = Some assigned →
    ∃ s',
      append_each A literals s = Some s' ∧
      kept (eq A) s s' ∧ length s' = length s ∧
      ints_at s' A = Some (assigned ++ literals).
Proof.
  induction literals as [|l literals IH]; intros s assigned HA.
  - exists s. split; [reflexivity|]. split; [apply kept_refl|].
    split; [reflexivity|]. now rewrite app_nil_r.
  - cbn [append_each].
    pose proof (ints_at_inv _ _ _ HA) as HA'.
    pose proof (lookup_lt_Some _ _ _ HA') as Hlt.
    destruct (append_spec A (Int l) s (Int <$> assigned)) as [Ha _];
      [now apply list_at_Some|].
    rewrite Ha. cbn [mbind option_bind].
    destruct (IH (<[A := ListObj ((Int <$> assigned) ++ [Int l])]> s)
                 (assigned ++ [l])) as (s' & Hrun & K & L & HA'').
    { apply ints_at_Some. rewrite fmap_app. now apply list_lookup_insert_eq. }
    exists s'. split; [exact Hrun|].
    split; [|split; [now rewrite L, length_insert|]].
    + apply (kept_trans _ _ _ _ (kept_write (eq A) A _ s eq_refl) K).
    + now rewrite <- app_assoc in HA''.
Qed.

(** The copies handed to a recursive call. *)
Lemma store_copy_clauses :
  ∀ items clauses (s : store),
    decoded s items (List.map PyList clauses) →
    ∃ s' copied,
      copy_clauses items s = Some (copied, s') ∧
      kept nowhere s s' ∧
      decoded s' copied (List.map PyList clauses) ∧
      made_after s copied.
Proof.
  induction items as [|v items IH]; intros clauses s Hd.
  - destruct clauses; inversion Hd. exists s, [].
    split; [reflexivity|]. split; [apply kept_refl|]. split; constructor.
  - destruct clauses as [|clause clauses]; inversion Hd as [|? ? ? ? Hv Hd']; subst.
    destruct v as [n | a | x]; try discriminate.
    assert (s !! a = Some (ListObj (Int <$> clause))) as Ha.
    { simpl in Hv. destruct (s !! a) as [[literals| | |]|]; try discriminate.
      destruct (mapM int_of literals) as [l|] eqn:E; [|discriminate].
      injection Hv as ->. now rewrite (ints_of_inv _ _ E). }
    cbn [copy_clauses]. rewrite (proj2 (list_at_Some _ _ _) Ha).
    cbn [mbind option_bind alloc].
    set (s1 := s ++ [ListObj (Int <$> clause)]).
    destruct (IH clauses s1) as (s' & copied & Hrun & K & Hd'' & Hm);
      [now apply decoded_alloc|].
    rewrite Hrun. cbn [mbind option_bind].
    exists s', (Ref (length s) :: copied). split; [reflexivity|].
    split; [now apply (kept_trans _ _ s1); [apply kept_alloc|]|].
    split.
    + cbn [List.map]. constructor; [|assumption].
      apply (clause_at_kept nowhere s1 s'); [assumption | | intros ? _ []].
      apply clause_at_alloc_list.
    + constructor; [eauto|]. apply (made_after_mono _ s1); [assumption|].
      unfold s1. rewrite length_app. lia.
Qed.

Lemma kept_next A (W : nat → Prop) (s s1 s2 : store) :
  kept (eq A) s s1 → kept W s1 s2 →
  (∀ a, W a → a = A ∨ length s ≤ a) →
  kept (eq A) s s2.
Proof.
  intros K1 K2 HW. apply (kept_step (eq A) W s s1 s2 K1 K2).
  intros a Hw Ha. destruct (HW a Hw); [congruence | lia].
Qed.

#[local] Arguments simplify : simpl never.
#[local] Arguments DPLL.find_unit_clause : simpl never.

Lemma store_unit_propagate A :
  ∀ fuel C (s : store) f assigned r final tr,
    holds s C f A → ints_at s A = Some assigned →
    DPLL.unit_propagate fuel (List.map literals_of f) assigned
    = Some (r, final, tr) →
    ∃ s' r',
      unit_propagate fuel C A s = Some (r', s') ∧
      kept (eq A) s s' ∧
      ints_at s' A = Some final ∧
      match r with
      | None => r' = None
      | Some clauses =>
          ∃ C' f', r' = Some C' ∧ holds s' C' f' A ∧
                   List.map literals_of f' = clauses
      end.
Proof.
  induction fuel as [|fuel IH]; intros C s f assigned r final tr Hh HA Hp.
  - cbn [DPLL.unit_propagate unit_propagate] in *. unfold find_unit_clause.
    rewrite (clauses_at_holds _ _ _ _ Hh). cbn [fmap option_fmap option_map mbind option_bind].
    destruct (DPLL.find_unit_clause (List.map literals_of f)); [discriminate|].
    injection Hp as <- <- <-. exists s, (Some C).
    split; [reflexivity|]. split; [apply kept_refl|]. split; [assumption|].
    exists C, f. auto.
  - cbn [DPLL.unit_propagate unit_propagate] in *. unfold find_unit_clause.
    rewrite (clauses_at_holds _ _ _ _ Hh). cbn [fmap option_fmap option_map mbind option_bind].
    destruct (DPLL.find_unit_clause (List.map literals_of f)) as [u|].
    2:{ injection Hp as <- <- <-. exists s, (Some C).
        split; [reflexivity|]. split; [apply kept_refl|]. split; [assumption|].
        exists C, f. auto. }
    pose proof (ints_at_inv _ _ _ HA) as HA'.
    pose proof (lookup_lt_Some _ _ _ HA') as HAlt.
    destruct (append_spec A (Int u) s (Int <$> assigned)) as [Ha _];
      [now apply list_at_Some|].
    rewrite Ha. cbn [mbind option_bind alloc].
    set (s1 := <[A := ListObj ((Int <$> assigned) ++ [Int u])]> s).
    assert (kept (eq A) s s1) as K1 by now apply kept_write.
    assert (length s1 = length s) as L1 by apply length_insert.
    assert (ints_at s1 A = Some (assigned ++ [u])) as HA1.
    { apply ints_at_Some. rewrite fmap_app. now apply list_lookup_insert_eq. }
    set (s2 := s1 ++ [ListObj [Int u]]).
    assert (kept (eq A) s s2) as K2 by now apply kept_then_alloc.
    assert (holds s2 C f A) as Hh2.
    { apply (holds_kept (eq A) s); [assumption.. |]. now left. }
    destruct (store_simplify C (length s1) s2 f [u])
      as (s3 & Hrun3 & K3 & Hnew3).
    { now apply (holds_formula_at _ _ _ A). }
    { apply (ints_at_Some s2 (length s1) [u]). apply alloc_lookup. }
    rewrite Hrun3. cbn [mbind option_bind].
    assert (length s2 = S (length s)) as L2
      by (unfold s2; rewrite length_app; simpl; lia).
    assert (kept (eq A) s s3) as K03.
    { apply (kept_next A nowhere s s2 s3); [assumption.. |]. intros ? []. }
    assert (ints_at s3 A = Some (assigned ++ [u])) as HA3.
    { apply (ints_at_kept nowhere s2); [assumption | | intros []].
      apply (ints_at_kept nowhere s1); [apply kept_alloc | assumption | intros []]. }
    destruct (DPLL.simplify (List.map literals_of f) [u]) as [clauses|].
    + destruct (Hnew3 clauses eq_refl) as (new & Hl & Hd & Hm).
      destruct (DPLL.unit_propagate fuel clauses (assigned ++ [u]))
        as [[[r0 final0] tr0]|] eqn:Hrec; [|discriminate].
      injection Hp as <- <- <-.
      destruct (IH (length s2) s3 (List.map PyList clauses) (assigned ++ [u])
                  r0 final0 tr0) as (s' & r' & Hrun & K' & HA'' & Hr).
      { apply (holds_new s2 s3 _ new); [assumption.. | lia | lia]. }
      { assumption. }
      { now rewrite literals_of_PyList. }
      exists s', r'. split; [exact Hrun|].
      split; [|split; assumption].
      apply (kept_next A (eq A) s s3 s'); [assumption.. |]. now left.
    + injection Hp as <- <- <-. exists s3, None.
      split; [reflexivity|]. split; [assumption|]. split; [assumption|].
      reflexivity.
Qed.

(** What a call of [dpll] over the store has to do with the outcome [o]
    of [DPLL.dpll]: the same verdict, the assignment list of the caller
    with the contents the outcome gives it and nothing else written to,
    and for a witness the list object that holds it. *)
Definition agrees (o : DPLL.outcome) (A : nat) (s : store)
    (r : option (bool * option nat * store)) : Prop :=
  ∃ s' w,
    r = Some (DPLL.sat o, w, s') ∧
    kept (eq A) s s' ∧
    ints_at s' A = Some (DPLL.caller_assignment o) ∧
    match DPLL.result o with
    | Some witness => ∃ a, w = Some a ∧ ints_at s' a = Some witness
    | None => w = None
    end.

#[local] Arguments copy_clauses : simpl never.

Lemma store_branch call C A (s : store) clauses assigned value o :
  (∀ C' A' (s' : store),
     holds s' C' (List.map PyList clauses) A' →
     ints_at s' A' = Some (assigned ++ [value]) →
     agrees o A' s' (call C' A' s')) →
  holds s C (List.map PyList clauses) A →
  ints_at s A = Some assigned →
  ∃ s' w,
    branch call C A value s = Some (DPLL.sat o, w, s') ∧
    kept nowhere s s' ∧
    match DPLL.result o with
    | Some witness => ∃ a, w = Some a ∧ ints_at s' a = Some witness
    | None => w = None
    end.
Proof.
  intros Hcall (HCA & items & Hl & Hd & Ho) HA.
  unfold branch. rewrite Hl. cbn [mbind option_bind].
  destruct (store_copy_clauses items clauses s Hd)
    as (s1 & copied & Hrun1 & K1 & Hd1 & Hm1).
  rewrite Hrun1. cbn [mbind option_bind alloc].
  set (s2 := s1 ++ [ListObj copied]).
  assert (length s ≤ length s1) as L1 by apply K1.
  assert (length s2 = S (length s1)) as L2
    by (unfold s2; rewrite length_app; simpl; lia).
  pose proof (ints_at_inv _ _ _ HA) as HA'.
  assert (list_at s2 A = Some (Int <$> assigned)) as HA2.
  { apply list_at_Some. unfold s2. apply lookup_app_l_Some.
    apply (kept_lookup nowhere s s1); [assumption.. | intros []]. }
  rewrite HA2. cbn [mbind option_bind alloc].
  set (s3 := s2 ++ [ListObj ((Int <$> assigned) ++ [Int value])]).
  destruct (Hcall (length s1) (length s2) s3) as (s4 & w & Hrun & K4 & _ & Hres).
  - split; [lia|]. exists copied. split; [|split].
    + unfold s3. apply list_at_alloc. apply alloc_list_at.
    + unfold s3, s2. now apply decoded_alloc, decoded_alloc.
    + apply (decoded_outside s1 _ _ _ Hd1). intros a <-. lia.
  - apply ints_at_Some. unfold s3.
    replace ((Int <$> assigned) ++ [Int value]) with (Int <$> (assigned ++ [value]))
      by now rewrite fmap_app.
    apply alloc_lookup.
  - exists s4, w. split; [exact Hrun|]. split; [|exact Hres].
    apply (kept_step nowhere (eq (length s2)) s s3 s4); [|assumption|].
    + unfold s3, s2. now repeat apply kept_then_alloc.
    + intros a <-. lia.
Qed.

#[local] Arguments unit_propagate : simpl never.
#[local] Arguments find_pure_literals : simpl never.
#[local] Arguments append_each : simpl never.
#[local] Arguments branch : simpl never.

Lemma kept_nowhere A (s s' : store) : kept nowhere s s' → kept (eq A) s s'.
Proof.
  intros K. apply (kept_next A nowhere s s s'); [apply kept_refl | assumption|].
  intros ? [].
Qed.

Lemma store_dpll :
  ∀ fuel C A (s : store) f assigned o,
    holds s C f A → ints_at s A = Some assigned →
    DPLL.dpll fuel (List.map literals_of f) assigned = Some o →
    agrees o A s (dpll fuel C A s).
Proof.
  induction fuel as [|fuel IH]; intros C A s f assigned o Hh HA Hp;
    [discriminate|].
  rewrite DPLL.dpll_S in Hp. unfold DPLL.dpll_rules in Hp.
  pose proof (ints_at_lt _ _ _ HA) as HAlt.
  unfold agrees. cbn [dpll].
  destruct (store_simplify C A s f assigned (holds_formula_at _ _ _ _ Hh) HA)
    as (s1 & Hrun1 & K1 & Hnew1).
  rewrite Hrun1. cbn [mbind option_bind].
  assert (kept (eq A) s s1) as K01 by now apply kept_nowhere.
  assert (ints_at s1 A = Some assigned) as HA1
    by (apply (ints_at_kept nowhere s); [assumption.. | intros []]).
  destruct (DPLL.simplify (List.map literals_of f) assigned) as [cls1|].
  2:{ injection Hp as <-. exists s1, None. cbn. auto. }
  destruct (Hnew1 cls1 eq_refl) as (new1 & Hl1 & Hd1 & Hm1).
  rewrite Hl1. cbn [mbind option_bind].
  assert (length new1 = length cls1) as Hlen.
  { rewrite (Forall2_length _ _ _ Hd1). apply length_map. }
  assert (holds s1 (length s) (List.map PyList cls1) A) as Hh1.
  { apply (holds_new s s1 _ new1); [assumption.. | lia | lia]. }
  destruct cls1 as [|c1 cls1'].
  { destruct new1; [|discriminate]. injection Hp as <-.
    exists s1, (Some A). cbn. eauto 6. }
  destruct new1 as [|v1 new1']; [discriminate|].
  cbv match in Hp. cbv match.
  destruct (DPLL.unit_propagate (length (c1 :: cls1')) (c1 :: cls1') assigned)
    as [[[r final] tr1]|] eqn:Hup; [|discriminate].
  destruct (store_unit_propagate A (length (c1 :: cls1')) (length s) s1
              (List.map PyList (c1 :: cls1')) assigned r final tr1)
    as (s2 & r' & Hrun2 & K2 & HA2 & Hr);
    [assumption | assumption | now rewrite literals_of_PyList |].
  rewrite Hlen, Hrun2. cbn [mbind option_bind].
  assert (kept (eq A) s s2) as K02.
  { apply (kept_next A (eq A) s s1 s2); [assumption.. |]. now left. }
  destruct r as [cls2|].
  2:{ subst r'. injection Hp as <-. exists s2, None. cbn. auto. }
  destruct Hr as (C2 & f2 & -> & Hh2 & Ef2).
  destruct (store_find_pure_literals C2 s2 f2 A Hh2)
    as (s3 & Hrun3 & K3 & L3 & HP3).
  rewrite Hrun3. cbn [mbind option_bind]. rewrite HP3. cbn [mbind option_bind].
  rewrite Ef2 in *.
  cbv zeta in Hp.
  pose proof (proj1 (DPLL.append_each_spec final (DPLL.find_pure_literals cls2)))
    as Happ.
  destruct (DPLL.append_each final (DPLL.find_pure_literals cls2))
    as [A' tr2]. cbn [fst] in Happ. subst A'.
  set (pure := DPLL.find_pure_literals cls2) in *.
  assert (length s ≤ length s2) as L02 by apply K02.
  assert (ints_at s3 A = Some final) as HA3
    by (apply (ints_at_kept nowhere s2); [assumption.. | intros []]).
  destruct (store_append_each A pure s3 final HA3)
    as (s4 & Hrun4 & K4 & L4 & HA4).
  rewrite Hrun4. cbn [mbind option_bind].
  assert (holds s4 C2 f2 A) as Hh4.
  { apply (holds_kept (eq A) s3); [|assumption | now left].
    apply (holds_kept nowhere s2); [assumption.. | intros ? []]. }
  assert (ints_at s4 (S (length s2)) = Some pure) as HP4.
  { apply (ints_at_kept (eq A) s3); [assumption.. | lia]. }
  destruct (store_simplify C2 (S (length s2)) s4 f2 pure
              (holds_formula_at _ _ _ _ Hh4) HP4)
    as (s5 & Hrun5 & K5 & Hnew5).
  rewrite Hrun5. cbn [mbind option_bind]. rewrite Ef2 in *.
  assert (kept (eq A) s s5) as K05.
  { apply (kept_next A nowhere s s4 s5); [|assumption | intros ? []].
    apply (kept_next A (eq A) s s3 s4); [|assumption | now left].
    apply (kept_next A nowhere s s2 s3); [assumption.. | intros ? []]. }
  assert (ints_at s5 A = Some (final ++ pure)) as HA5
    by (apply (ints_at_kept nowhere s4); [assumption.. | intros []]).
  destruct (DPLL.simplify cls2 pure) as [cls3|].
  2:{ injection Hp as <-. exists s5, None. cbn. auto. }
  destruct (Hnew5 cls3 eq_refl) as (new5 & Hl5 & Hd5 & Hm5).
  assert (holds s5 (length s4) (List.map PyList cls3) A) as Hh5.
  { apply (holds_new s4 s5 _ new5); [assumption.. | lia | lia]. }
  unfold choose_literal. rewrite (clauses_at_holds _ _ _ _ Hh5).
  rewrite literals_of_PyList.
  cbn [fmap option_fmap option_map mbind option_bind].
  destruct (DPLL.choose_literal cls3) as [variable|].
  2:{ injection Hp as <-. exists s5, (Some A). cbn. eauto 6. }
  destruct (DPLL.dpll fuel cls3 ((final ++ pure) ++ [variable]))
    as [o1|] eqn:Ho1; [|discriminate].
  destruct (store_branch (dpll fuel) (length s4) A s5 cls3 (final ++ pure)
              variable o1) as (s6 & w1 & Hrun6 & K6 & Hres6);
    [|assumption | assumption |].
  { intros C' A' s' Hh' HA''.
    apply (IH C' A' s' (List.map PyList cls3) _ o1 Hh' HA'').
    now rewrite literals_of_PyList. }
  rewrite Hrun6. cbn [mbind option_bind].
  assert (kept (eq A) s s6) as K06.
  { apply (kept_next A nowhere s s5 s6); [assumption.. | intros ? []]. }
  assert (ints_at s6 A = Some (final ++ pure)) as HA6
    by (apply (ints_at_kept nowhere s5); [assumption.. | intros []]).
  destruct (DPLL.sat o1) eqn:Hsat1.
  { injection Hp as <-. exists s6, w1. cbn. auto. }
  destruct (DPLL.dpll fuel cls3 ((final ++ pure) ++ [(- variable)%Z]))
    as [o2|] eqn:Ho2; [|discriminate].
  destruct (store_branch (dpll fuel) (length s4) A s6 cls3 (final ++ pure)
              (- variable)%Z o2) as (s7 & w2 & Hrun7 & K7 & Hres7);
    [| | assumption |].
  { intros C' A' s' Hh' HA''.
    apply (IH C' A' s' (List.map PyList cls3) _ o2 Hh' HA'').
    now rewrite literals_of_PyList. }
  { apply (holds_kept nowhere s5); [assumption.. | intros ? []]. }
  rewrite Hrun7. cbn [mbind option_bind].
  assert (kept (eq A) s s7) as K07.
  { apply (kept_next A nowhere s s6 s7); [assumption.. | intros ? []]. }
  assert (ints_at s7 A = Some (final ++ pure)) as HA7
    by (apply (ints_at_kept nowhere s6); [assumption.. | intros []]).
  destruct (DPLL.sat o2) eqn:Hsat2.
  - injection Hp as <-. exists s7, w2. cbn. auto.
  - injection Hp as <-. exists s7, None. cbn. auto.
Qed.

(** ** What a call leaves of its arguments *)

Lemma formula_at_kept W (s s' : store) C f :
  formula_at s C = Some f → kept W s s' →
  (∀ a, W a → a < length s → a ≠ C ∧ ∀ items, list_at s C = Some items →
                                       Ref a ∉ items) →
  formula_at s' C = Some f.
Proof.
  intros Hf K HW. apply formula_at_decoded in Hf.
  destruct Hf as (items & Hl & Hd).
  pose proof (list_at_lt _ _ _ Hl) as HClt.
  apply formula_at_decoded. exists items. split.
  - apply (list_at_kept W s); [assumption.. |]. intros Hw.
    now destruct (HW C Hw HClt).
  - apply (decoded_kept W s); [assumption.. |].
    pose proof (decoded_lt _ _ _ Hd) as Hlt.
    unfold outside. rewrite Forall_forall in *. intros v Hv a -> Hw.
    destruct (HW a Hw (Hlt _ Hv a eq_refl)) as [_ Hn].
    now apply (Hn items Hl).
Qed.

Lemma kept_all W (s s' : store) :
  kept W s s' → ∀ a o, ¬ W a → s !! a = Some o → s' !! a = Some o.
Proof. intros K a o Hn Ha. now apply (kept_lookup W s s'). Qed.

(** C9, amended (effects on the arguments), over the store of objects.
    Whatever the store, the formula at [clauses] is left as it is by a
    call of [dp], of [resolution] and of [dpll], and so is every other
    object that exists when the call is made, but one: [dpll] writes to
    the assignment list [A] passed by the caller, which after the call
    holds what it held before followed by the literals that the unit and
    pure-literal rules of that call appended.  The witness returned is a
    list object that contains every literal of the caller's list.  Each
    call over the store returns what the engine returns on the formula
    read from the store. *)
Theorem engines_leave_formula_unchanged :
  (∀ variables clauses (s : store) f,
     formula_at s clauses = Some f →
     ∃ s',
       dp_popping variables clauses s
       = Some (DP.dp_popping variables f, s') ∧
       (∀ a o, s !! a = Some o → s' !! a = Some o) ∧
       formula_at s' clauses = Some f) ∧
  (∀ fuel clauses_set (s : store) f sat,
     formula_at s clauses_set = Some f →
     Resolution.resolution fuel (List.map literals_of f) = Some sat →
     ∃ s',
       resolution fuel clauses_set s = Some (sat, s') ∧
       (∀ a o, s !! a = Some o → s' !! a = Some o) ∧
       formula_at s' clauses_set = Some f) ∧
  (∀ fuel clauses A (s : store) f items assigned o,
     list_at s clauses = Some items →
     formula_at s clauses = Some f →
     ints_at s A = Some assigned →
     A ≠ clauses → Ref A ∉ items →
     DPLL.dpll fuel (List.map literals_of f) assigned = Some o →
     ∃ s' w,
       dpll fuel clauses A s = Some (DPLL.sat o, w, s') ∧
       (∀ a ob, a ≠ A → s !! a = Some ob → s' !! a = Some ob) ∧
       formula_at s' clauses = Some f ∧
       ints_at s' A = Some (DPLL.caller_assignment o) ∧
       (∃ literals, DPLL.caller_assignment o = assigned ++ literals) ∧
       (∀ witness, DPLL.result o = Some witness →
          (∃ a, w = Some a ∧ ints_at s' a = Some witness) ∧
          incl (DPLL.caller_assignment o) witness)).
Proof.
  split; [|split].
  - intros variables clauses s f Hf.
    destruct (store_dp_popping variables clauses s f Hf) as (s' & Hrun & K).
    exists s'. split; [exact Hrun|]. split.
    + intros a o. apply (kept_all _ _ _ K). intros [].
    + apply (formula_at_kept nowhere s); [assumption.. |]. intros ? [].
  - intros fuel clauses_set s f sat Hf Hsat.
    destruct (store_resolution fuel clauses_set s f sat Hf Hsat)
      as (s' & Hrun & K).
    exists s'. split; [exact Hrun|]. split.
    + intros a o. apply (kept_all _ _ _ K). intros [].
    + apply (formula_at_kept nowhere s); [assumption.. |]. intros ? [].
  - intros fuel clauses A s f items assigned o Hl Hf HA HAC HAi Hp.
    assert (holds s clauses f A) as Hh.
    { split; [congruence|]. exists items. split; [assumption|].
      apply formula_at_decoded in Hf. destruct Hf as (items' & Hl' & Hd).
      assert (items' = items) as -> by congruence.
      split; [assumption|]. unfold outside. apply Forall_forall.
      intros v Hv a -> <-. contradiction. }
    destruct (store_dpll fuel clauses A s f assigned o Hh HA Hp)
      as (s' & w & Hrun & K & HA' & Hres).
    exists s', w. split; [exact Hrun|]. split; [|split; [|split; [|split]]].
    + intros a ob Ha. apply (kept_all _ _ _ K). congruence.
    + apply (holds_formula_at _ _ _ A).
      apply (holds_kept (eq A) s); [assumption.. |]. now left.
    + assumption.
    + apply (DPLL.dpll_extends _ _ _ _ Hp).
    + intros witness Hw. rewrite Hw in Hres. split; [assumption|].
      apply (DPLL.dpll_result_extends _ _ _ _ Hp _ Hw).
Qed.

(** The formula [[[1, 2], [-1]]] at address 0, its clauses at 1 and 2, and
    an empty list at 3. *)
Definition example_store : store :=
  [ListObj [Ref 1; Ref 2]; ListObj [Int 1; Int 2]; ListObj [Int (-1)];
   ListObj []]%Z.

Lemma engines_leave_formula_unchanged_example :
  (∃ s',
     dp_popping [1; 2]%Z 0 example_store
     = Some (DP.dp_popping [1; 2]%Z [PyList [1; 2]; PyList [-1]]%Z, s') ∧
     (∀ a o, example_store !! a = Some o → s' !! a = Some o) ∧
     formula_at s' 0 = Some [PyList [1; 2]; PyList [-1]]%Z) ∧
  (∃ s',
     resolution 2 0 example_store = Some (true, s') ∧
     (∀ a o, example_store !! a = Some o → s' !! a = Some o) ∧
     formula_at s' 0 = Some [PyList [1; 2]; PyList [-1]]%Z) ∧
  (∃ s' w,
     dpll 4 0 3 example_store = Some (true, w, s') ∧
     (∀ a ob, a ≠ 3 → example_store !! a = Some ob → s' !! a = Some ob) ∧
     formula_at s' 0 = Some [PyList [1; 2]; PyList [-1]]%Z ∧
     ints_at s' 3 = Some [-1; 2]%Z ∧
     (∃ literals, [-1; 2]%Z = [] ++ literals) ∧
     (∀ witness, Some [-1; 2]%Z = Some witness →
        (∃ a, w = Some a ∧ ints_at s' a = Some witness) ∧
        incl [-1; 2]%Z witness)).
Proof.
  destruct engines_leave_formula_unchanged as (Hdp & Hres & Hdpll).
  split; [|split].
  - apply (Hdp [1; 2]%Z 0 example_store _ eq_refl).
  - apply (Hres 2 0 example_store [PyList [1; 2]; PyList [-1]]%Z true eq_refl).
    vm_compute. reflexivity.
  - apply (Hdpll 4 0 3 example_store [PyList [1; 2]; PyList [-1]]%Z
             [Ref 1; Ref 2] []
             (DPLL.Outcome true (Some [-1; 2]%Z) [-1; 2]%Z [[-1]; [-1; 2]]%Z)
             eq_refl eq_refl eq_refl).
    + discriminate.
    + intros H. apply list_elem_of_In in H. simpl in H.
      destruct H as [H | [H | []]]; discriminate.
    + reflexivity.
Defined.

(** The hypothesis on [A] is needed.  The call [dpll(f, f[0])] on
    [f = [[1], [2]]] passes a clause of the formula as the assignment
    list: unit propagation appends 2 to it, and the formula at address 0
    now reads [[[1, 2], [2]]]. *)
Example dpll_aliased_example :
  dpll 4 0 1 [ListObj [Ref 1; Ref 2]; ListObj [Int 1]; ListObj [Int 2]]%Z
  = Some (true, Some 1,
          [ListObj [Ref 1; Ref 2]; ListObj [Int 1; Int 2]; ListObj [Int 2];
           ListObj [Ref 4]; ListObj [Int 2]; ListObj [Int 2]; ListObj [];
           DictObj []; ListObj []; ListObj []]%Z).
Proof. vm_compute. reflexivity. Qed.

End Store.

(** ** Agreement on formulas without tautologies and empty clauses *)

(** No clause is empty and none holds a literal with its negation. *)
Definition clean (clauses : list (list Z)) : Prop :=
  forall clause, In clause clauses ->
    clause <> [] /\ forall l, In l clause -> ~ In (- l) clause.

Lemma clean_formula formula :
  clean (map literals_of formula) ->
  DP.tautology_free formula /\ DP.no_empty formula.
Proof.
  intros Hclean. split; intros clause Hc;
    destruct (Hclean (literals_of clause) (in_map literals_of _ _ Hc)) as [H1 H2].
  - destruct (DP.is_tautology (literals_of clause)) eqn:E; [|reflexivity].
    apply DP.is_tautology_true in E. destruct E as [l [Hl Hn]].
    exfalso. apply (H2 l Hl Hn).
  - assumption.
Qed.

Lemma formula_true_map v formula :
  DP.formula_true v formula <->
  forall clause, In clause (map literals_of formula) -> clause_true v clause = true.
Proof.
  unfold DP.formula_true. split.
  - intros H clause Hc. apply in_map_iff in Hc.
    destruct Hc as [c [<- Hc]]. now apply H.
  - intros H clause Hc. apply H. now apply in_map.
Qed.

Lemma bool_same_iff (a b : bool) (P : Prop) :
  (a = true <-> P) -> (b = true <-> P) -> a = b.
Proof. destruct a, b; intuition congruence. Qed.

Lemma engines_agree formula variables :
  clean (map literals_of formula) ->
  NoDup variables ->
  (forall x, In x variables <-> In x (DP.variables_of formula)) ->
  exists o sat,
    DPLL.dpll (DPLL.dpll_fuel (map literals_of formula))
      (map literals_of formula) [] = Some o /\
    Resolution.resolution (Resolution.resolution_fuel (map literals_of formula))
      (map literals_of formula) = Some sat /\
    DPLL.sat o = sat /\
    DP.dp_popping variables formula = sat /\
    (sat = true <->
     exists v, forall clause, In clause (map literals_of formula) ->
                 clause_true v clause = true).
Proof.
  intros Hclean Hnd Hvars.
  set (clauses := map literals_of formula) in *.
  destruct (DPLL.dpll_correct clauses) as [o [Ho Hdpll]].
  destruct (Resolution.resolution_decides_In clauses) as [sat [Hres Hsat]].
  { intros clause l Hc. now apply (Hclean clause Hc). }
  { intros H. now apply (Hclean [] H). }
  destruct (clean_formula formula Hclean) as [Htaut Hne].
  pose proof (DP.dp_correct formula variables Hnd Hvars Htaut Hne) as Hdp.
  assert (DP.dp_popping variables formula = true <->
          exists v, forall clause, In clause clauses ->
                      clause_true v clause = true) as Hdp'.
  { rewrite Hdp. split; intros [v Hv]; exists v; now apply formula_true_map. }
  assert (forall c, In c clauses -> ~ In 0 c) as Hzero.
  { intros c Hc H0. apply (proj2 (Hclean c Hc) 0 H0). exact H0. }
  rewrite (satisfiable_valuation clauses Hzero) in Hdpll.
  exists o, sat. split; [assumption|]. split; [assumption|].
  split; [exact (bool_same_iff _ _ _ Hdpll Hsat)|].
  split; [|assumption].
  apply (bool_same_iff _ _ _ Hdp' Hsat).
Qed.

(** On a formula without tautologies and without empty clauses the three
    engines return, and return the same verdict: SAT exactly when some
    valuation makes every clause true.  [dp] may receive its clauses as
    sets or as lists and pop the variables in any order. *)
Theorem engines_agree_on_clean formula variables :
  clean (map literals_of formula) ->
  NoDup variables ->
  (forall x, In x variables <-> In x (DP.variables_of formula)) ->
  exists o sat,
    DPLL.dpll (DPLL.dpll_fuel (map literals_of formula))
      (map literals_of formula) [] = Some o /\
    Resolution.resolution (Resolution.resolution_fuel (map literals_of formula))
      (map literals_of formula) = Some sat /\
    DPLL.sat o = sat /\
    DP.dp_popping variables formula = sat /\
    (sat = true <->
     exists v, forall clause, In clause (map literals_of formula) ->
                 clause_true v clause = true).
Proof. exact (engines_agree formula variables). Qed.

Lemma engines_agree_on_clean_example :
  clean (map literals_of [PySet [1; 2]; PySet [-1; 2]; PySet [1; -2]]) /\
  NoDup [2; 1] /\
  exists o sat,
    DPLL.dpll (DPLL.dpll_fuel [[1; 2]; [-1; 2]; [1; -2]])
      [[1; 2]; [-1; 2]; [1; -2]] [] = Some o /\
    Resolution.resolution (Resolution.resolution_fuel [[1; 2]; [-1; 2]; [1; -2]])
      [[1; 2]; [-1; 2]; [1; -2]] = Some sat /\
    DPLL.sat o = sat /\
    DP.dp_popping [2; 1] [PySet [1; 2]; PySet [-1; 2]; PySet [1; -2]] = sat /\
    (sat = true <->
     exists v, forall clause, In clause [[1; 2]; [-1; 2]; [1; -2]] ->
                 clause_true v clause = true).
Proof.
  assert (clean (map literals_of [PySet [1; 2]; PySet [-1; 2]; PySet [1; -2]]))
    as Hclean.
  { intros clause [<- | [<- | [<- | []]]]; (split; [discriminate|]);
      intros l Hl Hn; simpl in Hl, Hn; lia. }
  assert (NoDup [2; 1]) as Hnd.
  { constructor; [simpl; intros [H | []]; discriminate|].
    constructor; [intros []|constructor]. }
  split; [exact Hclean|]. split; [exact Hnd|].
  apply (engines_agree_on_clean
           [PySet [1; 2]; PySet [-1; 2]; PySet [1; -2]] [2; 1] Hclean Hnd).
  intros x. simpl. tauto.
Defined.

(** * The harness ([run_dp], [run_resolution], [run_dpll])

    What the three [run_*] functions write for a folder: the header and
    one row per file, each row without its last cell, the elapsed time.
    A subfolder is given as [os.listdir] gives it, the names in its order,
    each with the lines of the file of that name.  The clock, the paths
    and the CSV file are outside the model, and so is the row written when
    opening a file or the solver raises. *)

Module Harness.
Import String.
Local Open Scope string_scope.

(** ["SAT" if is_sat else "UNSAT"]. *)
Definition solver_result (is_sat : bool) : string :=
  if is_sat then "SAT" else "UNSAT".

(** ["Yes" if solver_result == expected_result else "No"]. *)
Definition is_correct (result expected_result : string) : string :=
  if (result =? expected_result)%string then "Yes" else "No".

(** The cells [Filename], [Expected], [Solver Result] and [Correct?]. *)
Record row := Row {
  filename : string;
  expected : string;
  result : string;
  correct : string
}.

Definition header : row := Row "Filename" "Expected" "Solver Result" "Correct?".

Definition make_row (name expected_result : string) (is_sat : bool) : row :=
  Row name expected_result (solver_result is_sat)
    (is_correct (solver_result is_sat) expected_result).

(** The body of the loop of [run_dp] for one file: the file is read with
    [as_sets=True]; [variables] is the order in which the set of variables
    is popped. *)
Definition dp_row (variables : list Z) (name expected_result : string)
    (lines : list string) : row :=
  make_row name expected_result
    (DP.dp_popping variables (Parser.parse_cnf_file lines true)).

(** The body of the loop of [run_resolution(..., "resolution")]: the file
    is read with [as_sets=True] and [resolution] makes frozensets of the
    clauses. *)
Definition resolution_row (name expected_result : string) (lines : list string)
  : option row :=
  let clauses := map literals_of (Parser.parse_cnf_file lines true) in
  option_map (make_row name expected_result)
    (Resolution.resolution (Resolution.resolution_fuel clauses) clauses).

(** The body of the loop of [run_dpll(..., "dpll")]: the file is read with
    [as_sets=False], and [is_sat] is the first component of what
    [dpll(clauses, [])] returns. *)
Definition dpll_row (name expected_result : string) (lines : list string)
  : option row :=
  let clauses := map literals_of (Parser.parse_cnf_file lines false) in
  option_map (fun o => make_row name expected_result (DPLL.sat o))
    (DPLL.dpll (DPLL.dpll_fuel clauses) clauses []).

(** A file of a subfolder: its name and its lines. *)
Definition file : Type := string * list string.

(** A subfolder: [None] when [os.path.exists(subfolder_path)] is false. *)
Definition subfolder : Type := option (list file).

(** [name.endswith(suffix)]. *)
Definition endswith (name suffix : string) : bool :=
  (length suffix <=? length name)%nat
  && (substring (length name - length suffix) (length suffix) name =? suffix).

(** The files of a subfolder whose name ends in [.cnf], in the order of
    the listing; none when the subfolder does not exist. *)
Definition cnf_files (sub : subfolder) : list file :=
  match sub with
  | None => []
  | Some files => filter (fun f => endswith (fst f) ".cnf") files
  end.

(** [l[:file_limit]]: a negative limit counts from the end. *)
Definition slice_to {A : Type} (file_limit : Z) (l : list A) : list A :=
  if (file_limit <? 0)%Z
  then firstn (List.length l - Z.to_nat (- file_limit)) l
  else firstn (Z.to_nat file_limit) l.

(** The rows of the files of one subfolder, for a solver that may not
    return. *)
Fixpoint rows_of (row_of : file -> option row) (files : list file)
  : option (list row) :=
  match files with
  | [] => Some []
  | f :: files =>
      match row_of f, rows_of row_of files with
      | Some r, Some rows => Some (r :: rows)
      | _, _ => None
      end
  end.

(** [run_dp(folder_path, results_base_path, file_limit)]: only the first
    [file_limit] files of each subfolder get a row.  [order] gives the
    order in which the set of variables of a formula is popped. *)
Definition run_dp (order : list pyclause -> list Z) (file_limit : Z)
    (sat unsat : subfolder) : list row :=
  let row_of expected_result (f : file) :=
    dp_row (order (Parser.parse_cnf_file (snd f) true))
      (fst f) expected_result (snd f) in
  header
  :: map (row_of "SAT") (slice_to file_limit (cnf_files sat))
  ++ map (row_of "UNSAT") (slice_to file_limit (cnf_files unsat)).

(** [run_resolution(folder_path, results_base_path, "resolution")]. *)
Definition run_resolution (sat unsat : subfolder) : option (list row) :=
  match rows_of (fun f => resolution_row (fst f) "SAT" (snd f)) (cnf_files sat),
        rows_of (fun f => resolution_row (fst f) "UNSAT" (snd f)) (cnf_files unsat)
  with
  | Some sat_rows, Some unsat_rows => Some (header :: sat_rows ++ unsat_rows)
  | _, _ => None
  end.

(** [run_dpll(folder_path, results_base_path, "dpll")]. *)
Definition run_dpll (sat unsat : subfolder) : option (list row) :=
  match rows_of (fun f => dpll_row (fst f) "SAT" (snd f)) (cnf_files sat),
        rows_of (fun f => dpll_row (fst f) "UNSAT" (snd f)) (cnf_files unsat)
  with
  | Some sat_rows, Some unsat_rows => Some (header :: sat_rows ++ unsat_rows)
  | _, _ => None
  end.

Local Close Scope string_scope.

(** No clause read from the text holds a literal and its negation. *)
Definition no_tautology (lines : list string) : Prop :=
  forall clause l,
    In clause (Parser.parse_cnf_file lines false) ->
    In l (literals_of clause) -> ~ In (- l) (literals_of clause).

(** Some valuation makes every clause of the text true. *)
Definition text_satisfiable (lines : list string) : Prop :=
  exists v, forall clause,
    In clause (Parser.parse_cnf_file lines false) ->
    clause_true v (literals_of clause) = true.

(** What the row of a file says, for the expected result of its
    subfolder. *)
Definition row_for (expected_result : string) (f : file) (r : row) : Prop :=
  filename r = fst f /\ expected r = expected_result /\
  (result r = "SAT"%string <-> text_satisfiable (snd f)) /\
  (result r = "UNSAT"%string <-> ~ text_satisfiable (snd f)) /\
  (correct r = "Yes"%string <->
   (expected_result = "SAT"%string <-> text_satisfiable (snd f))).

Lemma clause_true_nodup v clause :
  clause_true v (nodup Z.eq_dec clause) = clause_true v clause.
Proof.
  destruct (clause_true v clause) eqn:E.
  - apply clause_true_iff in E. destruct E as [l [Hl Ht]].
    apply clause_true_iff. exists l. split; [now apply nodup_In | assumption].
  - destruct (clause_true v (nodup Z.eq_dec clause)) eqn:E'; [|reflexivity].
    apply clause_true_iff in E'. destruct E' as [l [Hl Ht]].
    apply nodup_In in Hl.
    assert (clause_true v clause = true); [|congruence].
    apply clause_true_iff. exists l. tauto.
Qed.

Lemma parsed_sets_clean lines :
  no_tautology lines ->
  clean (map literals_of (Parser.parse_cnf_file lines true)).
Proof.
  intros Hnt clause Hc. apply in_map_iff in Hc. destruct Hc as [c [<- Hc]].
  split; [now apply (Parser.parse_cnf_file_nonempty lines true)|].
  rewrite Parser.parse_cnf_file_as_sets in Hc. apply in_map_iff in Hc.
  destruct Hc as [c0 [<- Hc0]]. simpl. intros l Hl Hn.
  apply nodup_In in Hl, Hn. apply (Hnt c0 l Hc0 Hl Hn).
Qed.

(** One file: the three solvers give the same verdict, the right one. *)
Lemma file_verdict lines variables :
  no_tautology lines ->
  NoDup variables ->
  (forall x, In x variables
     <-> In x (DP.variables_of (Parser.parse_cnf_file lines true))) ->
  exists is_sat o,
    DP.dp_popping variables (Parser.parse_cnf_file lines true) = is_sat /\
    Resolution.resolution
      (Resolution.resolution_fuel
         (map literals_of (Parser.parse_cnf_file lines true)))
      (map literals_of (Parser.parse_cnf_file lines true)) = Some is_sat /\
    DPLL.dpll
      (DPLL.dpll_fuel (map literals_of (Parser.parse_cnf_file lines false)))
      (map literals_of (Parser.parse_cnf_file lines false)) [] = Some o /\
    DPLL.sat o = is_sat /\
    (is_sat = true <-> text_satisfiable lines).
Proof.
  intros Hnt Hnd Hvars.
  pose proof (parsed_sets_clean lines Hnt) as Hclean.
  destruct (engines_agree (Parser.parse_cnf_file lines true) variables
              Hclean Hnd Hvars) as [o' [sat [_ [Hres [_ [Hdp Hsat]]]]]].
  set (lists := map literals_of (Parser.parse_cnf_file lines false)).
  destruct (DPLL.dpll_correct lists) as [o [Ho Hdpll]].
  assert (forall c, In c lists -> ~ In 0 c) as Hzero.
  { intros c Hc H0. apply in_map_iff in Hc. destruct Hc as [c0 [<- Hc0]].
    apply (Hnt c0 0 Hc0 H0). exact H0. }
  rewrite (satisfiable_valuation lists Hzero) in Hdpll.
  assert ((exists v, forall clause,
             In clause (map literals_of (Parser.parse_cnf_file lines true)) ->
             clause_true v clause = true) <->
          text_satisfiable lines) as Hsame.
  { unfold text_satisfiable.
    rewrite Parser.parse_cnf_file_as_sets, map_map.
    split; intros [v Hv]; exists v; intros clause Hc.
    - rewrite <- clause_true_nodup.
      apply (Hv (nodup Z.eq_dec (literals_of clause))).
      apply in_map_iff. exists clause. split; [reflexivity | assumption].
    - apply in_map_iff in Hc. destruct Hc as [c0 [<- Hc0]]. simpl.
      rewrite clause_true_nodup. now apply Hv. }
  assert ((exists v, forall c, In c lists -> clause_true v c = true) <->
          text_satisfiable lines) as Hlists.
  { unfold lists, text_satisfiable.
    split; intros [v Hv]; exists v; intros clause Hc.
    - apply Hv. now apply in_map.
    - apply in_map_iff in Hc. destruct Hc as [c0 [<- Hc0]]. now apply Hv. }
  rewrite Hsame in Hsat. rewrite Hlists in Hdpll.
  assert (DPLL.sat o = sat) as Eo by (apply (bool_same_iff _ _ _ Hdpll Hsat)).
  exists sat, o. repeat split; try assumption; apply Hsat.
Qed.

Lemma make_row_for name lines expected_result is_sat :
  expected_result = "SAT"%string \/ expected_result = "UNSAT"%string ->
  (is_sat = true <-> text_satisfiable lines) ->
  row_for expected_result (name, lines) (make_row name expected_result is_sat).
Proof.
  intros Hexp Hsat. unfold row_for, make_row. simpl.
  split; [reflexivity|]. split; [reflexivity|].
  destruct is_sat; simpl.
  - assert (text_satisfiable lines) as Ht by now apply Hsat.
    split; [tauto|]. split; [split; [discriminate | tauto]|].
    destruct Hexp as [-> | ->]; unfold is_correct; simpl.
    + tauto.
    + split; [discriminate|]. intros [_ H]. discriminate (H Ht).
  - assert (~ text_satisfiable lines) as Ht
      by (intros H; apply Hsat in H; discriminate).
    split; [split; [discriminate | tauto]|]. split; [tauto|].
    destruct Hexp as [-> | ->]; unfold is_correct; simpl.
    + split; [discriminate|]. intros [H _]. destruct (Ht (H eq_refl)).
    + split; [intros _|reflexivity]. split; [discriminate | tauto].
Qed.

Lemma slice_to_map {A B : Type} (g : A -> B) file_limit (l : list A) :
  slice_to file_limit (map g l) = map g (slice_to file_limit l).
Proof.
  unfold slice_to. rewrite length_map.
  destruct (file_limit <? 0); apply firstn_map.
Qed.

(** The rows of one subfolder. *)
Lemma subfolder_rows order expected_result files :
  expected_result = "SAT"%string \/ expected_result = "UNSAT"%string ->
  (forall f, In f files -> no_tautology (snd f)) ->
  (forall formula,
     NoDup (order formula) /\
     forall x, In x (order formula) <-> In x (DP.variables_of formula)) ->
  exists rows,
    rows_of (fun f => resolution_row (fst f) expected_result (snd f)) files
    = Some rows /\
    rows_of (fun f => dpll_row (fst f) expected_result (snd f)) files
    = Some rows /\
    map (fun f => dp_row (order (Parser.parse_cnf_file (snd f) true))
                    (fst f) expected_result (snd f)) files = rows /\
    Forall2 (row_for expected_result) files rows.
Proof.
  intros Hexp Hnt Horder. induction files as [|[name lines] files IH].
  - exists []. repeat split. constructor.
  - destruct IH as [rows [H1 [H2 [H3 H4]]]].
    { intros f Hf. apply Hnt. now right. }
    destruct (Horder (Parser.parse_cnf_file lines true)) as [Hnd Hvars].
    destruct (file_verdict lines _ (Hnt (name, lines) (or_introl eq_refl))
                Hnd Hvars) as [is_sat [o [Hdp [Hres [Hdpll [Ho Hsat]]]]]].
    exists (make_row name expected_result is_sat :: rows).
    cbn [rows_of map fst snd]. rewrite H1, H2, H3.
    unfold resolution_row, dpll_row, dp_row.
    rewrite Hres, Hdpll, Hdp. simpl. rewrite Ho.
    repeat split. constructor; [|assumption].
    now apply make_row_for.
Qed.

Lemma harness_rows order file_limit sat unsat :
  (forall f, In f (cnf_files sat ++ cnf_files unsat) -> no_tautology (snd f)) ->
  (forall formula,
     NoDup (order formula) /\
     forall x, In x (order formula) <-> In x (DP.variables_of formula)) ->
  exists sat_rows unsat_rows,
    run_resolution sat unsat = Some (header :: sat_rows ++ unsat_rows) /\
    run_dpll sat unsat = Some (header :: sat_rows ++ unsat_rows) /\
    run_dp order file_limit sat unsat
    = header :: slice_to file_limit sat_rows ++ slice_to file_limit unsat_rows /\
    Forall2 (row_for "SAT") (cnf_files sat) sat_rows /\
    Forall2 (row_for "UNSAT") (cnf_files unsat) unsat_rows.
Proof.
  intros Hnt Horder.
  destruct (subfolder_rows order "SAT" (cnf_files sat))
    as [sat_rows [S1 [S2 [S3 S4]]]]; [now left | | assumption |].
  { intros f Hf. apply Hnt, in_or_app. now left. }
  destruct (subfolder_rows order "UNSAT" (cnf_files unsat))
    as [unsat_rows [U1 [U2 [U3 U4]]]]; [now right | | assumption |].
  { intros f Hf. apply Hnt, in_or_app. now right. }
  exists sat_rows, unsat_rows. unfold run_resolution, run_dpll, run_dp.
  rewrite S1, S2, U1, U2, <- S3, <- U3, !slice_to_map.
  repeat split; try reflexivity.
  - now rewrite S3.
  - now rewrite U3.
Qed.

(** The three harnesses on a folder whose [.cnf] files hold no clause
    with a literal and its negation.  [run_resolution] and [run_dpll]
    write the same rows, one for every [.cnf] file of [sat] and then of
    [unsat], in the order of the listing; [run_dp] writes the first
    [file_limit] of the rows of each subfolder and no row for the files
    after them.  The row of a file says [SAT] exactly when some valuation
    makes every clause of the file true, and [Yes] exactly when that is
    what its subfolder expects. *)
Theorem harness_rows_agree order file_limit sat unsat :
  (forall f, In f (cnf_files sat ++ cnf_files unsat) -> no_tautology (snd f)) ->
  (forall formula,
     NoDup (order formula) /\
     forall x, In x (order formula) <-> In x (DP.variables_of formula)) ->
  exists sat_rows unsat_rows,
    run_resolution sat unsat = Some (header :: sat_rows ++ unsat_rows) /\
    run_dpll sat unsat = Some (header :: sat_rows ++ unsat_rows) /\
    run_dp order file_limit sat unsat
    = header :: slice_to file_limit sat_rows ++ slice_to file_limit unsat_rows /\
    Forall2 (row_for "SAT") (cnf_files sat) sat_rows /\
    Forall2 (row_for "UNSAT") (cnf_files unsat) unsat_rows.
Proof. exact (harness_rows order file_limit sat unsat). Qed.

(** A folder: two [.cnf] files and another file in [sat], one [.cnf] file
    in [unsat]. *)
Definition example_sat : subfolder :=
  Some [("a.cnf", ["1 2 0"; "-1 2 0"]); ("notes.txt", ["1 -1 0"]);
        ("b.cnf", ["1 0"])]%string.

Definition example_unsat : subfolder :=
  Some [("u.cnf", ["1 0"; "-1 0"])]%string.

Lemma harness_rows_agree_example :
  (forall f, In f (cnf_files example_sat ++ cnf_files example_unsat) ->
             no_tautology (snd f)) /\
  (forall formula,
     NoDup (DP.variables_of formula) /\
     forall x, In x (DP.variables_of formula) <-> In x (DP.variables_of formula)) /\
  exists sat_rows unsat_rows,
    run_resolution example_sat example_unsat
    = Some (header :: sat_rows ++ unsat_rows) /\
    run_dpll example_sat example_unsat
    = Some (header :: sat_rows ++ unsat_rows) /\
    run_dp DP.variables_of 1 example_sat example_unsat
    = header :: slice_to 1 sat_rows ++ slice_to 1 unsat_rows /\
    Forall2 (row_for "SAT") (cnf_files example_sat) sat_rows /\
    Forall2 (row_for "UNSAT") (cnf_files example_unsat) unsat_rows.
Proof.
  assert (forall f, In f (cnf_files example_sat ++ cnf_files example_unsat) ->
                    no_tautology (snd f)) as Hnt.
  { intros f Hf. vm_compute in Hf.
    destruct Hf as [<- | [<- | [<- | []]]]; intros clause l Hc;
      vm_compute in Hc;
      repeat (destruct Hc as [<- | Hc]; [intros Hl Hn; simpl in Hl, Hn; lia|]);
      destruct Hc. }
  assert (forall formula,
     NoDup (DP.variables_of formula) /\
     forall x, In x (DP.variables_of formula) <-> In x (DP.variables_of formula))
    as Horder.
  { intros formula. split; [apply DP.variables_of_NoDup | tauto]. }
  split; [exact Hnt|]. split; [exact Horder|].
  exact (harness_rows_agree DP.variables_of 1 example_sat example_unsat
           Hnt Horder).
Defined.

(** With the limit 1 [run_dp] writes no row for [b.cnf], the second
    [.cnf] file of [sat], and the other two harnesses do. *)
Example run_dp_file_limit :
  run_dp DP.variables_of 1 example_sat example_unsat
  = [header; Row "a.cnf" "SAT" "SAT" "Yes"; Row "u.cnf" "UNSAT" "UNSAT" "Yes"]
  /\
  run_resolution example_sat example_unsat
  = Some [header; Row "a.cnf" "SAT" "SAT" "Yes"; Row "b.cnf" "SAT" "SAT" "Yes";
          Row "u.cnf" "UNSAT" "UNSAT" "Yes"].
Proof. split; vm_compute; reflexivity. Qed.

End Harness.
